(** * SfmLearner training orchestration ([train.py])

    A shallow embedding of the epoch / step scheduling of [train.py]:
    the two module-level globals ([n_iter], [best_photo_loss]), the
    training loop with its early [break], the validation loop with its
    pose buffer and bounded output writers, the combined Adam parameter
    set, and the checkpoint policy of [main].

    Conventions.
    - Python ints are [Z]; the values of Python floats and of finite
      tensors (loss values, parameters) are rationals [Q].  The tensor
      arithmetic of lines 242 and 357 rounds to the dtype of the tensors,
      which [train.py] does not choose: it is the interface
      [TensorArith].  Running averages and the comparisons of the
      checkpoint policy are exact; NaN and infinities are not modelled.
    - Tensors owned by the two networks are cells of a shared store
      ([gmap positive Q]); a network lists the identities of its
      parameters, so two networks may share a parameter.
    - The networks' forward pass, the three loss functions, autograd and
      the Adam update rule live outside [train.py]; they are variables of
      the section [Orchestration].
    - Every call that leaves [train.py] through a TensorBoard writer, the
      optimizer or [save_checkpoint] is appended to the [events] of the
      state, in program order.  Console output ([TermLogger], [print]) and
      wall-clock meters are not modelled. *)

From Stdlib Require Import ZArith QArith Qminmax Qabs Lia String.
From Stdlib Require SpecFloat.
From stdpp Require Import base tactics option list gmap strings.

Local Open Scope Z_scope.

(** ** Python helpers *)

(** [a < b] on floats. *)
Definition Qltb (a b : Q) : bool := (Qnum a * QDen b <? Qnum b * QDen a)%Z.

(** Python's [min(a, b)]: the first argument unless the second is
    strictly smaller. *)
Definition py_min (a b : Q) : Q := if Qltb b a then b else a.

(** [range(n)]. *)
Definition range (n : Z) : list Z := map Z.of_nat (seq 0 (Z.to_nat n)).

(** ** Exceptions and the state/exception monad *)

Inductive exn : Type :=
| ValueError | IndexError | ZeroDivisionError | UnboundLocalError
| EmptyStatisticError.

Inductive outcome (A : Type) : Type :=
| Ok (a : A)
| Raise (e : exn).
Arguments Ok {A} a.
Arguments Raise {A} e.

(** ** Observable calls *)

Inductive writer : Type :=
| TrainWriter | ValidWriter | OutputWriter (index : nat).

(** Tags of the images and histograms handed to a writer; the formatted
    numbers of the Python tag strings are kept as arguments. *)
Inductive image : Type :=
| TrainInputRef (j : nat) | TrainInputTgt
| TrainDispnetOutput (k : nat) | TrainDepthOutputNormalized (k : nat)
| TrainWarpedOutputs (k j : nat) | TrainDiffOutputs (k j : nat)
| TrainExpMaskOutputs (k j : nat)
| ValInputTgt (j : nat) | ValInputRef (j : nat)
| ValDispnetOutput | ValDepthOutputNormalized
| ValWarpedOutputs (j : nat) | ValDiffOutputs (j : nat)
| ValExpMaskOutputs (j : nat).

Inductive event : Type :=
| AddScalar (w : writer) (tag : string) (value : Q) (step : Z)
| AddImage (w : writer) (img : image) (step : Z)
| AddHistogram (w : writer) (tag : string) (values : list Q) (step : Z)
| NewSummaryWriter (w : writer)
| OptimizerStep (updated : list positive)
| SaveCheckpoint (epoch : Z) (disp_state exp_pose_state : list (positive * option Q))
                 (is_best : bool).

(** ** Data *)

(** A batch [(tgt_img, ref_imgs, intrinsics, intrinsics_inv)].  Only the
    number of reference images is inspected by [train.py]; the pixel data
    is an opaque token. *)
Record batch : Type := Batch { batch_data : nat; n_refs : nat }.

(** One row of [pose.view(-1, 6)]. *)
Definition pose6 : Type := list Q.

(** What the external forward pass and loss functions return for a batch. *)
Record outputs : Type := Outputs {
  loss_1 : Q;            (* photometric_reconstruction_loss *)
  loss_2 : Q;            (* explainability_loss *)
  loss_3 : Q;            (* smooth_loss *)
  n_scales : nat;        (* len(disparities), training mode *)
  pose_rows : list pose6 (* pose.view(-1, 6) *)
}.

Record net : Type := Net { net_parameters : list positive; net_training : bool }.

Record Args : Type := MkArgs {
  dataset_format : string;
  epochs : Z;
  epoch_size : Z;
  batch_size : Z;
  print_freq : Z;
  photo_loss_weight : Q;
  mask_loss_weight : Q;
  smooth_loss_weight : Q;
  sequence_length : Z;
  log_output : bool
}.

Record state : Type := State {
  n_iter : Z;                          (* global *)
  best_photo_loss : Q;                 (* global *)
  store : gmap positive Q;             (* parameter tensors, by identity *)
  disp_net : net;
  pose_exp_net : net;
  log_full : list (Q * Q * Q * Q);     (* rows of args.log_full *)
  log_summary : list (Q * Q);          (* rows of args.log_summary *)
  events : list event
}.

Definition M (A : Type) : Type := state -> outcome A * state.

Definition ret {A} (a : A) : M A := fun s => (Ok a, s).

Definition bind {A B} (k : A -> M B) (m : M A) : M B :=
  fun s => match m s with
           | (Ok a, s') => k a s'
           | (Raise e, s') => (Raise e, s')
           end.

Definition raise {A} (e : exn) : M A := fun s => (Raise e, s).
Definition get : M state := fun s => (Ok s, s).
Definition modify (f : state -> state) : M unit := fun s => (Ok tt, f s).

(** stdpp's monad notations: [x ← m; k] and [m;; k]. *)
#[global] Instance M_ret : MRet M := @ret.
#[global] Instance M_bind : MBind M := @bind.


(** [for x in l: f x]. *)
Fixpoint forM_ {A} (l : list A) (f : A -> M unit) : M unit :=
  match l with
  | [] => mret tt
  | x :: l' => f x;; forM_ l' f
  end.

Definition set_n_iter (n : Z) (s : state) : state :=
  State n (best_photo_loss s) (store s) (disp_net s) (pose_exp_net s)
        (log_full s) (log_summary s) (events s).
Definition set_best_photo_loss (b : Q) (s : state) : state :=
  State (n_iter s) b (store s) (disp_net s) (pose_exp_net s)
        (log_full s) (log_summary s) (events s).
Definition set_store (θ : gmap positive Q) (s : state) : state :=
  State (n_iter s) (best_photo_loss s) θ (disp_net s) (pose_exp_net s)
        (log_full s) (log_summary s) (events s).
Definition set_nets (d p : net) (s : state) : state :=
  State (n_iter s) (best_photo_loss s) (store s) d p
        (log_full s) (log_summary s) (events s).
Definition set_log_full (l : list (Q * Q * Q * Q)) (s : state) : state :=
  State (n_iter s) (best_photo_loss s) (store s) (disp_net s) (pose_exp_net s)
        l (log_summary s) (events s).
Definition set_log_summary (l : list (Q * Q)) (s : state) : state :=
  State (n_iter s) (best_photo_loss s) (store s) (disp_net s) (pose_exp_net s)
        (log_full s) l (events s).
Definition set_events (l : list event) (s : state) : state :=
  State (n_iter s) (best_photo_loss s) (store s) (disp_net s) (pose_exp_net s)
        (log_full s) (log_summary s) l.

Definition emit (e : event) : M unit :=
  modify (fun s => set_events (events s ++ [e]) s).

(** [net.train()] / [net.eval()]. *)
Definition set_mode (training : bool) (n : net) : net :=
  Net (net_parameters n) training.

(** ** AverageMeter *)

(** Modelled from the spec: [logger.AverageMeter] is not part of the
    sources at hand.  The spec's RunningStatistic keeps [(sum, count,
    lastValue)]; [update(value, weight)] adds [value * weight] to the sum
    and [weight] to the count and records the value; the average is
    [sum / count] and fails on an empty statistic. *)
Record AverageMeter : Type := Meter { m_val : Q; m_sum : Q; m_count : Q }.

Definition meter_new : AverageMeter := Meter 0 0 0.

Definition meter_update (m : AverageMeter) (val n : Q) : AverageMeter :=
  Meter val (m_sum m + val * n)%Q (m_count m + n)%Q.

Definition meter_avg (m : AverageMeter) : M Q :=
  if Qeq_bool (m_count m) 0 then raise EmptyStatisticError
  else mret (m_sum m / m_count m)%Q.

(** ** The combined optimizer (lines 154-159) *)

(** [parameters = set(); for net_ in nets: parameters |= set(net_.parameters())] *)
Definition combined_parameters (nets : list net) : gset positive :=
  foldl (fun parameters net_ => parameters ∪ list_to_set (net_parameters net_))
        ∅ nets.

(** ** The checkpoint policy (lines 190-195) *)

Definition checkpoint_policy (best_photo_loss valid_photo_loss : Q) : bool * Q :=
  let best_photo_loss :=
    if Qltb best_photo_loss 0 then valid_photo_loss else best_photo_loss in
  let is_best := Qltb valid_photo_loss best_photo_loss in
  (is_best, py_min valid_photo_loss best_photo_loss).

(** ** numpy: [np.zeros((n, 6))] and [buf[lo:hi] = rows] *)

Definition np_zeros (n : Z) : M (list pose6) :=
  if n <? 0 then raise ValueError
  else mret (replicate (Z.to_nat n) (replicate 6 0%Q)).

(** A slice bound is counted from the end when negative and then clipped
    to the array. *)
Definition slice_bound (len k : Z) : Z :=
  Z.max 0 (Z.min len (if k <? 0 then k + len else k)).

(** The right-hand side must have as many rows as the slice, or one row,
    which is then broadcast. *)
Definition np_broadcast (m : nat) (rows : list pose6) : option (list pose6) :=
  if decide (length rows = m) then Some rows
  else match rows with
       | [r] => Some (replicate m r)
       | _ => None
       end.

Definition slice_assign (buf : list pose6) (lo hi : Z) (rows : list pose6)
  : M (list pose6) :=
  let len := Z.of_nat (length buf) in
  let lo' := Z.to_nat (slice_bound len lo) in
  let hi' := Z.to_nat (slice_bound len hi) in
  let m := (hi' - lo')%nat in
  match np_broadcast m rows with
  | Some rows => mret (take lo' buf ++ rows ++ drop (lo' + m) buf)
  | None => raise ValueError
  end.

(** [poses[:, k]] *)
Definition column (k : nat) (poses : list pose6) : list Q :=
  map (fun r => nth k r 0%Q) poses.

(** ** Tensor arithmetic

    [w1*loss_1 + w2*loss_2 + w3*loss_3] multiplies a Python float by a
    0-dim tensor and adds 0-dim tensors.  Both operations are torch's and
    round their result to the dtype of the tensors. *)
Class TensorArith : Type := {
  tensor_mul : Q -> Q -> Q;   (* [w * loss] *)
  tensor_add : Q -> Q -> Q    (* [loss + loss] *)
}.

(** Arithmetic without rounding. *)
Definition exact_arith : TensorArith :=
  {| tensor_mul := Qmult; tensor_add := Qplus |}.

Section Orchestration.

Context {torch : TensorArith}.

(** The two networks and the three loss functions, evaluated on a batch
    under the current parameters: arguments are the modes of [disp_net]
    and [pose_exp_net], the parameter store and the batch. *)
Variable forward : bool -> bool -> gmap positive Q -> batch -> outputs.
(** [loss.backward()]: the gradient of the combined loss for each parameter. *)
Variable backward : gmap positive Q -> batch -> Q -> positive -> Q.
(** Adam's update of one parameter from its value and its gradient. *)
Variable adam : positive -> Q -> Q -> Q.

(** [optimizer.zero_grad(); loss.backward(); optimizer.step()]: every
    parameter held by the optimizer is visited once; gradients are those
    of the store before the step. *)
Definition optimizer_step (optimizer : gset positive) (grad : positive -> Q) : M unit :=
  modify (fun s =>
    set_store (foldl (fun θ p => alter (fun v => adam p v (grad p)) p θ)
                     (store s) (elements optimizer)) s);;
  emit (OptimizerStep (elements optimizer)).

(** ** [train] (lines 212-302) *)

(** Lines 251-273. *)
Definition train_images (b : batch) (o : outputs) (n_iter : Z) : M unit :=
  (if decide (0 < n_refs b)%nat
   then emit (AddImage TrainWriter (TrainInputRef 0) (n_iter - 1))
   else raise IndexError);;
  emit (AddImage TrainWriter TrainInputTgt n_iter);;
  (if decide (1 < n_refs b)%nat
   then emit (AddImage TrainWriter (TrainInputRef 1) (n_iter + 1))
   else raise IndexError);;
  forM_ (seq 0 (n_scales o)) (fun k =>
    emit (AddImage TrainWriter (TrainDispnetOutput k) n_iter);;
    emit (AddImage TrainWriter (TrainDepthOutputNormalized k) n_iter);;
    forM_ (seq 0 (n_refs b)) (fun j =>
      emit (AddImage TrainWriter (TrainWarpedOutputs k j) n_iter);;
      emit (AddImage TrainWriter (TrainDiffOutputs k j) n_iter);;
      emit (AddImage TrainWriter (TrainExpMaskOutputs k j) n_iter))).

(** The body of the loop, lines 226-296: everything before the [break]
    test.  [losses] is the local meter. *)
Definition train_step (args : Args) (optimizer : gset positive)
    (i : Z) (b : batch) (losses : AverageMeter) : M AverageMeter :=
  let w1 := photo_loss_weight args in
  let w2 := mask_loss_weight args in
  let w3 := smooth_loss_weight args in
  s ← get;
  let o := forward (net_training (disp_net s)) (net_training (pose_exp_net s))
                   (store s) b in
  let loss := tensor_add (tensor_add (tensor_mul w1 (loss_1 o))
                                     (tensor_mul w2 (loss_2 o)))
                         (tensor_mul w3 (loss_3 o)) in
  emit (AddScalar TrainWriter "photometric_error" (loss_1 o) (n_iter s));;
  emit (AddScalar TrainWriter "explanability_loss" (loss_2 o) (n_iter s));;
  emit (AddScalar TrainWriter "disparity_smoothness_loss" (loss_3 o) (n_iter s));;
  emit (AddScalar TrainWriter "total_loss" loss (n_iter s));;
  (if (n_iter s `mod` 200 =? 0) && log_output args
   then train_images b o (n_iter s) else mret tt);;
  let losses := meter_update losses loss (inject_Z (batch_size args)) in
  optimizer_step optimizer (backward (store s) b loss);;
  modify (fun s => set_log_full
            (log_full s ++ [(loss, loss_1 o, loss_2 o, loss_3 o)]) s);;
  (if print_freq args =? 0 then raise ZeroDivisionError else mret tt);;
  mret losses.

(** [for i, batch in enumerate(train_loader)], with the [break] of line
    297 placed before the increment of line 300. *)
Fixpoint train_loop (args : Args) (optimizer : gset positive) (epoch_size : Z)
    (i : Z) (batches : list batch) (losses : AverageMeter) : M AverageMeter :=
  match batches with
  | [] => mret losses
  | b :: rest =>
      losses ← train_step args optimizer i b losses;
      if epoch_size - 1 <=? i then mret losses
      else
        modify (fun s => set_n_iter (n_iter s + 1) s);;
        train_loop args optimizer epoch_size (i + 1) rest losses
  end.

Definition train (args : Args) (train_loader : list batch)
    (optimizer : gset positive) (epoch_size : Z) : M Q :=
  modify (fun s => set_nets (set_mode true (disp_net s))
                            (set_mode true (pose_exp_net s)) s);;
  losses ← train_loop args optimizer epoch_size 0 train_loader meter_new;
  meter_avg losses.

(** ** [validate] (lines 305-381) *)

(** The locals of [validate] that survive a loop iteration. *)
Record val_locals : Type := Locals {
  v_poses : list pose6;
  v_losses : AverageMeter;
  v_losses1 : AverageMeter;
  v_losses2 : AverageMeter
}.

(** Lines 337-350. *)
Definition validate_images (epoch : Z) (index : nat) (b : batch) : M unit :=
  (if epoch =? 0 then
     forM_ (seq 0 (n_refs b)) (fun j =>
       emit (AddImage (OutputWriter index) (ValInputTgt j) 0);;
       emit (AddImage (OutputWriter index) (ValInputRef j) 1))
   else mret tt);;
  emit (AddImage (OutputWriter index) ValDispnetOutput epoch);;
  emit (AddImage (OutputWriter index) ValDepthOutputNormalized epoch);;
  forM_ (seq 0 (n_refs b)) (fun j =>
    emit (AddImage (OutputWriter index) (ValWarpedOutputs j) epoch);;
    emit (AddImage (OutputWriter index) (ValDiffOutputs j) epoch);;
    emit (AddImage (OutputWriter index) (ValExpMaskOutputs j) epoch)).

(** The body of the loop, lines 322-371.  [output_writers] is the number
    of writers in the list, [len_val_loader] is [len(val_loader)].  In
    line 336, [i/100] is only evaluated when [i%100 == 0], where true and
    floor division agree. *)
Definition validate_step (args : Args) (epoch : Z) (output_writers : nat)
    (len_val_loader : Z) (i : Z) (b : batch) (l : val_locals) : M val_locals :=
  let log_outputs := bool_decide (0 < output_writers)%nat in
  let w1 := photo_loss_weight args in
  let w2 := mask_loss_weight args in
  let w3 := smooth_loss_weight args in
  s ← get;
  let o := forward (net_training (disp_net s)) (net_training (pose_exp_net s))
                   (store s) b in
  (if log_outputs && (i `mod` 100 =? 0) && (i `div` 100 <? Z.of_nat output_writers)
   then validate_images epoch (Z.to_nat (i `div` 100)) b
   else mret tt);;
  poses ← (if log_outputs && (i <? len_val_loader - 1) then
             let step := batch_size args * (sequence_length args - 1) in
             slice_assign (v_poses l) (i * step) ((i + 1) * step) (pose_rows o)
           else mret (v_poses l));
  let loss := tensor_add (tensor_add (tensor_mul w1 (loss_1 o))
                                     (tensor_mul w2 (loss_2 o)))
                         (tensor_mul w3 (loss_3 o)) in
  (if print_freq args =? 0 then raise ZeroDivisionError else mret tt);;
  mret (Locals poses
               (meter_update (v_losses l) loss 1)
               (meter_update (v_losses1 l) (loss_1 o) 1)
               (meter_update (v_losses2 l) (loss_2 o) 1)).

Fixpoint validate_loop (args : Args) (epoch : Z) (output_writers : nat)
    (len_val_loader : Z) (i : Z) (batches : list batch) (l : val_locals)
  : M val_locals :=
  match batches with
  | [] => mret l
  | b :: rest =>
      l ← validate_step args epoch output_writers len_val_loader i b l;
      validate_loop args epoch output_writers len_val_loader (i + 1) rest l
  end.

(** Lines 372-378. *)
Definition validate_histograms (epoch : Z) (poses : list pose6) : M unit :=
  emit (AddHistogram (OutputWriter 0) "val poses_tx" (column 0 poses) epoch);;
  emit (AddHistogram (OutputWriter 0) "val poses_ty" (column 1 poses) epoch);;
  emit (AddHistogram (OutputWriter 0) "val poses_tz" (column 2 poses) epoch);;
  emit (AddHistogram (OutputWriter 0) "val poses_rx" (column 3 poses) epoch);;
  emit (AddHistogram (OutputWriter 0) "val poses_ry" (column 4 poses) epoch);;
  emit (AddHistogram (OutputWriter 0) "val poses_rz" (column 5 poses) epoch).

(** [validate] up to its [return]: the value is the locals at that point. *)
Definition validate_body (args : Args) (val_loader : list batch) (epoch : Z)
    (output_writers : nat) : M val_locals :=
  let log_outputs := bool_decide (0 < output_writers)%nat in
  let len_val_loader := Z.of_nat (length val_loader) in
  poses ← np_zeros ((len_val_loader - 1) * batch_size args
                    * (sequence_length args - 1));
  modify (fun s => set_nets (set_mode false (disp_net s))
                            (set_mode false (pose_exp_net s)) s);;
  l ← validate_loop args epoch output_writers len_val_loader 0 val_loader
        (Locals poses meter_new meter_new meter_new);
  (if log_outputs then validate_histograms epoch (v_poses l) else mret tt);;
  mret l.

Definition validate (args : Args) (val_loader : list batch) (epoch : Z)
    (output_writers : nat) : M (Q * Q * Q) :=
  l ← validate_body args val_loader epoch output_writers;
  avg1 ← meter_avg (v_losses1 l);
  avg2 ← meter_avg (v_losses2 l);
  avg ← meter_avg (v_losses l);
  mret (avg1, avg2, avg).

(** ** [main] (lines 69-209) *)

(** [net.state_dict()] *)
Definition state_dict (θ : gmap positive Q) (n : net) : list (positive * option Q) :=
  map (fun p => (p, θ !! p)) (net_parameters n).

(** Lines 183-208: what an epoch does with the results of [train] and
    [validate]. *)
Definition checkpoint_and_log (epoch : Z) (train_loss : Q) (valid : Q * Q * Q)
  : M unit :=
  let '(valid_photo_loss, valid_exp_loss, valid_total_loss) := valid in
  s ← get;
  emit (AddScalar ValidWriter "photometric_error" (valid_photo_loss * 4) (n_iter s));;
  emit (AddScalar ValidWriter "explanability_loss" (valid_exp_loss * 4) (n_iter s));;
  emit (AddScalar ValidWriter "total_loss" (valid_total_loss * 4) (n_iter s));;
  let '(is_best, best) := checkpoint_policy (best_photo_loss s) valid_photo_loss in
  modify (set_best_photo_loss best);;
  emit (SaveCheckpoint (epoch + 1) (state_dict (store s) (disp_net s))
                       (state_dict (store s) (pose_exp_net s)) is_best);;
  modify (fun s => set_log_summary
            (log_summary s ++ [(train_loss, valid_total_loss)]) s).

(** The body of the epoch loop, lines 173-208.  [train_loader epoch] is
    the shuffled pass over the training set made in that epoch. *)
Definition main_epoch (args : Args) (train_loader : Z -> list batch)
    (val_loader : list batch) (optimizer : gset positive) (epoch_size : Z)
    (output_writers : nat) (epoch : Z) : M unit :=
  train_loss ← train args (train_loader epoch) optimizer epoch_size;
  valid ← validate args val_loader epoch output_writers;
  checkpoint_and_log epoch train_loss valid.

(** Lines 71-167 of [main]: everything before the epoch loop.  [θ0],
    [disp_params] and [pose_params] describe the two freshly initialised
    (or pre-trained) networks.  [len(train_loader)], the same for every
    pass, is read off the first pass.  A dataset format other than the two
    known ones leaves the local name [SequenceFolder] unbound, which
    surfaces at its first use in line 105.  The value is what the loop
    needs: the optimizer's parameters, [args.epoch_size] and the number of
    [output_writers]. *)
Definition main_setup (args : Args) (θ0 : gmap positive Q)
    (disp_params pose_params : list positive)
    (train_loader : Z -> list batch) : M (gset positive * Z * nat) :=
  let SequenceFolder_bound :=
    if decide (dataset_format args = "stacked") then true
    else if decide (dataset_format args = "sequential") then true
    else false in
  emit (NewSummaryWriter TrainWriter);;
  emit (NewSummaryWriter ValidWriter);;
  (if log_output args
   then forM_ (seq 0 3) (fun i => emit (NewSummaryWriter (OutputWriter i)))
   else mret tt);;
  let output_writers := if log_output args then 3%nat else 0%nat in
  (if SequenceFolder_bound then mret tt else raise UnboundLocalError);;
  let epoch_size :=
    if epoch_size args =? 0 then Z.of_nat (length (train_loader 0))
    else epoch_size args in
  modify (fun s => set_nets (Net disp_params true) (Net pose_params true)
                            (set_store θ0 s));;
  s ← get;
  let optimizer := combined_parameters [disp_net s; pose_exp_net s] in
  modify (set_log_summary []);;
  modify (set_log_full []);;
  mret (optimizer, epoch_size, output_writers).

(** Lines 172-208: [for epoch in range(args.epochs)]. *)
Definition main_loop (args : Args) (train_loader : Z -> list batch)
    (val_loader : list batch) (cfg : gset positive * Z * nat)
    (epochs : list Z) : M unit :=
  let '(optimizer, epoch_size, output_writers) := cfg in
  forM_ epochs (main_epoch args train_loader val_loader optimizer epoch_size
                           output_writers).

Definition main (args : Args) (θ0 : gmap positive Q)
    (disp_params pose_params : list positive)
    (train_loader : Z -> list batch) (val_loader : list batch) : M unit :=
  cfg ← main_setup args θ0 disp_params pose_params train_loader;
  main_loop args train_loader val_loader cfg (range (epochs args)).

End Orchestration.

(** The module-level globals before [main] runs (lines 66-67); no network
    exists yet. *)
Definition initial_state : state :=
  State 0 (-1) ∅ (Net [] true) (Net [] true) [] [] [].

(** ** A small concrete world, for evaluating the definitions *)

Module Fixture.

(** The concrete world computes without rounding. *)
#[global] Instance arith : TensorArith := exact_arith.

(** Losses are read off the parameter store: the photometric loss is
    the absolute value of parameter 1, the mask loss that of parameter
    2; the smoothness loss is zero.  There are four scales, and each
    sample yields one pose row per reference image. *)
Definition forward (_ _ : bool) (θ : gmap positive Q) (b : batch) : outputs :=
  Outputs (Qabs (default 0%Q (θ !! 1%positive)))
          (Qabs (default 0%Q (θ !! 2%positive))) 0 4
          (replicate (2 * n_refs b) (replicate 6 (inject_Z (Z.of_nat (batch_data b))))).

(** The same world with a photometric loss that may be negative. *)
Definition forward_signed (_ _ : bool) (θ : gmap positive Q) (b : batch)
  : outputs :=
  Outputs (default 0%Q (θ !! 1%positive))
          (Qabs (default 0%Q (θ !! 2%positive))) 0 4
          (replicate (2 * n_refs b) (replicate 6 (inject_Z (Z.of_nat (batch_data b))))).

(** Every step moves parameter 1 down by a tenth. *)
Definition backward (_ : gmap positive Q) (_ : batch) (_ : Q) (p : positive) : Q :=
  match p with 1%positive => -1#10 | _ => 0 end.
Definition adam (_ : positive) (v g : Q) : Q := Qred (v + g).

(** Two epochs of three steps over ten training batches of two samples
    with two reference images each; five validation batches. *)
Definition args : Args :=
  MkArgs "sequential" 2 3 2 10 1 1 (2#10) 3 true.
Definition θ0 : gmap positive Q := {[ 1%positive := 8#10; 2%positive := 1#10 ]}.
Definition θ0_signed : gmap positive Q :=
  {[ 1%positive := -2#10; 2%positive := 1#10 ]}.
Definition disp_params : list positive := [1%positive].
Definition pose_params : list positive := [1%positive; 2%positive].
Definition train_loader (_ : Z) : list batch :=
  map (fun k => Batch k 2) (seq 0 10).
Definition val_loader : list batch := map (fun k => Batch k 2) (seq 0 5).

Definition run : outcome unit * state :=
  main forward backward adam args θ0 disp_params pose_params
       train_loader val_loader initial_state.

End Fixture.

(** ** IEEE binary32 tensor arithmetic

    torch's default dtype is float32.  Its arithmetic is taken from the
    Standard Library's specification of IEEE 754 ([SpecFloat]), at
    precision 24 and maximal exponent 128, rounding to nearest even. *)

Module Float32.

Definition prec : Z := 24.
Definition emax : Z := 128.

(** The value of a finite float.  Infinities and NaN are no rationals;
    they are sent to 0 and do not occur in the runs considered below. *)
Definition to_Q (x : SpecFloat.spec_float) : Q :=
  match x with
  | SpecFloat.S754_finite sign m e =>
      let v := if 0 <=? e then inject_Z (Z.pos m * 2 ^ e)
               else Qmake (Z.pos m) (2 ^ Z.to_pos (- e)) in
      if sign then (- v)%Q else v
  | _ => 0%Q
  end.

(** The float of a rational [n/d]: the correctly rounded quotient of the
    floats of [n] and [d].  For a value that is a float already, and for
    a quotient of two integers below [2^24], it is the nearest float. *)
Definition of_Q (q : Q) : SpecFloat.spec_float :=
  SpecFloat.SFdiv prec emax
    (SpecFloat.binary_normalize prec emax (Qnum q) 0 false)
    (SpecFloat.binary_normalize prec emax (Z.pos (Qden q)) 0 false).

(** [w * t]: the Python float [w] is converted to the dtype of [t]. *)
Definition mul (w t : Q) : Q := to_Q (SpecFloat.SFmul prec emax (of_Q w) (of_Q t)).
Definition add (t u : Q) : Q := to_Q (SpecFloat.SFadd prec emax (of_Q t) (of_Q u)).

Definition arith : TensorArith := {| tensor_mul := mul; tensor_add := add |}.

(** [0.3] as a float32. *)
Definition three_tenths : Q := to_Q (of_Q (3 # 10)).

End Float32.

(** * Properties *)

(** ** Running the monad *)

Lemma bind_run {A B} (m : M A) (k : A -> M B) (s : state) :
  (m ≫= k) s = match m s with
                | (Ok a, s') => k a s'
                | (Raise e, s') => (Raise e, s')
                end.
Proof. reflexivity. Qed.

Lemma mret_run {A} (a : A) (s : state) : (mret a : M A) s = (Ok a, s).
Proof. reflexivity. Qed.

Lemma bind_get {B} (k : state -> M B) (s : state) : (get ≫= k) s = k s s.
Proof. reflexivity. Qed.

Lemma bind_modify {B} (f : state -> state) (k : M B) (s : state) :
  (modify f;; k) s = k (f s).
Proof. reflexivity. Qed.

(** [preserves R m]: whatever [m] does, and whether or not it raises, the
    state it leaves is related by [R] to the state it started from. *)
Definition preserves {A} (R : relation state) (m : M A) : Prop :=
  forall s, R s (m s).2.

(** The relation "the observation [f] did not change". *)
Definition same {B} (f : state -> B) : relation state :=
  fun s s' => f s' = f s.

#[global] Instance same_preorder {B} (f : state -> B) : PreOrder (same f).
Proof. split; unfold same; [intros s | intros s1 s2 s3]; congruence. Qed.

Section Preserves.
Context (R : relation state) `{!PreOrder R}.

Lemma preserves_ret {A} (a : A) : preserves R (mret a).
Proof. intros s. simpl. reflexivity. Qed.

Lemma preserves_raise {A} (e : exn) : preserves R (@raise A e).
Proof. intros s. simpl. reflexivity. Qed.

Lemma preserves_get : preserves R get.
Proof. intros s. simpl. reflexivity. Qed.

Lemma preserves_modify (f : state -> state) :
  (forall s, R s (f s)) -> preserves R (modify f).
Proof. intros H s. apply H. Qed.

Lemma preserves_bind {A B} (m : M A) (k : A -> M B) :
  preserves R m -> (forall a, preserves R (k a)) -> preserves R (m ≫= k).
Proof.
  intros Hm Hk s. rewrite bind_run. specialize (Hm s).
  destruct (m s) as [[a|e] s1]; simpl in *; [|exact Hm].
  etransitivity; [exact Hm | apply Hk].
Qed.

Lemma preserves_if {A} (c : bool) (m1 m2 : M A) :
  preserves R m1 -> preserves R m2 -> preserves R (if c then m1 else m2).
Proof. by destruct c. Qed.

Lemma preserves_forM {A} (l : list A) (f : A -> M unit) :
  (forall x, preserves R (f x)) -> preserves R (forM_ l f).
Proof.
  intros Hf. induction l as [|x l IH]; simpl.
  - apply preserves_ret.
  - apply preserves_bind; auto.
Qed.

Lemma preserves_np_zeros (n : Z) : preserves R (np_zeros n).
Proof.
  unfold np_zeros. destruct (n <? 0); [apply preserves_raise | apply preserves_ret].
Qed.

Lemma preserves_slice_assign buf lo hi rows :
  preserves R (slice_assign buf lo hi rows).
Proof.
  unfold slice_assign.
  destruct (np_broadcast _ _); [apply preserves_ret | apply preserves_raise].
Qed.

Lemma preserves_meter_avg (m : AverageMeter) : preserves R (meter_avg m).
Proof.
  unfold meter_avg. destruct (Qeq_bool _ _);
    [apply preserves_raise | apply preserves_ret].
Qed.
End Preserves.

Lemma preserves_weaken {A} (R R' : relation state) (m : M A) :
  (forall s s', R s s' -> R' s s') -> preserves R m -> preserves R' m.
Proof. intros HR Hm s. apply HR, Hm. Qed.

(** What a state reached from [s] by [m] looks like, given the outcome. *)
Lemma preserves_run {A} (R : relation state) (m : M A) s r s' :
  preserves R m -> m s = (r, s') -> R s s'.
Proof. intros H E. specialize (H s). by rewrite E in H. Qed.

(** ** Counting optimizer steps in the event log *)

Definition is_step (e : event) : bool :=
  match e with OptimizerStep _ => true | _ => false end.

Definition count_steps (l : list event) : nat :=
  length (List.filter is_step l).

Lemma count_steps_app l1 l2 :
  count_steps (l1 ++ l2) = (count_steps l1 + count_steps l2)%nat.
Proof. unfold count_steps. by rewrite List.filter_app, length_app. Qed.

Lemma count_steps_concat_map {A} (g : A -> list event) (l : list A) :
  (forall x, count_steps (g x) = 0%nat) ->
  count_steps (concat (map g l)) = 0%nat.
Proof.
  intros Hg. induction l as [|x l IH]; [reflexivity |].
  simpl. rewrite count_steps_app, Hg, IH. reflexivity.
Qed.

(** Writer calls and mode switches leave the globals, the parameters and
    the log files alone, and add no optimizer step to the event log. *)
Definition quiet (s s' : state) : Prop :=
  n_iter s' = n_iter s /\ best_photo_loss s' = best_photo_loss s /\
  store s' = store s /\
  net_parameters (disp_net s') = net_parameters (disp_net s) /\
  net_parameters (pose_exp_net s') = net_parameters (pose_exp_net s) /\
  log_full s' = log_full s /\
  log_summary s' = log_summary s /\
  count_steps (events s') = count_steps (events s).

#[global] Instance quiet_preorder : PreOrder quiet.
Proof.
  split.
  - intros s. unfold quiet. tauto.
  - intros s1 s2 s3. unfold quiet. intros H1 H2.
    destruct_and!. repeat split; congruence.
Qed.

Lemma emit_quiet e : is_step e = false -> preserves quiet (emit e).
Proof.
  intros He s. unfold quiet. simpl. repeat split; try reflexivity.
  rewrite count_steps_app. unfold count_steps at 2. simpl. rewrite He. simpl. lia.
Qed.

(** Walk down a monadic program; [leaf] is tried on what is left. *)
Ltac frame_with leaf :=
  repeat first
    [ leaf
    | apply preserves_bind; [exact _ | | intros ?]
    | apply preserves_forM; [exact _ | intros ?]
    | apply preserves_ret; exact _
    | apply preserves_raise; exact _
    | apply preserves_get; exact _
    | apply preserves_meter_avg; exact _
    | apply preserves_np_zeros; exact _
    | apply preserves_slice_assign; exact _
    | progress cbv zeta
    | apply preserves_if
    | match goal with
      | |- preserves _ (if decide _ then _ else _) => case_decide
      | |- preserves _ (let '(_, _) := ?p in _) => destruct p
      end ].

Lemma modify_quiet (f : state -> state) :
  (forall s, quiet s (f s)) -> preserves quiet (modify f).
Proof. apply preserves_modify. Qed.

Ltac quiet_emits :=
  frame_with ltac:(first
    [ apply emit_quiet; reflexivity
    | apply modify_quiet; intros ?; unfold quiet; simpl; tauto ]).

Section OrchestrationFacts.

Context {torch : TensorArith}.

Variable forward : bool -> bool -> gmap positive Q -> batch -> outputs.
Variable backward : gmap positive Q -> batch -> Q -> positive -> Q.
Variable adam : positive -> Q -> Q -> Q.

Lemma train_images_quiet b o n : preserves quiet (train_images b o n).
Proof. unfold train_images. quiet_emits. Qed.

Lemma validate_images_quiet epoch index b :
  preserves quiet (validate_images epoch index b).
Proof. unfold validate_images. quiet_emits. Qed.

Lemma validate_histograms_quiet epoch poses :
  preserves quiet (validate_histograms epoch poses).
Proof. unfold validate_histograms. quiet_emits. Qed.

End OrchestrationFacts.

(** ** The combined optimizer *)

Lemma elem_of_combine_into (nets : list net) (acc : gset positive) (p : positive) :
  p ∈ foldl (fun parameters net_ => parameters ∪ list_to_set (net_parameters net_))
            acc nets
  <-> p ∈ acc \/ exists n, n ∈ nets /\ p ∈ net_parameters n.
Proof.
  revert acc. induction nets as [|n nets IH]; intros acc; simpl.
  - split; [auto | intros [H | (n & Hn & _)]; [done | by apply elem_of_nil in Hn]].
  - rewrite IH, elem_of_union, elem_of_list_to_set. split.
    + intros [[H | H] | (n' & Hn' & Hp)]; [by left | right | right].
      * exists n. split; [left | done].
      * exists n'. split; [by right | done].
    + intros [H | (n' & Hn' & Hp)]; [by left; left |].
      apply elem_of_cons in Hn' as [-> | Hn']; [by left; right |].
      right. by exists n'.
Qed.

Lemma elem_of_combined_parameters (nets : list net) (p : positive) :
  p ∈ combined_parameters nets <-> exists n, n ∈ nets /\ p ∈ net_parameters n.
Proof.
  unfold combined_parameters. rewrite elem_of_combine_into. split.
  - intros [H | H]; [by apply not_elem_of_empty in H | done].
  - by right.
Qed.

(** Visiting a duplicate-free list of parameters applies the update to
    each listed cell once and to no other cell. *)
Lemma foldl_alter_lookup (f : positive -> Q -> Q) (l : list positive)
    (θ : gmap positive Q) (p : positive) :
  NoDup l ->
  foldl (fun θ q => alter (f q) q θ) θ l !! p
  = if decide (p ∈ l) then f p <$> θ !! p else θ !! p.
Proof.
  intros Hl. revert θ. induction Hl as [|q l Hq Hl IH]; intros θ; simpl.
  - destruct (decide (p ∈ [])) as [H | H]; [by apply elem_of_nil in H | done].
  - rewrite IH. destruct (decide (p = q)) as [-> | Hne].
    + rewrite (decide_False (P := q ∈ l)) by done.
      rewrite (decide_True (P := q ∈ q :: l)) by left.
      by rewrite lookup_alter_eq.
    + rewrite lookup_alter_ne by done.
      destruct (decide (p ∈ l)) as [Hin | Hnin].
      * rewrite (decide_True (P := p ∈ q :: l)) by (by right). done.
      * rewrite (decide_False (P := p ∈ q :: l)); [done |].
        intros [? | ?]%elem_of_cons; done.
Qed.

Section OptimizerFacts.

Variable adam : positive -> Q -> Q -> Q.

Lemma optimizer_step_run (optimizer : gset positive) (grad : positive -> Q) s :
  optimizer_step adam optimizer grad s
  = (Ok tt,
     set_events (events s ++ [OptimizerStep (elements optimizer)])
       (set_store (foldl (fun θ p => alter (fun v => adam p v (grad p)) p θ)
                         (store s) (elements optimizer)) s)).
Proof. reflexivity. Qed.

Lemma optimizer_step_store (optimizer : gset positive) (grad : positive -> Q) s p :
  store (optimizer_step adam optimizer grad s).2 !! p
  = if decide (p ∈ optimizer) then (fun v => adam p v (grad p)) <$> store s !! p
    else store s !! p.
Proof.
  rewrite optimizer_step_run. simpl.
  rewrite (foldl_alter_lookup (fun p v => adam p v (grad p)))
    by apply NoDup_elements.
  destruct (decide (p ∈ optimizer)) as [H | H].
  - rewrite decide_True; [done | by apply elem_of_elements].
  - rewrite decide_False; [done | by rewrite elem_of_elements].
Qed.

(** C7. The parameter set built by the loop of lines 154-156 over any list
    of networks is the union of their parameters, without duplicates, and
    one optimizer step over it applies the update exactly once to every
    parameter of every network of the list, however many networks there
    are (and touches nothing else). *)
Theorem C7_combined_optimizer_union (nets : list net) :
  let optimizer := combined_parameters nets in
  (forall p, p ∈ optimizer <-> exists n, n ∈ nets /\ p ∈ net_parameters n) /\
  NoDup (elements optimizer) /\
  forall (grad : positive -> Q) (s : state),
    let r := optimizer_step adam optimizer grad s in
    r.1 = Ok tt /\
    events r.2 = events s ++ [OptimizerStep (elements optimizer)] /\
    (forall n p, n ∈ nets -> p ∈ net_parameters n ->
       p ∈ elements optimizer /\
       store r.2 !! p = (fun v => adam p v (grad p)) <$> store s !! p) /\
    (forall p, p ∉ optimizer -> store r.2 !! p = store s !! p).
Proof.
  intros optimizer. split; [apply elem_of_combined_parameters |].
  split; [apply NoDup_elements |].
  intros grad s r. subst r. split; [done |]. split; [done |]. split.
  - intros n p Hn Hp.
    assert (p ∈ optimizer) as Hin
      by (apply elem_of_combined_parameters; eauto).
    split; [by apply elem_of_elements |].
    rewrite optimizer_step_store. by rewrite decide_True.
  - intros p Hp. rewrite optimizer_step_store. by rewrite decide_False.
Qed.

End OptimizerFacts.

(** ** Programs that only write events *)

Definition log_events (l : list event) (s : state) : state :=
  set_events (events s ++ l) s.

Lemma log_events_nil s : log_events [] s = s.
Proof. destruct s. unfold log_events, set_events. simpl. by rewrite app_nil_r. Qed.

Lemma log_events_app l1 l2 s :
  log_events l2 (log_events l1 s) = log_events (l1 ++ l2) s.
Proof. unfold log_events, set_events. simpl. by rewrite app_assoc. Qed.

(** [writes m l]: [m] returns normally after appending exactly [l]. *)
Definition writes (m : M unit) (l : list event) : Prop :=
  forall s, m s = (Ok tt, log_events l s).

Lemma bind_emit {B} (e : event) (k : M B) (s : state) :
  (emit e;; k) s = k (log_events [e] s).
Proof. reflexivity. Qed.

Lemma writes_emit e : writes (emit e) [e].
Proof. intros s. reflexivity. Qed.

Lemma writes_ret : writes (mret tt) [].
Proof. intros s. by rewrite log_events_nil. Qed.

Lemma writes_bind (m : M unit) (k : M unit) l1 l2 :
  writes m l1 -> writes k l2 -> writes (m;; k) (l1 ++ l2).
Proof.
  intros Hm Hk s. rewrite bind_run, Hm, Hk. by rewrite log_events_app.
Qed.

Lemma writes_forM {A} (l : list A) (f : A -> M unit) (g : A -> list event) :
  (forall x, writes (f x) (g x)) -> writes (forM_ l f) (concat (map g l)).
Proof.
  intros Hf. induction l as [|x l IH]; simpl.
  - apply writes_ret.
  - by apply writes_bind.
Qed.

Lemma writes_eq (m : M unit) l l' : writes m l' -> l' = l -> writes m l.
Proof. by intros H <-. Qed.

Lemma writes_if (c : bool) (m1 m2 : M unit) l1 l2 :
  writes m1 l1 -> writes m2 l2 ->
  writes (if c then m1 else m2) (if c then l1 else l2).
Proof. by destruct c. Qed.

Ltac writes_auto :=
  eapply writes_eq;
  [ repeat first
      [ apply writes_emit
      | apply writes_ret
      | eapply writes_bind
      | eapply writes_if
      | eapply writes_forM; intros ? ]
  | reflexivity ].

(** ** Facts about [train] *)

(** The images of lines 251-273, in the order they are written. *)
Definition train_image_events (b : batch) (o : outputs) (n_iter : Z) : list event :=
  [AddImage TrainWriter (TrainInputRef 0) (n_iter - 1);
   AddImage TrainWriter TrainInputTgt n_iter;
   AddImage TrainWriter (TrainInputRef 1) (n_iter + 1)]
  ++ concat (map (fun k =>
       [AddImage TrainWriter (TrainDispnetOutput k) n_iter;
        AddImage TrainWriter (TrainDepthOutputNormalized k) n_iter]
       ++ concat (map (fun j =>
            [AddImage TrainWriter (TrainWarpedOutputs k j) n_iter;
             AddImage TrainWriter (TrainDiffOutputs k j) n_iter;
             AddImage TrainWriter (TrainExpMaskOutputs k j) n_iter])
            (seq 0 (n_refs b))))
       (seq 0 (n_scales o))).

(** The value of line 242, from the three losses. *)
Definition weighted_loss {torch : TensorArith} (args : Args) (photo exp smooth : Q) : Q :=
  tensor_add (tensor_add (tensor_mul (photo_loss_weight args) photo)
                         (tensor_mul (mask_loss_weight args) exp))
             (tensor_mul (smooth_loss_weight args) smooth).

(** The four scalars of lines 244-247. *)
Definition train_scalar_events {torch : TensorArith} (args : Args) (o : outputs)
    (n_iter : Z) : list event :=
  [AddScalar TrainWriter "photometric_error" (loss_1 o) n_iter;
   AddScalar TrainWriter "explanability_loss" (loss_2 o) n_iter;
   AddScalar TrainWriter "disparity_smoothness_loss" (loss_3 o) n_iter;
   AddScalar TrainWriter "total_loss"
     (weighted_loss args (loss_1 o) (loss_2 o) (loss_3 o)) n_iter].

Lemma train_images_writes b o n :
  (2 <= n_refs b)%nat -> writes (train_images b o n) (train_image_events b o n).
Proof.
  intros Hrefs. unfold train_images.
  rewrite !decide_True by lia. writes_auto.
Qed.

Lemma train_images_raises b o n s :
  (n_refs b < 2)%nat -> (train_images b o n s).1 = Raise IndexError.
Proof.
  intros Hrefs. unfold train_images.
  destruct (decide (0 < n_refs b)%nat) as [H0 | H0]; [| reflexivity].
  rewrite (decide_False (P := (1 < n_refs b)%nat)) by lia. reflexivity.
Qed.


Section TrainFacts.

Context {torch : TensorArith}.

Variable forward : bool -> bool -> gmap positive Q -> batch -> outputs.
Variable backward : gmap positive Q -> batch -> Q -> positive -> Q.
Variable adam : positive -> Q -> Q -> Q.

Abbreviation train_step := (train_step forward backward adam).
Abbreviation train_loop := (train_loop forward backward adam).
Abbreviation train := (train forward backward adam).

(** The row of line 289. *)
Definition train_row (args : Args) (o : outputs) : Q * Q * Q * Q :=
  (weighted_loss args (loss_1 o) (loss_2 o) (loss_3 o),
   loss_1 o, loss_2 o, loss_3 o).

(** Line 249. *)
Definition train_emits (args : Args) (n_iter : Z) : bool :=
  (n_iter `mod` 200 =? 0) && log_output args.

(** One iteration, as a function of the state it starts in. *)
Lemma train_step_run args optimizer i b losses s :
  let o := forward (net_training (disp_net s)) (net_training (pose_exp_net s))
                   (store s) b in
  let s1 := log_events (train_scalar_events args o (n_iter s)) s in
  train_step args optimizer i b losses s
  = match (if train_emits args (n_iter s)
           then train_images b o (n_iter s) else mret tt) s1 with
    | (Raise e, s2) => (Raise e, s2)
    | (Ok _, s2) =>
        let s3 := set_log_full (log_full s2 ++ [train_row args o])
                    (optimizer_step adam optimizer
                       (backward (store s) b (train_row args o).1.1.1) s2).2 in
        if print_freq args =? 0 then (Raise ZeroDivisionError, s3)
        else (Ok (meter_update losses (train_row args o).1.1.1
                               (inject_Z (batch_size args))), s3)
    end.
Proof.
  intros o s1. unfold train_step. cbv zeta. rewrite bind_get. cbv beta.
  fold o. rewrite !bind_emit, !log_events_app. simpl app.
  change (log_events _ s) with s1. unfold train_emits. rewrite bind_run.
  destruct ((if (n_iter s `mod` 200 =? 0) && log_output args
             then train_images b o (n_iter s) else mret tt) s1)
    as [[u|e] s2]; [| reflexivity].
  rewrite bind_run, optimizer_step_run, bind_modify, bind_run.
  destruct (print_freq args =? 0); reflexivity.
Qed.

(** The images of one iteration, written or not. *)
Definition train_step_images (args : Args) (b : batch) (o : outputs) (n_iter : Z)
  : list event :=
  if train_emits args n_iter then train_image_events b o n_iter else [].

(** The state an iteration ends in when nothing before the modulo of line
    291 raises. *)
Definition train_step_post (args : Args) (optimizer : gset positive) (b : batch)
    (s : state) : state :=
  let o := forward (net_training (disp_net s)) (net_training (pose_exp_net s))
                   (store s) b in
  set_log_full (log_full s ++ [train_row args o])
    (optimizer_step adam optimizer (backward (store s) b (train_row args o).1.1.1)
       (log_events (train_scalar_events args o (n_iter s)
                    ++ train_step_images args b o (n_iter s)) s)).2.

(** With at least two reference images in the batch (lines 251 and 253
    index [ref_imgs[0]] and [ref_imgs[1]]), nothing does. *)
Lemma train_step_refs args optimizer i b losses s :
  (train_emits args (n_iter s) = true -> (2 <= n_refs b)%nat) ->
  let o := forward (net_training (disp_net s)) (net_training (pose_exp_net s))
                   (store s) b in
  train_step args optimizer i b losses s
  = if print_freq args =? 0
    then (Raise ZeroDivisionError, train_step_post args optimizer b s)
    else (Ok (meter_update losses (train_row args o).1.1.1
                           (inject_Z (batch_size args))),
          train_step_post args optimizer b s).
Proof.
  intros Hrefs o. rewrite train_step_run. fold o.
  unfold train_step_post, train_step_images. fold o.
  destruct (train_emits args (n_iter s)) eqn:Hemit.
  - rewrite train_images_writes by auto. rewrite log_events_app. reflexivity.
  - rewrite app_nil_r. reflexivity.
Qed.

(** An iteration that returns normally did not raise [IndexError]. *)
Lemma train_step_ok args optimizer i b losses s r s' :
  train_step args optimizer i b losses s = (Ok r, s') ->
  (train_emits args (n_iter s) = true -> (2 <= n_refs b)%nat) /\
  print_freq args <> 0 /\
  s' = train_step_post args optimizer b s.
Proof.
  intros H.
  assert (train_emits args (n_iter s) = true -> (2 <= n_refs b)%nat) as Hrefs.
  { intros Hemit. destruct (decide (2 <= n_refs b)%nat) as [|Hlt]; [done |].
    rewrite train_step_run, Hemit in H.
    pose proof (train_images_raises b
      (forward (net_training (disp_net s)) (net_training (pose_exp_net s))
               (store s) b) (n_iter s)
      (log_events (train_scalar_events args
         (forward (net_training (disp_net s)) (net_training (pose_exp_net s))
                  (store s) b) (n_iter s)) s) ltac:(lia)) as Hraise.
    destruct (train_images _ _ _ _) as [[u|e] s2]; simpl in Hraise; congruence. }
  split; [exact Hrefs |].
  rewrite train_step_refs in H by exact Hrefs.
  destruct (print_freq args =? 0) eqn:Hp; [congruence |].
  split; [by apply Z.eqb_neq | congruence].
Qed.

(** What an iteration leaves untouched, whether or not it raises. *)
Definition step_frame (s s' : state) : Prop :=
  n_iter s' = n_iter s /\ best_photo_loss s' = best_photo_loss s /\
  disp_net s' = disp_net s /\ pose_exp_net s' = pose_exp_net s /\
  log_summary s' = log_summary s.

#[global] Instance step_frame_preorder : PreOrder step_frame.
Proof.
  split.
  - intros s. unfold step_frame. tauto.
  - intros s1 s2 s3. unfold step_frame. intros H1 H2.
    destruct_and!. repeat split; congruence.
Qed.

Ltac step_frame_leaf :=
  first [ apply preserves_modify; intros ?; unfold step_frame; simpl; tauto ].

Lemma train_step_frame args optimizer i b losses :
  preserves step_frame (train_step args optimizer i b losses).
Proof.
  unfold train_step, train_images, optimizer_step, emit.
  frame_with step_frame_leaf.
Qed.

(** The loop preserves whatever its body and the increment of line 300
    preserve. *)
Lemma train_loop_preserves (R : relation state) `{!PreOrder R}
    args optimizer epoch_size :
  (forall i b losses, preserves R (train_step args optimizer i b losses)) ->
  (forall s, R s (set_n_iter (n_iter s + 1) s)) ->
  forall batches i losses,
    preserves R (train_loop args optimizer epoch_size i batches losses).
Proof.
  intros Hstep Hincr batches.
  induction batches as [|b rest IH]; intros i losses; simpl.
  - apply preserves_ret. exact _.
  - apply preserves_bind; [exact _ | apply Hstep | intros losses'].
    destruct (epoch_size - 1 <=? i); [apply preserves_ret; exact _ |].
    apply preserves_bind; [exact _ | by apply preserves_modify | intros _].
    apply IH.
Qed.

Lemma train_preserves (R : relation state) `{!PreOrder R}
    args train_loader optimizer epoch_size :
  (forall i b losses, preserves R (train_step args optimizer i b losses)) ->
  (forall s, R s (set_n_iter (n_iter s + 1) s)) ->
  (forall s, R s (set_nets (set_mode true (disp_net s))
                           (set_mode true (pose_exp_net s)) s)) ->
  preserves R (train args train_loader optimizer epoch_size).
Proof.
  intros Hstep Hincr Hmode. unfold train.
  apply preserves_bind; [exact _ | by apply preserves_modify | intros _].
  apply preserves_bind; [exact _ | by apply train_loop_preserves | intros l].
  apply preserves_meter_avg. exact _.
Qed.

(** *** The step counter *)

Lemma train_loop_n_iter args optimizer epoch_size batches :
  forall i losses s r s',
    train_loop args optimizer epoch_size i batches losses s = (Ok r, s') ->
    n_iter s' = n_iter s
                + Z.min (Z.of_nat (length batches)) (Z.max (epoch_size - 1 - i) 0).
Proof.
  induction batches as [|b rest IH]; intros i losses s r s' H; simpl in H.
  - injection H as _ <-. simpl. lia.
  - rewrite bind_run in H.
    pose proof (train_step_frame args optimizer i b losses s) as Hfr.
    destruct (train_step args optimizer i b losses s) as [[l1|e] s1];
      [| congruence].
    destruct Hfr as (Hn & _). simpl in Hn.
    destruct (epoch_size - 1 <=? i) eqn:Hbreak.
    + injection H as _ <-. apply Z.leb_le in Hbreak.
      simpl length. lia.
    + rewrite bind_modify in H. apply IH in H. simpl in H.
      apply Z.leb_gt in Hbreak. simpl length. lia.
Qed.

(** *** Steps executed *)

Lemma train_step_post_events args optimizer b s :
  let o := forward (net_training (disp_net s)) (net_training (pose_exp_net s))
                   (store s) b in
  events (train_step_post args optimizer b s)
  = events s
    ++ (train_scalar_events args o (n_iter s)
        ++ train_step_images args b o (n_iter s))
    ++ [OptimizerStep (elements optimizer)].
Proof. intros o. rewrite app_assoc. reflexivity. Qed.

Lemma train_step_images_no_step args b o n :
  count_steps (train_step_images args b o n) = 0%nat.
Proof.
  unfold train_step_images.
  destruct (train_emits args n); [| reflexivity].
  unfold train_image_events. rewrite count_steps_app.
  rewrite count_steps_concat_map; [reflexivity |].
  intros k. rewrite count_steps_app.
  rewrite count_steps_concat_map; [reflexivity |].
  intros j. reflexivity.
Qed.

Lemma train_step_post_steps args optimizer b s :
  count_steps (events (train_step_post args optimizer b s))
  = S (count_steps (events s)).
Proof.
  rewrite train_step_post_events, !count_steps_app, train_step_images_no_step.
  unfold count_steps at 2 3. simpl. lia.
Qed.

Lemma train_loop_steps args optimizer epoch_size batches :
  forall i losses s r s',
    train_loop args optimizer epoch_size i batches losses s = (Ok r, s') ->
    Z.of_nat (count_steps (events s'))
    = Z.of_nat (count_steps (events s))
      + Z.min (Z.of_nat (length batches)) (Z.max (epoch_size - i) 1).
Proof.
  induction batches as [|b rest IH]; intros i losses s r s' H; simpl in H.
  - injection H as _ <-. simpl. lia.
  - rewrite bind_run in H.
    destruct (train_step args optimizer i b losses s) as [[l1|e] s1] eqn:Hstep;
      [| congruence].
    apply train_step_ok in Hstep as (_ & _ & ->).
    pose proof (train_step_post_steps args optimizer b s) as Hs1.
    destruct (epoch_size - 1 <=? i) eqn:Hbreak.
    + injection H as _ <-. apply Z.leb_le in Hbreak.
      simpl length. lia.
    + rewrite bind_modify in H. apply IH in H.
      cbn [events set_n_iter] in H.
      apply Z.leb_gt in Hbreak. simpl length. lia.
Qed.

Lemma train_n_iter args train_loader optimizer epoch_size s r s' :
  train args train_loader optimizer epoch_size s = (Ok r, s') ->
  n_iter s' = n_iter s
              + Z.min (Z.of_nat (length train_loader)) (Z.max (epoch_size - 1) 0).
Proof.
  unfold train. rewrite bind_modify, bind_run. intros H.
  destruct (train_loop _ _ _ _ _ _ _) as [[l|e] s1] eqn:Hloop; [| congruence].
  apply train_loop_n_iter in Hloop. simpl in Hloop.
  pose proof (preserves_run (same n_iter) _ _ _ _
                (preserves_meter_avg _ l) H) as Havg.
  unfold same in Havg. rewrite Havg, Hloop. f_equal. f_equal. lia.
Qed.

Lemma train_steps args train_loader optimizer epoch_size s r s' :
  train args train_loader optimizer epoch_size s = (Ok r, s') ->
  Z.of_nat (count_steps (events s'))
  = Z.of_nat (count_steps (events s))
    + Z.min (Z.of_nat (length train_loader)) (Z.max epoch_size 1).
Proof.
  unfold train. rewrite bind_modify, bind_run. intros H.
  destruct (train_loop _ _ _ _ _ _ _) as [[l|e] s1] eqn:Hloop; [| congruence].
  apply train_loop_steps in Hloop. simpl in Hloop.
  pose proof (preserves_run (same events) _ _ _ _
                (preserves_meter_avg _ l) H) as Havg.
  unfold same in Havg. rewrite Havg, Hloop. f_equal. f_equal. lia.
Qed.

(** *** The full log *)

(** Line 242 relates the fields of a row: the first is the weighted sum
    of the other three, as the tensor arithmetic computes it. *)
Definition row_ok (args : Args) (row : Q * Q * Q * Q) : Prop :=
  let '(total, photo, exp, smooth) := row in
  total = weighted_loss args photo exp smooth.

(** From [s] to [s'] the full log grew by well-formed rows, one per
    optimizer step taken. *)
Definition log_rel (args : Args) (s s' : state) : Prop :=
  exists rows,
    log_full s' = log_full s ++ rows /\
    count_steps (events s') = (count_steps (events s) + length rows)%nat /\
    Forall (row_ok args) rows.

#[global] Instance log_rel_preorder args : PreOrder (log_rel args).
Proof.
  split.
  - intros s. exists []. rewrite app_nil_r. simpl. auto with lia.
  - intros s1 s2 s3 (r1 & E1 & C1 & F1) (r2 & E2 & C2 & F2).
    exists (r1 ++ r2). rewrite E2, E1, C2, C1, length_app, app_assoc.
    repeat split; [lia | by apply Forall_app].
Qed.

Lemma quiet_log_rel args s s' : quiet s s' -> log_rel args s s'.
Proof.
  intros (_ & _ & _ & _ & _ & Hlog & _ & Hsteps).
  exists []. rewrite app_nil_r. simpl. auto with lia.
Qed.

Lemma train_step_log_rel args optimizer i b losses :
  preserves (log_rel args) (train_step args optimizer i b losses).
Proof.
  intros s. rewrite train_step_run.
  set (o := forward _ _ _ _).
  set (s1 := log_events _ s).
  assert (quiet s s1) as Hs1.
  { unfold quiet. subst s1. simpl. repeat split.
    rewrite count_steps_app. change (count_steps (train_scalar_events _ _ _)) with 0%nat.
    lia. }
  assert (preserves quiet (if train_emits args (n_iter s)
                           then train_images b o (n_iter s) else mret tt)) as Himg.
  { apply preserves_if; [apply train_images_quiet | apply preserves_ret; exact _]. }
  specialize (Himg s1).
  destruct ((if train_emits args (n_iter s)
             then train_images b o (n_iter s) else mret tt) s1) as [[u|e] s2].
  - simpl in Himg.
    assert (quiet s s2) as Hs2 by (etransitivity; eassumption).
    destruct Hs2 as (_ & _ & _ & _ & _ & Hlog & _ & Hsteps).
    assert (log_rel args s
              (set_log_full (log_full s2 ++ [train_row args o])
                 (optimizer_step adam optimizer
                    (backward (store s) b (train_row args o).1.1.1) s2).2)) as Hrel.
    { exists [train_row args o]. rewrite optimizer_step_run. simpl.
      rewrite Hlog, count_steps_app, Hsteps. repeat split.
      constructor; [reflexivity | constructor]. }
    destruct (print_freq args =? 0); exact Hrel.
  - simpl in *. apply quiet_log_rel. etransitivity; eassumption.
Qed.



(** [train] never touches the best loss or the summary log. *)
Lemma train_best args train_loader optimizer epoch_size :
  preserves (same best_photo_loss) (train args train_loader optimizer epoch_size).
Proof.
  apply train_preserves; [exact _ | | done | done].
  intros i b losses. eapply preserves_weaken; [| apply train_step_frame].
  intros s s' H. apply H.
Qed.

End TrainFacts.

(** ** numpy slices *)

Lemma np_broadcast_length m rows w : np_broadcast m rows = Some w -> length w = m.
Proof.
  unfold np_broadcast. case_decide as Hlen; [congruence |].
  destruct rows as [|r [|r' rows]]; try congruence.
  intros [= <-]. apply length_replicate.
Qed.

Lemma np_broadcast_exact m rows : length rows = m -> np_broadcast m rows = Some rows.
Proof. intros H. unfold np_broadcast. by rewrite decide_True. Qed.

(** A slice inside the array. *)
Lemma slice_assign_in_range buf lo hi rows s :
  (0 <= lo <= hi) -> (hi <= Z.of_nat (length buf)) ->
  slice_assign buf lo hi rows s
  = match np_broadcast (Z.to_nat (hi - lo)) rows with
    | Some w => (Ok (take (Z.to_nat lo) buf ++ w ++ drop (Z.to_nat hi) buf), s)
    | None => (Raise ValueError, s)
    end.
Proof.
  intros Hlo Hhi. unfold slice_assign, slice_bound.
  assert ((lo <? 0) = false) as -> by lia.
  assert ((hi <? 0) = false) as -> by lia.
  replace (Z.max 0 (Z.min (Z.of_nat (length buf)) lo)) with lo by lia.
  replace (Z.max 0 (Z.min (Z.of_nat (length buf)) hi)) with hi by lia.
  replace (Z.to_nat hi - Z.to_nat lo)%nat with (Z.to_nat (hi - lo)) by lia.
  replace (Z.to_nat lo + Z.to_nat (hi - lo))%nat with (Z.to_nat hi) by lia.
  destruct (np_broadcast _ _); reflexivity.
Qed.

(** Chunk [j] of a concatenation of chunks of equal length. *)
Lemma concat_chunk {A} (m : nat) (ws : list (list A)) (j : nat) (w : list A) :
  Forall (fun w => length w = m) ws -> ws !! j = Some w ->
  take m (drop (j * m) (concat ws)) = w.
Proof.
  intros Hws. revert j w. induction Hws as [|w0 ws Hw0 Hws IH]; intros j w Hj.
  - by rewrite lookup_nil in Hj.
  - destruct j as [|j].
    + injection Hj as <-. simpl. rewrite drop_0, take_app_length'; done.
    + change (concat (w0 :: ws)) with (w0 ++ concat ws).
      replace (S j * m)%nat with (m + j * m)%nat by lia.
      rewrite drop_app_add' by done. by apply IH.
Qed.

(** ** Facts about [validate] *)

Section ValidateFacts.

Context {torch : TensorArith}.

Variable forward : bool -> bool -> gmap positive Q -> batch -> outputs.

Abbreviation validate_step := (validate_step forward).
Abbreviation validate_loop := (validate_loop forward).
Abbreviation validate_body := (validate_body forward).
Abbreviation validate := (validate forward).

(** Line 336. *)
Definition validate_emits (output_writers : nat) (i : Z) : bool :=
  bool_decide (0 < output_writers)%nat && (i `mod` 100 =? 0)
  && (i `div` 100 <? Z.of_nat output_writers).

(** The images of lines 338-350, in the order they are written. *)
Definition validate_image_events (epoch : Z) (index : nat) (b : batch) : list event :=
  (if epoch =? 0 then
     concat (map (fun j => [AddImage (OutputWriter index) (ValInputTgt j) 0;
                            AddImage (OutputWriter index) (ValInputRef j) 1])
                 (seq 0 (n_refs b)))
   else [])
  ++ [AddImage (OutputWriter index) ValDispnetOutput epoch;
      AddImage (OutputWriter index) ValDepthOutputNormalized epoch]
  ++ concat (map (fun j => [AddImage (OutputWriter index) (ValWarpedOutputs j) epoch;
                            AddImage (OutputWriter index) (ValDiffOutputs j) epoch;
                            AddImage (OutputWriter index) (ValExpMaskOutputs j) epoch])
                 (seq 0 (n_refs b))).

Lemma validate_images_writes epoch index b :
  writes (validate_images epoch index b) (validate_image_events epoch index b).
Proof. unfold validate_images. writes_auto. Qed.

(** The events of one iteration. *)
Definition validate_step_events (epoch : Z) (output_writers : nat) (i : Z)
    (b : batch) : list event :=
  if validate_emits output_writers i
  then validate_image_events epoch (Z.to_nat (i `div` 100)) b else [].

(** The six histograms of lines 373-378. *)
Definition histogram_events (epoch : Z) (poses : list pose6) : list event :=
  [AddHistogram (OutputWriter 0) "val poses_tx" (column 0 poses) epoch;
   AddHistogram (OutputWriter 0) "val poses_ty" (column 1 poses) epoch;
   AddHistogram (OutputWriter 0) "val poses_tz" (column 2 poses) epoch;
   AddHistogram (OutputWriter 0) "val poses_rx" (column 3 poses) epoch;
   AddHistogram (OutputWriter 0) "val poses_ry" (column 4 poses) epoch;
   AddHistogram (OutputWriter 0) "val poses_rz" (column 5 poses) epoch].

Lemma validate_histograms_writes epoch poses :
  writes (validate_histograms epoch poses) (histogram_events epoch poses).
Proof. unfold validate_histograms. writes_auto. Qed.

(** One iteration, as a function of the state it starts in: the only
    effect on the state is the images. *)
Lemma validate_step_run args epoch output_writers len_val_loader i b l s :
  let o := forward (net_training (disp_net s)) (net_training (pose_exp_net s))
                   (store s) b in
  let s1 := log_events (validate_step_events epoch output_writers i b) s in
  let step := batch_size args * (sequence_length args - 1) in
  validate_step args epoch output_writers len_val_loader i b l s
  = match (if bool_decide (0 < output_writers)%nat && (i <? len_val_loader - 1)
           then slice_assign (v_poses l) (i * step) ((i + 1) * step) (pose_rows o)
           else mret (v_poses l)) s1 with
    | (Raise e, _) => (Raise e, s1)
    | (Ok poses, _) =>
        if print_freq args =? 0 then (Raise ZeroDivisionError, s1)
        else (Ok (Locals poses
                    (meter_update (v_losses l) (train_row args o).1.1.1 1)
                    (meter_update (v_losses1 l) (loss_1 o) 1)
                    (meter_update (v_losses2 l) (loss_2 o) 1)), s1)
    end.
Proof.
  intros o s1 step. unfold validate_step. cbv zeta. rewrite bind_get. cbv beta.
  fold o. fold step. rewrite bind_run.
  assert ((if bool_decide (0 < output_writers)%nat && (i `mod` 100 =? 0)
              && (i `div` 100 <? Z.of_nat output_writers)
           then validate_images epoch (Z.to_nat (i `div` 100)) b
           else mret tt) s = (Ok tt, s1)) as ->.
  { subst s1. unfold validate_step_events, validate_emits.
    destruct (_ && _ && _).
    - apply validate_images_writes.
    - by rewrite log_events_nil. }
  rewrite bind_run.
  assert (preserves (same (fun s => s))
    (if bool_decide (0 < output_writers)%nat && (i <? len_val_loader - 1)
     then slice_assign (v_poses l) (i * step) ((i + 1) * step) (pose_rows o)
     else mret (v_poses l))) as Hpure
    by (apply preserves_if;
        [apply preserves_slice_assign | apply preserves_ret]; exact _).
  specialize (Hpure s1). unfold same in Hpure.
  destruct ((if bool_decide (0 < output_writers)%nat && (i <? len_val_loader - 1)
             then slice_assign (v_poses l) (i * step) ((i + 1) * step) (pose_rows o)
             else mret (v_poses l)) s1) as [[poses|e] s2];
    simpl in Hpure; subst s2; [| reflexivity].
  rewrite bind_run. destruct (print_freq args =? 0); reflexivity.
Qed.

Lemma validate_loop_preserves (R : relation state) `{!PreOrder R}
    args epoch output_writers len_val_loader :
  (forall i b l,
     preserves R (validate_step args epoch output_writers len_val_loader i b l)) ->
  forall batches i l,
    preserves R (validate_loop args epoch output_writers len_val_loader i batches l).
Proof.
  intros Hstep batches.
  induction batches as [|b rest IH]; intros i l; simpl.
  - apply preserves_ret. exact _.
  - apply preserves_bind; [exact _ | apply Hstep | intros l'; apply IH].
Qed.

Lemma validate_step_quiet args epoch output_writers len_val_loader i b l :
  preserves quiet (validate_step args epoch output_writers len_val_loader i b l).
Proof.
  unfold validate_step.
  frame_with ltac:(apply validate_images_quiet).
Qed.

Lemma validate_body_quiet args val_loader epoch output_writers :
  preserves quiet (validate_body args val_loader epoch output_writers).
Proof.
  unfold validate_body.
  frame_with ltac:(first
    [ apply validate_histograms_quiet
    | apply validate_loop_preserves; [exact _ | apply validate_step_quiet]
    | apply modify_quiet; intros ?; unfold quiet; simpl; tauto ]).
Qed.

Lemma validate_quiet args val_loader epoch output_writers :
  preserves quiet (validate args val_loader epoch output_writers).
Proof.
  unfold validate. frame_with ltac:(apply validate_body_quiet).
Qed.

(** C8. Validation leaves the parameters of both networks as they were:
    the store of parameter tensors and the parameter lists of the two
    networks are the same before and after [validate], whether it returns
    or raises, and no optimizer step is taken meanwhile. *)
Theorem C8_validate_keeps_parameters args val_loader epoch output_writers s :
  let s' := (validate args val_loader epoch output_writers s).2 in
  store s' = store s /\
  state_dict (store s') (disp_net s') = state_dict (store s) (disp_net s) /\
  state_dict (store s') (pose_exp_net s') = state_dict (store s) (pose_exp_net s) /\
  count_steps (events s') = count_steps (events s).
Proof.
  intros s'.
  destruct (validate_quiet args val_loader epoch output_writers s)
    as (_ & _ & Hstore & Hd & Hp & _ & _ & Hsteps).
  fold s' in Hstore, Hd, Hp, Hsteps. unfold state_dict.
  rewrite Hstore, Hd, Hp. auto.
Qed.

(** The events of the whole loop, from index [i] on. *)
Fixpoint validate_loop_events (epoch : Z) (output_writers : nat) (i : Z)
    (batches : list batch) : list event :=
  match batches with
  | [] => []
  | b :: rest =>
      validate_step_events epoch output_writers i b
      ++ validate_loop_events epoch output_writers (i + 1) rest
  end.

Lemma validate_step_ok_state args epoch output_writers len_val_loader i b l s l' s' :
  validate_step args epoch output_writers len_val_loader i b l s = (Ok l', s') ->
  s' = log_events (validate_step_events epoch output_writers i b) s.
Proof.
  rewrite validate_step_run. cbv zeta.
  destruct (_ (log_events _ s)) as [[poses|e] s2]; [| congruence].
  destruct (print_freq args =? 0); congruence.
Qed.

Lemma validate_loop_ok_state args epoch output_writers len_val_loader batches :
  forall i l s l' s',
    validate_loop args epoch output_writers len_val_loader i batches l s
    = (Ok l', s') ->
    s' = log_events (validate_loop_events epoch output_writers i batches) s.
Proof.
  induction batches as [|b rest IH]; intros i l s l' s' H; simpl in H.
  - injection H as _ <-. by rewrite log_events_nil.
  - rewrite bind_run in H.
    destruct (validate_step _ _ _ _ _ _ _ _) as [[l1|e] s1] eqn:Hstep;
      [| congruence].
    apply validate_step_ok_state in Hstep as ->.
    apply IH in H as ->. simpl. by rewrite log_events_app.
Qed.

(** *** The pose buffer *)

Lemma validate_step_ok_poses args epoch output_writers len_val_loader i b l s l' s' :
  validate_step args epoch output_writers len_val_loader i b l s = (Ok l', s') ->
  let step := batch_size args * (sequence_length args - 1) in
  let rows := pose_rows (forward (net_training (disp_net s))
                                 (net_training (pose_exp_net s)) (store s) b) in
  if bool_decide (0 < output_writers)%nat && (i <? len_val_loader - 1)
  then (slice_assign (v_poses l) (i * step) ((i + 1) * step) rows s).1
       = Ok (v_poses l')
  else v_poses l' = v_poses l.
Proof.
  rewrite validate_step_run. cbv zeta.
  destruct (bool_decide (0 < output_writers)%nat && (i <? len_val_loader - 1)).
  - unfold slice_assign.
    destruct (np_broadcast _ _) as [w|]; simpl; [| congruence].
    destruct (print_freq args =? 0); [congruence |].
    by intros [= <- _].
  - simpl. destruct (print_freq args =? 0); [congruence |].
    by intros [= <- _].
Qed.

(** The rows numpy stores for a batch: its flattened poses. *)
Definition stored_rows (args : Args) (s : state) (b : batch) : option (list pose6) :=
  np_broadcast (Z.to_nat (batch_size args * (sequence_length args - 1)))
    (pose_rows (forward (net_training (disp_net s))
                        (net_training (pose_exp_net s)) (store s) b)).

Lemma validate_loop_poses args epoch output_writers B batches :
  let step := batch_size args * (sequence_length args - 1) in
  (0 < output_writers)%nat ->
  forall (i : nat) l s l' s',
    validate_loop args epoch output_writers B (Z.of_nat i) batches l s = (Ok l', s') ->
    Z.of_nat i + Z.of_nat (length batches) = B ->
    Z.of_nat (length (v_poses l)) = (B - 1) * step ->
    batches <> [] ->
    length (v_poses l') = length (v_poses l) /\
    exists ws,
      Forall2 (fun b w => stored_rows args s b = Some w)
              (take (length batches - 1) batches) ws /\
      v_poses l' = take (i * Z.to_nat step) (v_poses l) ++ concat ws.
Proof.
  intros step HW. induction batches as [|b rest IH];
    intros i l s l' s' H Hlen Hbuf Hne; [done |].
  simpl in H. rewrite bind_run in H.
  destruct (validate_step _ _ _ _ _ _ _ _) as [[l1|e] s1] eqn:Hstep;
    [| congruence].
  pose proof (validate_step_ok_state _ _ _ _ _ _ _ _ _ _ Hstep) as ->.
  apply validate_step_ok_poses in Hstep. cbv zeta in Hstep. fold step in Hstep.
  rewrite bool_decide_true in Hstep by done. simpl andb in Hstep.
  simpl length in Hlen.
  destruct rest as [|b' rest'].
  - (* the last batch: no write *)
    simpl in H. injection H as <- _.
    rewrite (proj2 (Z.ltb_ge _ _)) in Hstep by (simpl in Hlen; lia).
    rewrite Hstep. split; [done |].
    exists []. split; [constructor |].
    simpl. rewrite app_nil_r, take_ge; [done |]. simpl in Hlen. nia.
  - (* a batch before the last: one full slice is written *)
    assert (Z.of_nat i < B - 1) as Hi by (simpl in Hlen; lia).
    rewrite (proj2 (Z.ltb_lt _ _)) in Hstep by done.
    assert (0 <= step) as Hstep0 by nia.
    rewrite slice_assign_in_range in Hstep by nia.
    replace ((Z.of_nat i + 1) * step - Z.of_nat i * step) with step in Hstep by lia.
    destruct (np_broadcast (Z.to_nat step) _) as [w|] eqn:Hw; simpl in Hstep;
      [| congruence].
    injection Hstep as Hl1.
    pose proof (np_broadcast_length _ _ _ Hw) as Hwlen.
    assert (length (v_poses l1) = length (v_poses l)) as Hlen1.
    { rewrite <- Hl1, !length_app, length_take, length_drop, Hwlen. nia. }
    replace (Z.of_nat i + 1) with (Z.of_nat (S i)) in H by lia.
    apply IH in H as (Hlen' & ws & Hws & Hposes);
      [| simpl length in *; lia | rewrite Hlen1; exact Hbuf | done].
    split; [congruence |].
    exists (w :: ws). split.
    + replace (length (b :: b' :: rest') - 1)%nat
        with (S (length (b' :: rest') - 1)) by (simpl; lia).
      rewrite firstn_cons. constructor; [exact Hw |].
      eapply Forall2_impl; [exact Hws |]. intros b0 w0 Hb0. exact Hb0.
    + rewrite Hposes, <- Hl1. simpl concat.
      replace (Z.to_nat (Z.of_nat i * step)) with (i * Z.to_nat step)%nat by nia.
      rewrite (app_assoc _ w (concat ws)). f_equal.
      rewrite (app_assoc _ w (drop _ _)).
      rewrite take_app_length'; [done |].
      rewrite length_app, length_take, Hwlen. nia.
Qed.

Lemma validate_loop_no_writers args epoch B batches :
  forall i l s l' s',
    validate_loop args epoch 0 B i batches l s = (Ok l', s') ->
    v_poses l' = v_poses l.
Proof.
  induction batches as [|b rest IH]; intros i l s l' s' H; simpl in H.
  - by injection H as <- _.
  - rewrite bind_run in H.
    destruct (validate_step _ _ _ _ _ _ _ _) as [[l1|e] s1] eqn:Hstep;
      [| congruence].
    apply validate_step_ok_poses in Hstep. simpl in Hstep.
    apply IH in H. congruence.
Qed.

Definition is_image (e : event) : Prop :=
  match e with AddImage _ _ _ => True | _ => False end.

Lemma Forall_concat_map {A B} (P : B -> Prop) (g : A -> list B) (l : list A) :
  (forall x, Forall P (g x)) -> Forall P (concat (map g l)).
Proof.
  intros Hg. induction l as [|x l IH]; simpl; [constructor |].
  apply Forall_app. auto.
Qed.

Lemma validate_image_events_writer epoch index b :
  Forall (fun e => exists img step, e = AddImage (OutputWriter index) img step)
         (validate_image_events epoch index b).
Proof.
  unfold validate_image_events. repeat apply Forall_app_2.
  - destruct (epoch =? 0); [| constructor].
    apply Forall_concat_map. intros j. repeat constructor; eauto.
  - repeat constructor; eauto.
  - apply Forall_concat_map. intros j. repeat constructor; eauto.
Qed.

Lemma validate_loop_events_images epoch output_writers batches i :
  Forall is_image (validate_loop_events epoch output_writers i batches).
Proof.
  revert i. induction batches as [|b rest IH]; intros i; simpl; [constructor |].
  apply Forall_app_2; [| apply IH].
  unfold validate_step_events. destruct (validate_emits _ _); [| constructor].
  eapply Forall_impl; [apply validate_image_events_writer |].
  intros e (img & step & ->). exact I.
Qed.

Lemma validate_loop_events_no_writers epoch batches i :
  validate_loop_events epoch 0 i batches = [].
Proof.
  revert i. induction batches as [|b rest IH]; intros i; simpl; [done |].
  by rewrite IH.
Qed.

(** [validate] up to its [return], step by step. *)
Lemma validate_body_ok args val_loader epoch output_writers s l s' :
  validate_body args val_loader epoch output_writers s = (Ok l, s') ->
  let B := Z.of_nat (length val_loader) in
  let n := (B - 1) * batch_size args * (sequence_length args - 1) in
  let s_eval := set_nets (set_mode false (disp_net s))
                         (set_mode false (pose_exp_net s)) s in
  0 <= n /\
  exists s_loop,
    validate_loop args epoch output_writers B 0 val_loader
      (Locals (replicate (Z.to_nat n) (replicate 6 0%Q)) meter_new meter_new meter_new)
      s_eval = (Ok l, s_loop) /\
    s' = log_events (if bool_decide (0 < output_writers)%nat
                     then histogram_events epoch (v_poses l) else []) s_loop.
Proof.
  unfold validate_body. cbv zeta. rewrite bind_run. unfold np_zeros.
  destruct (_ <? 0) eqn:Hn; [simpl; congruence |].
  apply Z.ltb_ge in Hn.
  rewrite mret_run, bind_modify, bind_run.
  destruct (validate_loop _ _ _ _ _ _ _ _) as [[l1|e] s1] eqn:Hloop;
    [| congruence].
  rewrite bind_run. intros H. split; [exact Hn |]. exists s1.
  destruct (bool_decide _).
  - rewrite validate_histograms_writes in H. by injection H as <- <-.
  - rewrite log_events_nil. by injection H as <- <-.
Qed.

(** C3. In a validation epoch over [B] batches that reaches its [return]:
    the pose buffer has [(B-1) * batch_size * (sequence_length-1)] rows;
    with output writers present, the slice [[i*step, (i+1)*step)] of the
    buffer holds the flattened poses of batch [i] for every [i < B-1]
    (as numpy stores them: the rows themselves when there are [step] of
    them), the buffer is the concatenation of what the first [B-1] batches
    stored, so the last batch contributes nothing, and the events of the
    epoch are the images of the loop followed by six histograms, one per
    pose component, all on writer 0; without writers the buffer stays
    zero and nothing is written.  The loop itself writes no histogram. *)
Theorem C3_pose_buffer args val_loader epoch output_writers s l s' :
  validate_body args val_loader epoch output_writers s = (Ok l, s') ->
  let B := Z.of_nat (length val_loader) in
  let step := batch_size args * (sequence_length args - 1) in
  let rows b := pose_rows (forward false false (store s) b) in
  let poses := v_poses l in
  Z.of_nat (length poses) = (B - 1) * batch_size args * (sequence_length args - 1) /\
  ((0 < output_writers)%nat ->
    (forall (i : nat) b,
       val_loader !! i = Some b -> Z.of_nat i < B - 1 ->
       let slice := take (Z.to_nat step) (drop (i * Z.to_nat step) poses) in
       np_broadcast (Z.to_nat step) (rows b) = Some slice /\
       (length (rows b) = Z.to_nat step -> slice = rows b)) /\
    (val_loader <> [] ->
       exists ws,
         Forall2 (fun b w => np_broadcast (Z.to_nat step) (rows b) = Some w)
                 (take (length val_loader - 1) val_loader) ws /\
         poses = concat ws) /\
    events s' = events s ++ validate_loop_events epoch output_writers 0 val_loader
                ++ histogram_events epoch poses) /\
  (output_writers = 0%nat ->
    poses = replicate (Z.to_nat ((B - 1) * step)) (replicate 6 0%Q) /\
    events s' = events s) /\
  Forall is_image (validate_loop_events epoch output_writers 0 val_loader) /\
  histogram_events epoch poses
  = map (fun '(tag, k) => AddHistogram (OutputWriter 0) tag (column k poses) epoch)
        [("val poses_tx", 0%nat); ("val poses_ty", 1%nat); ("val poses_tz", 2%nat);
         ("val poses_rx", 3%nat); ("val poses_ry", 4%nat); ("val poses_rz", 5%nat)].
Proof.
  intros H B step rows poses.
  apply validate_body_ok in H as (Hn & s_loop & Hloop & ->).
  fold B in Hn, Hloop.
  replace ((B - 1) * batch_size args * (sequence_length args - 1))
    with ((B - 1) * step) in * by (unfold step; lia).
  set (s_eval := set_nets _ _ s) in Hloop.
  set (l0 := Locals _ _ _ _) in Hloop.
  assert (Z.of_nat (length (v_poses l0)) = (B - 1) * step) as Hlen0.
  { unfold l0. simpl. rewrite length_replicate. lia. }
  pose proof (validate_loop_ok_state _ _ _ _ _ _ _ _ _ _ Hloop) as Hstate.
  assert (Z.of_nat (length poses) = (B - 1) * step /\
          ((0 < output_writers)%nat -> val_loader <> [] ->
           exists ws,
             Forall2 (fun b w => np_broadcast (Z.to_nat step) (rows b) = Some w)
                     (take (length val_loader - 1) val_loader) ws /\
             poses = concat ws)) as (Hlen & Hconcat).
  { destruct (decide (0 < output_writers)%nat) as [HW | HW].
    - destruct (decide (val_loader = [])) as [-> | Hne].
      + simpl in Hloop. injection Hloop as <- _. split; [exact Hlen0 | done].
      + change 0 with (Z.of_nat 0) in Hloop.
        eapply validate_loop_poses in Hloop as (Hlen & ws & Hws & Hposes);
          [| done | fold B; lia | exact Hlen0 | done].
        split; [unfold poses; rewrite Hlen; exact Hlen0 |].
        intros _ _. exists ws. split; [exact Hws | exact Hposes].
    - assert (output_writers = 0%nat) as -> by lia.
      apply validate_loop_no_writers in Hloop.
      split; [unfold poses; rewrite Hloop; exact Hlen0 | lia]. }
  split; [exact Hlen |]. split; [| split; [| split]].
  - intros HW. rewrite bool_decide_true by done. split; [| split].
    + intros i b Hb Hi slice.
      destruct (Hconcat HW) as (ws & Hws & Hposes).
      { intros ->. by rewrite lookup_nil in Hb. }
      assert (take (length val_loader - 1) val_loader !! i = Some b) as Hb'.
      { rewrite lookup_take_lt; [done |]. subst B. lia. }
      destruct (Forall2_lookup_l _ _ _ _ _ Hws Hb') as (w & Hw & Hbw).
      assert (slice = w) as ->.
      { unfold slice. fold poses. rewrite Hposes.
        apply concat_chunk; [| exact Hw].
        apply Forall_lookup. intros j w' Hj.
        destruct (Forall2_lookup_r _ _ _ _ _ Hws Hj) as (b' & _ & Hb'w).
        by apply np_broadcast_length in Hb'w. }
      split; [exact Hbw |].
      intros Hexact. rewrite np_broadcast_exact in Hbw by done. congruence.
    + by apply Hconcat.
    + rewrite Hstate. simpl. by rewrite app_assoc.
  - intros ->. rewrite bool_decide_false by lia. rewrite log_events_nil, Hstate.
    rewrite validate_loop_events_no_writers, log_events_nil.
    apply validate_loop_no_writers in Hloop. unfold poses. rewrite Hloop.
    done.
  - apply validate_loop_events_images.
  - reflexivity.
Qed.

(** *** Which writer gets the images of a batch *)

(** The writer an event is addressed to. *)
Definition event_writer (e : event) : option writer :=
  match e with
  | AddScalar w _ _ _ | AddImage w _ _ | AddHistogram w _ _ _
  | NewSummaryWriter w => Some w
  | _ => None
  end.

(** Channel [c] receives output among the events [l]. *)
Definition receives (c : nat) (l : list event) : Prop :=
  exists e, e ∈ l /\ event_writer e = Some (OutputWriter c).

Lemma elem_of_concat_map {A B} (g : A -> list B) (l : list A) (y : B) :
  y ∈ concat (map g l) <-> exists x, x ∈ l /\ y ∈ g x.
Proof.
  induction l as [|x l IH]; simpl.
  - split; [intros H | intros (x & H & _)]; by apply elem_of_nil in H.
  - rewrite elem_of_app, IH. split.
    + intros [H | (x' & Hx' & Hy)]; [exists x | exists x'];
        (split; [| done]); [left | by right].
    + intros (x' & [-> | Hx']%elem_of_cons & Hy); [by left | right; eauto].
Qed.

Lemma validate_emits_spec (output_writers i : nat) :
  validate_emits output_writers (Z.of_nat i) = true
  <-> Z.of_nat i `mod` 100 = 0 /\ Z.of_nat i `div` 100 < Z.of_nat output_writers.
Proof.
  unfold validate_emits.
  rewrite !andb_true_iff, bool_decide_eq_true, Z.eqb_eq, Z.ltb_lt.
  assert (0 <= Z.of_nat i `div` 100) by (apply Z.div_pos; lia).
  split; [tauto | intros [? ?]; repeat split; [lia | done | done]].
Qed.

Lemma validate_step_state args epoch output_writers len_val_loader i b l s :
  (validate_step args epoch output_writers len_val_loader i b l s).2
  = log_events (validate_step_events epoch output_writers i b) s.
Proof.
  rewrite validate_step_run. cbv zeta.
  destruct (_ (log_events _ s)) as [[poses|e] s2]; [| reflexivity].
  destruct (print_freq args =? 0); reflexivity.
Qed.

Lemma elem_of_validate_image_events epoch index b e :
  e ∈ validate_image_events epoch index b <->
  (epoch = 0 /\ exists j, (j < n_refs b)%nat /\
     (e = AddImage (OutputWriter index) (ValInputTgt j) 0 \/
      e = AddImage (OutputWriter index) (ValInputRef j) 1)) \/
  e = AddImage (OutputWriter index) ValDispnetOutput epoch \/
  e = AddImage (OutputWriter index) ValDepthOutputNormalized epoch \/
  (exists j, (j < n_refs b)%nat /\
     (e = AddImage (OutputWriter index) (ValWarpedOutputs j) epoch \/
      e = AddImage (OutputWriter index) (ValDiffOutputs j) epoch \/
      e = AddImage (OutputWriter index) (ValExpMaskOutputs j) epoch)).
Proof.
  unfold validate_image_events.
  rewrite !elem_of_app, elem_of_concat_map.
  assert (e ∈ (if epoch =? 0
               then concat (map (fun j =>
                      [AddImage (OutputWriter index) (ValInputTgt j) 0;
                       AddImage (OutputWriter index) (ValInputRef j) 1])
                      (seq 0 (n_refs b)))
               else [])
          <-> epoch = 0 /\ exists j, (j < n_refs b)%nat /\
                (e = AddImage (OutputWriter index) (ValInputTgt j) 0 \/
                 e = AddImage (OutputWriter index) (ValInputRef j) 1)) as ->.
  { destruct (epoch =? 0) eqn:He.
    - apply Z.eqb_eq in He. rewrite elem_of_concat_map. split.
      + intros (j & Hj%elem_of_seq & Hin). split; [done |]. exists j.
        split; [lia |].
        apply elem_of_cons in Hin as [-> | Hin]; [by left |].
        apply elem_of_cons in Hin as [-> | Hin]; [by right |].
        by apply elem_of_nil in Hin.
      + intros (_ & j & Hj & Hin). exists j.
        split; [apply elem_of_seq; lia |].
        destruct Hin as [-> | ->]; [left | right; left].
    - apply Z.eqb_neq in He. rewrite elem_of_nil. tauto. }
  rewrite !elem_of_cons, elem_of_nil.
  assert ((exists x, x ∈ seq 0 (n_refs b) /\
             e ∈ [AddImage (OutputWriter index) (ValWarpedOutputs x) epoch;
                  AddImage (OutputWriter index) (ValDiffOutputs x) epoch;
                  AddImage (OutputWriter index) (ValExpMaskOutputs x) epoch])
          <-> exists j, (j < n_refs b)%nat /\
                (e = AddImage (OutputWriter index) (ValWarpedOutputs j) epoch \/
                 e = AddImage (OutputWriter index) (ValDiffOutputs j) epoch \/
                 e = AddImage (OutputWriter index) (ValExpMaskOutputs j) epoch)) as ->.
  { split.
    - intros (j & Hj%elem_of_seq & Hin). exists j. split; [lia |].
      rewrite !elem_of_cons, elem_of_nil in Hin. tauto.
    - intros (j & Hj & Hin). exists j. split; [apply elem_of_seq; lia |].
      rewrite !elem_of_cons, elem_of_nil. tauto. }
  tauto.
Qed.

(** What line 336 decides for the images of batch [i]. *)
Lemma validate_step_events_channels epoch output_writers (i : nat) b :
  let new := validate_step_events epoch output_writers (Z.of_nat i) b in
  let index := Z.to_nat (Z.of_nat i `div` 100) in
  let selected := Z.of_nat i `mod` 100 = 0 /\
                  Z.of_nat i `div` 100 < Z.of_nat output_writers in
  (forall c, receives c new <-> c = index /\ selected) /\
  (forall j, (j < n_refs b)%nat ->
     ((AddImage (OutputWriter index) (ValInputTgt j) 0 ∈ new)
      <-> selected /\ epoch = 0) /\
     ((AddImage (OutputWriter index) (ValInputRef j) 1 ∈ new)
      <-> selected /\ epoch = 0)) /\
  (epoch <> 0 -> forall c j step,
     (AddImage (OutputWriter c) (ValInputTgt j) step ∉ new) /\
     (AddImage (OutputWriter c) (ValInputRef j) step ∉ new)).
Proof.
  intros new index selected. subst new.
  unfold validate_step_events. fold index.
  pose proof (validate_emits_spec output_writers i) as Hsel. fold selected in Hsel.
  destruct (validate_emits output_writers (Z.of_nat i)).
  - assert selected as Hs by (by apply Hsel).
    split; [| split].
    + intros c. unfold receives. setoid_rewrite elem_of_validate_image_events.
      split.
      * intros (e & He & Hw). split; [| done].
        destruct He as [(_ & j & _ & [-> | ->]) | [-> | [-> |
          (j & _ & [-> | [-> | ->]])]]]; simpl in Hw; congruence.
      * intros (-> & _).
        exists (AddImage (OutputWriter index) ValDispnetOutput epoch).
        split; [right; left |]; reflexivity.
    + intros j Hj. rewrite !elem_of_validate_image_events. split.
      * split; [| intros (_ & ->); left; split; [done |]; exists j; auto].
        intros [(He & _) | [? | [? | (? & _ & [? | [? | ?]])]]];
          [done | congruence ..].
      * split; [| intros (_ & ->); left; split; [done |]; exists j; auto].
        intros [(He & _) | [? | [? | (? & _ & [? | [? | ?]])]]];
          [done | congruence ..].
    + intros He c j step. rewrite !elem_of_validate_image_events.
      split; intros [(? & _) | [? | [? | (? & _ & [? | [? | ?]])]]];
        done || congruence.
  - assert (~ selected) as Hs by (intros H; apply Hsel in H; congruence).
    split; [| split].
    + intros c. split; [| tauto].
      intros (e & He & _). by apply elem_of_nil in He.
    + intros j _. rewrite !elem_of_nil. tauto.
    + intros _ c j step. rewrite !elem_of_nil. tauto.
Qed.

(** The events of the loop, batch by batch. *)
Lemma validate_loop_events_batches epoch output_writers batches :
  forall i : nat,
    validate_loop_events epoch output_writers (Z.of_nat i) batches
    = concat (imap (fun k b =>
                validate_step_events epoch output_writers (Z.of_nat (i + k)) b)
              batches).
Proof.
  induction batches as [|b rest IH]; intros i; [reflexivity |].
  cbn [validate_loop_events imap concat].
  replace (Z.of_nat i + 1) with (Z.of_nat (S i)) by lia.
  rewrite IH, Nat.add_0_r. do 2 f_equal.
  apply imap_ext. intros k b' _. simpl. do 3 f_equal. lia.
Qed.

(** C5. The events of a validation epoch that reaches its [return] are
    the events of its batches, in batch order, followed by the
    histograms when there are output writers; the events of batch [i]
    are what the loop body appends at index [i].  Among the events of
    batch [i], channel [c] receives output exactly when [c = i div 100],
    [i mod 100 = 0] and [i div 100] is below the number of channels;
    hence no other channel does.  On a selected batch the channel
    receives the raw target and each reference image exactly when the
    epoch is 0, and no raw input is written to any channel in a later
    epoch. *)
Theorem C5_validate_channels args val_loader epoch output_writers s l s' :
  validate_body args val_loader epoch output_writers s = (Ok l, s') ->
  exists per_batch : list (list event),
    length per_batch = length val_loader /\
    events s' = events s ++ concat per_batch
                ++ (if bool_decide (0 < output_writers)%nat
                    then histogram_events epoch (v_poses l) else []) /\
    forall (i : nat) b,
      val_loader !! i = Some b ->
      let index := Z.to_nat (Z.of_nat i `div` 100) in
      let selected := Z.of_nat i `mod` 100 = 0 /\
                      Z.of_nat i `div` 100 < Z.of_nat output_writers in
      exists new,
        per_batch !! i = Some new /\
        (forall l0 t,
           events (validate_step args epoch output_writers
                     (Z.of_nat (length val_loader)) (Z.of_nat i) b l0 t).2
           = events t ++ new) /\
        (forall c, receives c new <-> c = index /\ selected) /\
        (forall j, (j < n_refs b)%nat ->
           ((AddImage (OutputWriter index) (ValInputTgt j) 0 ∈ new)
            <-> selected /\ epoch = 0) /\
           ((AddImage (OutputWriter index) (ValInputRef j) 1 ∈ new)
            <-> selected /\ epoch = 0)) /\
        (epoch <> 0 -> forall c j step,
           (AddImage (OutputWriter c) (ValInputTgt j) step ∉ new) /\
           (AddImage (OutputWriter c) (ValInputRef j) step ∉ new)).
Proof.
  intros H. apply validate_body_ok in H as (_ & s_loop & Hloop & ->).
  apply validate_loop_ok_state in Hloop as ->.
  exists (imap (fun k b =>
            validate_step_events epoch output_writers (Z.of_nat k) b) val_loader).
  split; [apply length_imap |]. split.
  - change 0 with (Z.of_nat 0). rewrite validate_loop_events_batches.
    cbn [events log_events set_events set_nets]. by rewrite <- app_assoc.
  - intros i b Hb index selected.
    exists (validate_step_events epoch output_writers (Z.of_nat i) b).
    split; [by rewrite list_lookup_imap, Hb |].
    split; [intros l0 t; by rewrite validate_step_state |].
    apply validate_step_events_channels.
Qed.

End ValidateFacts.

(** ** The checkpoint policy *)

Lemma Qltb_lt (a b : Q) : Qltb a b = true <-> (a < b)%Q.
Proof. unfold Qltb, Qlt. apply Z.ltb_lt. Qed.

Lemma Qltb_ge (a b : Q) : Qltb a b = false <-> (b <= a)%Q.
Proof. unfold Qltb, Qle. apply Z.ltb_ge. Qed.

Lemma Qltb_irrefl (a : Q) : Qltb a a = false.
Proof. apply Qltb_ge, Qle_refl. Qed.

Lemma py_min_same (a : Q) : py_min a a = a.
Proof. unfold py_min. by rewrite Qltb_irrefl. Qed.

(** [min(a, b)] is one of its arguments and a minimum of the two. *)
Lemma py_min_Qmin (a b : Q) : (py_min a b == Qmin b a)%Q.
Proof.
  unfold py_min. destruct (Qltb b a) eqn:H.
  - apply Qltb_lt in H. symmetry. apply Q.min_l. by apply Qlt_le_weak.
  - apply Qltb_ge in H. symmetry. by apply Q.min_r.
Qed.

Lemma py_min_nonneg (a b : Q) : (0 <= a)%Q -> (0 <= b)%Q -> (0 <= py_min a b)%Q.
Proof. intros Ha Hb. unfold py_min. by destruct (Qltb b a). Qed.

(** With a negative stored value the epoch becomes the baseline. *)
Lemma checkpoint_policy_unset (best valid : Q) :
  (best < 0)%Q -> checkpoint_policy best valid = (false, valid).
Proof.
  intros H. unfold checkpoint_policy.
  rewrite (proj2 (Qltb_lt best 0) H), Qltb_irrefl, py_min_same. reflexivity.
Qed.

(** With a nonnegative stored value the epoch is compared with it. *)
Lemma checkpoint_policy_set (best valid : Q) :
  (0 <= best)%Q ->
  checkpoint_policy best valid = (Qltb valid best, py_min valid best).
Proof.
  intros H. unfold checkpoint_policy.
  by rewrite (proj2 (Qltb_ge best 0) H).
Qed.

(** A negative validation loss always becomes the stored value. *)
Lemma checkpoint_policy_negative (best valid : Q) :
  (valid < 0)%Q -> (checkpoint_policy best valid).2 = valid.
Proof.
  intros Hv. destruct (Qlt_le_dec best 0) as [Hb | Hb].
  - by rewrite checkpoint_policy_unset.
  - rewrite checkpoint_policy_set by done. unfold py_min. simpl.
    rewrite (proj2 (Qltb_ge best valid)); [done |].
    apply Qlt_le_weak. by eapply Qlt_le_trans.
Qed.

Lemma checkpoint_policy_nonneg (best valid : Q) :
  (0 <= valid)%Q -> (0 <= (checkpoint_policy best valid).2)%Q.
Proof.
  intros Hv. destruct (Qlt_le_dec best 0) as [Hb | Hb].
  - by rewrite checkpoint_policy_unset.
  - rewrite checkpoint_policy_set by done. by apply py_min_nonneg.
Qed.

(** ** Facts about [main] *)

Lemma forM_app {A} (l1 l2 : list A) (f : A -> M unit) s :
  forM_ (l1 ++ l2) f s
  = match forM_ l1 f s with
    | (Ok _, s1) => forM_ l2 f s1
    | (Raise e, s1) => (Raise e, s1)
    end.
Proof.
  revert s. induction l1 as [|x l1 IH]; intros s; simpl; [reflexivity |].
  rewrite !bind_run. destruct (f x s) as [[u|e] s1]; [apply IH | reflexivity].
Qed.

Lemma range_S (n : nat) : range (Z.of_nat (S n)) = range (Z.of_nat n) ++ [Z.of_nat n].
Proof.
  unfold range. rewrite !Nat2Z.id, seq_S, map_app. reflexivity.
Qed.

(** The events of [main] before the data set is opened. *)
Definition writer_events (args : Args) : list event :=
  [NewSummaryWriter TrainWriter; NewSummaryWriter ValidWriter]
  ++ (if log_output args
      then [NewSummaryWriter (OutputWriter 0); NewSummaryWriter (OutputWriter 1);
            NewSummaryWriter (OutputWriter 2)]
      else []).

(** Whether line 72 or line 74 binds [SequenceFolder]. *)
Definition known_format (args : Args) : bool :=
  if decide (dataset_format args = "stacked") then true
  else if decide (dataset_format args = "sequential") then true
  else false.

(** The state the epoch loop starts from. *)
Definition setup_post (args : Args) (θ0 : gmap positive Q)
    (disp_params pose_params : list positive) (s : state) : state :=
  set_log_full [] (set_log_summary []
    (set_nets (Net disp_params true) (Net pose_params true)
       (set_store θ0 (log_events (writer_events args) s)))).

Lemma main_setup_run args θ0 disp_params pose_params train_loader s :
  main_setup args θ0 disp_params pose_params train_loader s
  = if known_format args
    then (Ok (combined_parameters [Net disp_params true; Net pose_params true],
              (if epoch_size args =? 0 then Z.of_nat (length (train_loader 0))
               else epoch_size args),
              (if log_output args then 3%nat else 0%nat)),
          setup_post args θ0 disp_params pose_params s)
    else (Raise UnboundLocalError, log_events (writer_events args) s).
Proof.
  unfold main_setup. cbv zeta. fold (known_format args).
  rewrite !bind_emit, log_events_app. simpl app. rewrite bind_run.
  assert ((if log_output args
           then forM_ (seq 0 3) (fun i => emit (NewSummaryWriter (OutputWriter i)))
           else mret tt)
            (log_events [NewSummaryWriter TrainWriter; NewSummaryWriter ValidWriter] s)
          = (Ok tt, log_events (writer_events args) s)) as ->.
  { unfold writer_events. destruct (log_output args).
    - rewrite <- log_events_app.
      assert (writes (forM_ (seq 0 3)
                        (fun i => emit (NewSummaryWriter (OutputWriter i))))
                [NewSummaryWriter (OutputWriter 0); NewSummaryWriter (OutputWriter 1);
                 NewSummaryWriter (OutputWriter 2)]) as Hw by writes_auto.
      apply Hw.
    - by rewrite app_nil_r. }
  rewrite bind_run. destruct (known_format args); reflexivity.
Qed.

Section MainFacts.

Context {torch : TensorArith}.

Variable forward : bool -> bool -> gmap positive Q -> batch -> outputs.
Variable backward : gmap positive Q -> batch -> Q -> positive -> Q.
Variable adam : positive -> Q -> Q -> Q.

Abbreviation main_epoch := (main_epoch forward backward adam).
Abbreviation main_loop := (main_loop forward backward adam).
Abbreviation main := (main forward backward adam).

(** C9. With a dataset format that is neither ['stacked'] nor
    ['sequential'], [main] ends with an error raised before any network,
    optimizer or log file exists: only the summary writers have been
    created, no optimizer step has been taken, the step counter is still
    0 and no row has been logged. *)
Theorem C9_invalid_dataset_format args θ0 disp_params pose_params
    train_loader val_loader :
  dataset_format args <> "stacked" ->
  dataset_format args <> "sequential" ->
  let r := main args θ0 disp_params pose_params train_loader val_loader
                initial_state in
  r.1 = Raise UnboundLocalError /\
  events r.2 = writer_events args /\
  count_steps (events r.2) = 0%nat /\
  n_iter r.2 = 0 /\ log_full r.2 = [] /\ log_summary r.2 = [] /\
  store r.2 = ∅.
Proof.
  intros H1 H2 r. subst r. unfold main. rewrite bind_run, main_setup_run.
  unfold known_format. rewrite !decide_False by done.
  repeat split. unfold writer_events. by destruct (log_output args).
Qed.

(** *** One epoch *)

(** The state after lines 183-208. *)
Definition checkpoint_post (epoch : Z) (train_loss : Q) (valid : Q * Q * Q)
    (s : state) : state :=
  let policy := checkpoint_policy (best_photo_loss s) valid.1.1 in
  set_log_summary (log_summary s ++ [(train_loss, valid.2)])
    (log_events
       [AddScalar ValidWriter "photometric_error" (valid.1.1 * 4) (n_iter s);
        AddScalar ValidWriter "explanability_loss" (valid.1.2 * 4) (n_iter s);
        AddScalar ValidWriter "total_loss" (valid.2 * 4) (n_iter s);
        SaveCheckpoint (epoch + 1) (state_dict (store s) (disp_net s))
                       (state_dict (store s) (pose_exp_net s)) policy.1]
       (set_best_photo_loss policy.2 s)).

Lemma checkpoint_and_log_run epoch train_loss valid s :
  checkpoint_and_log epoch train_loss valid s
  = (Ok tt, checkpoint_post epoch train_loss valid s).
Proof.
  destruct valid as [[v ve] vt]. unfold checkpoint_and_log.
  rewrite bind_get. unfold checkpoint_policy at 1. cbv beta iota zeta.
  rewrite !bind_emit, bind_modify, bind_emit.
  unfold modify, checkpoint_post, log_events, set_log_summary, set_events,
    set_best_photo_loss. simpl. rewrite <- !app_assoc. reflexivity.
Qed.

(** An epoch that returns normally ran [train] and [validate] to their
    ends. *)
Lemma main_epoch_ok args train_loader val_loader optimizer epoch_size
    output_writers epoch s s' :
  main_epoch args train_loader val_loader optimizer epoch_size output_writers
             epoch s = (Ok tt, s') ->
  exists train_loss s1 valid s2,
    train forward backward adam args (train_loader epoch) optimizer epoch_size s
    = (Ok train_loss, s1) /\
    validate forward args val_loader epoch output_writers s1 = (Ok valid, s2) /\
    s' = checkpoint_post epoch train_loss valid s2.
Proof.
  unfold main_epoch. rewrite bind_run.
  destruct (train _ _ _ _ _ _ _ _) as [[tl|e] s1] eqn:Htrain; [| congruence].
  rewrite bind_run.
  destruct (validate _ _ _ _ _ _) as [[valid|e] s2] eqn:Hval; [| congruence].
  rewrite checkpoint_and_log_run. intros [= <-].
  by exists tl, s1, valid, s2.
Qed.

(** *** Counting over a run *)

Definition sumZ (l : list Z) : Z := foldr Z.add 0 l.

(** What one epoch adds to [n_iter], and how many steps it executes. *)
Definition epoch_increments (epoch_size : Z) (len : nat) : Z :=
  Z.min (Z.of_nat len) (Z.max (epoch_size - 1) 0).
Definition epoch_steps (epoch_size : Z) (len : nat) : Z :=
  Z.min (Z.of_nat len) (Z.max epoch_size 1).

Lemma main_epoch_counts args train_loader val_loader optimizer epoch_size
    output_writers epoch s s' :
  main_epoch args train_loader val_loader optimizer epoch_size output_writers
             epoch s = (Ok tt, s') ->
  n_iter s' = n_iter s + epoch_increments epoch_size (length (train_loader epoch)) /\
  Z.of_nat (count_steps (events s'))
  = Z.of_nat (count_steps (events s))
    + epoch_steps epoch_size (length (train_loader epoch)).
Proof.
  intros (tl & s1 & valid & s2 & Htrain & Hval & ->)%main_epoch_ok.
  pose proof (train_n_iter _ _ _ _ _ _ _ _ _ _ Htrain) as Hn.
  pose proof (train_steps _ _ _ _ _ _ _ _ _ _ Htrain) as Hs.
  pose proof (preserves_run _ _ _ _ _ (validate_quiet forward _ _ _ _) Hval)
    as (Hn2 & _ & _ & _ & _ & _ & _ & Hs2).
  unfold epoch_increments, epoch_steps. split.
  - change (n_iter (checkpoint_post epoch tl valid s2)) with (n_iter s2). lia.
  - unfold checkpoint_post.
    cbn [events set_log_summary log_events set_events set_best_photo_loss].
    rewrite count_steps_app.
    change (count_steps [_; _; _; _]) with 0%nat. lia.
Qed.

Lemma main_loop_counts args train_loader val_loader optimizer epoch_size
    output_writers epochs :
  forall s s',
    main_loop args train_loader val_loader (optimizer, epoch_size, output_writers)
              epochs s = (Ok tt, s') ->
    n_iter s' = n_iter s
      + sumZ (map (fun e => epoch_increments epoch_size (length (train_loader e)))
                  epochs) /\
    Z.of_nat (count_steps (events s'))
    = Z.of_nat (count_steps (events s))
      + sumZ (map (fun e => epoch_steps epoch_size (length (train_loader e)))
                  epochs).
Proof.
  unfold main_loop.
  induction epochs as [|e epochs IH]; intros s s' H; simpl in H.
  - injection H as <-. simpl. lia.
  - rewrite bind_run in H.
    destruct (main_epoch _ _ _ _ _ _ _ _) as [[[]|err] s1] eqn:Hepoch;
      [| congruence].
    apply main_epoch_counts in Hepoch as (Hn1 & Hs1).
    apply IH in H as (Hn & Hs). simpl. lia.
Qed.

(** A run that reaches the end of [main]. *)
Lemma main_ok args θ0 disp_params pose_params train_loader val_loader s s' :
  main args θ0 disp_params pose_params train_loader val_loader s = (Ok tt, s') ->
  known_format args = true /\
  main_loop args train_loader val_loader
    (combined_parameters [Net disp_params true; Net pose_params true],
     (if epoch_size args =? 0 then Z.of_nat (length (train_loader 0))
      else epoch_size args),
     (if log_output args then 3%nat else 0%nat))
    (range (epochs args)) (setup_post args θ0 disp_params pose_params s)
  = (Ok tt, s').
Proof.
  unfold main. rewrite bind_run, main_setup_run.
  destruct (known_format args); [auto | congruence].
Qed.

Lemma main_counts args θ0 disp_params pose_params train_loader val_loader s' :
  main args θ0 disp_params pose_params train_loader val_loader initial_state
  = (Ok tt, s') ->
  let epoch_size :=
    if epoch_size args =? 0 then Z.of_nat (length (train_loader 0))
    else epoch_size args in
  n_iter s'
  = sumZ (map (fun e => epoch_increments epoch_size (length (train_loader e)))
              (range (epochs args))) /\
  Z.of_nat (count_steps (events s'))
  = sumZ (map (fun e => epoch_steps epoch_size (length (train_loader e)))
              (range (epochs args))).
Proof.
  intros (_ & Hloop)%main_ok es.
  apply main_loop_counts in Hloop as (Hn & Hs). fold es in Hn, Hs.
  split; [exact Hn |]. rewrite Hs.
  assert (count_steps (events (setup_post args θ0 disp_params pose_params
                                 initial_state)) = 0%nat) as ->; [| lia].
  unfold setup_post, writer_events. simpl. by destruct (log_output args).
Qed.

(** C1 (what the code does at the scenario of the claim). With an epoch
    size of 3, ten training batches per pass and two epochs, a run that
    reaches the end of [main] has executed six optimizer steps, but its
    step counter is 4: in each epoch the [break] of line 297 leaves the
    loop before the increment of line 300, so the last step of a
    truncated epoch is not counted. *)
Theorem C1_truncated_epochs_miss_an_increment args θ0 disp_params pose_params
    train_loader val_loader s' :
  epochs args = 2 -> epoch_size args = 3 ->
  (forall e, length (train_loader e) = 10%nat) ->
  main args θ0 disp_params pose_params train_loader val_loader initial_state
  = (Ok tt, s') ->
  count_steps (events s') = 6%nat /\ n_iter s' = 4.
Proof.
  intros He Hes Hlen (Hn & Hs)%main_counts.
  rewrite He, Hes in *. simpl in Hn, Hs. rewrite !Hlen in Hn, Hs.
  split; [| exact Hn].
  apply Nat2Z.inj. rewrite Hs. reflexivity.
Qed.

(** *** The full log over a run *)








(** *** The best photometric loss over a run *)

(** What [main] hands to its epoch loop. *)
Definition main_cfg (args : Args) (disp_params pose_params : list positive)
    (train_loader : Z -> list batch) : gset positive * Z * nat :=
  (combined_parameters [Net disp_params true; Net pose_params true],
   (if epoch_size args =? 0 then Z.of_nat (length (train_loader 0))
    else epoch_size args),
   (if log_output args then 3%nat else 0%nat)).

(** [epoch_start ... e s]: started from the beginning of the program,
    [main] has completed epochs [0 .. e-1] and is in state [s], about to
    run epoch [e]. *)
Definition epoch_start (args : Args) (θ0 : gmap positive Q)
    (disp_params pose_params : list positive)
    (train_loader : Z -> list batch) (val_loader : list batch)
    (e : nat) (s : state) : Prop :=
  known_format args = true /\
  main_loop args train_loader val_loader
    (main_cfg args disp_params pose_params train_loader)
    (range (Z.of_nat e)) (setup_post args θ0 disp_params pose_params initial_state)
  = (Ok tt, s).

(** The rest of the run from there. *)
Lemma epoch_start_main args θ0 disp_params pose_params train_loader val_loader e s :
  epoch_start args θ0 disp_params pose_params train_loader val_loader e s ->
  Z.of_nat e <= epochs args ->
  main args θ0 disp_params pose_params train_loader val_loader initial_state
  = main_loop args train_loader val_loader
      (main_cfg args disp_params pose_params train_loader)
      (drop e (range (epochs args))) s.
Proof.
  intros (Hfmt & Hrun) He. unfold main.
  rewrite bind_run, main_setup_run, Hfmt. fold (main_cfg args disp_params pose_params train_loader).
  rewrite <- (take_drop e (range (epochs args))) at 1.
  assert (take e (range (epochs args)) = range (Z.of_nat e)) as ->.
  { unfold range. rewrite <- fmap_take, take_seq, Nat2Z.id. do 2 f_equal. lia. }
  unfold main_loop in *. cbn [main_cfg] in *. by rewrite forM_app, Hrun.
Qed.

(** The events of lines 186-204. *)
Definition checkpoint_events (epoch : Z) (valid : Q * Q * Q) (is_best : bool)
    (s : state) : list event :=
  [AddScalar ValidWriter "photometric_error" (valid.1.1 * 4) (n_iter s);
   AddScalar ValidWriter "explanability_loss" (valid.1.2 * 4) (n_iter s);
   AddScalar ValidWriter "total_loss" (valid.2 * 4) (n_iter s);
   SaveCheckpoint (epoch + 1) (state_dict (store s) (disp_net s))
                  (state_dict (store s) (pose_exp_net s)) is_best].

(** An epoch applies the checkpoint policy to the best loss it started
    with and the photometric loss [validate] returned. *)
Lemma main_epoch_best args train_loader val_loader optimizer epoch_size
    output_writers epoch s s' :
  main_epoch args train_loader val_loader optimizer epoch_size output_writers
             epoch s = (Ok tt, s') ->
  exists train_loss s1 valid s2,
    train forward backward adam args (train_loader epoch) optimizer epoch_size s
    = (Ok train_loss, s1) /\
    validate forward args val_loader epoch output_writers s1 = (Ok valid, s2) /\
    let policy := checkpoint_policy (best_photo_loss s) valid.1.1 in
    best_photo_loss s' = policy.2 /\
    events s' = events s2 ++ checkpoint_events epoch valid policy.1 s2.
Proof.
  intros (tl & s1 & valid & s2 & Htrain & Hval & ->)%main_epoch_ok.
  exists tl, s1, valid, s2. split; [done |]. split; [done |].
  pose proof (preserves_run _ _ _ _ _ (train_best forward backward adam _ _ _ _)
                Htrain) as Hb1.
  pose proof (preserves_run _ _ _ _ _ (validate_quiet forward _ _ _ _) Hval)
    as (_ & Hb2 & _).
  unfold same in Hb1. simpl. rewrite Hb2, Hb1. done.
Qed.

(** With nonnegative photometric losses, [validate] returns a
    nonnegative average. *)
Section NonnegativeLosses.

Hypothesis loss_1_nonneg :
  forall m1 m2 θ b, (0 <= loss_1 (forward m1 m2 θ b))%Q.

Lemma validate_step_ok_losses1 args epoch output_writers B i b l s l' s' :
  validate_step forward args epoch output_writers B i b l s = (Ok l', s') ->
  v_losses1 l'
  = meter_update (v_losses1 l)
      (loss_1 (forward (net_training (disp_net s))
                       (net_training (pose_exp_net s)) (store s) b)) 1.
Proof.
  rewrite validate_step_run. cbv zeta.
  destruct (_ (log_events _ s)) as [[poses|e] s2]; [| congruence].
  destruct (print_freq args =? 0); [congruence |].
  by intros [= <- _].
Qed.

Lemma validate_loop_losses1 args epoch output_writers B batches :
  forall i l s l' s',
    validate_loop forward args epoch output_writers B i batches l s = (Ok l', s') ->
    (0 <= m_sum (v_losses1 l))%Q -> (0 <= m_count (v_losses1 l))%Q ->
    (0 <= m_sum (v_losses1 l'))%Q /\ (0 <= m_count (v_losses1 l'))%Q.
Proof.
  induction batches as [|b rest IH]; intros i l s l' s' H Hsum Hcount; simpl in H.
  - by injection H as <- _.
  - rewrite bind_run in H.
    destruct (validate_step _ _ _ _ _ _ _ _ _) as [[l1|e] s1] eqn:Hstep;
      [| congruence].
    apply validate_step_ok_losses1 in Hstep.
    apply IH in H; [done | |]; rewrite Hstep; simpl.
    + rewrite Qmult_1_r. rewrite <- (Qplus_0_r 0).
      apply Qplus_le_compat; [done | apply loss_1_nonneg].
    + rewrite <- (Qplus_0_r 0). apply Qplus_le_compat; [done | discriminate].
Qed.

Lemma meter_avg_nonneg m s v s' :
  meter_avg m s = (Ok v, s') ->
  (0 <= m_sum m)%Q -> (0 <= m_count m)%Q -> (0 <= v)%Q.
Proof.
  unfold meter_avg. destruct (Qeq_bool (m_count m) 0) eqn:Hz; [done |].
  intros [= <- _] Hsum Hcount.
  apply Qeq_bool_neq in Hz.
  apply Qle_shift_div_l.
  - apply Qle_lteq in Hcount as [H | H]; [done | by symmetry in H].
  - by rewrite Qmult_0_l.
Qed.

Lemma validate_photo_nonneg args val_loader epoch output_writers s valid s' :
  validate forward args val_loader epoch output_writers s = (Ok valid, s') ->
  (0 <= valid.1.1)%Q.
Proof.
  unfold validate. rewrite bind_run.
  destruct (validate_body _ _ _ _ _ _) as [[l|e] s1] eqn:Hbody; [| congruence].
  apply validate_body_ok in Hbody as (_ & s_loop & Hloop & _).
  apply validate_loop_losses1 in Hloop as (Hsum & Hcount); [| done | done].
  rewrite bind_run.
  destruct (meter_avg (v_losses1 l) s1) as [[a1|e] s2] eqn:Ha1; [| congruence].
  apply meter_avg_nonneg in Ha1; [| done | done].
  rewrite bind_run. destruct (meter_avg (v_losses2 l) s2) as [[a2|e] s3];
    [| congruence].
  rewrite bind_run. destruct (meter_avg (v_losses l) s3) as [[a|e] s4];
    [| congruence].
  by intros [= <- _].
Qed.

(** After any completed epoch the stored best loss is nonnegative. *)
Lemma main_epoch_best_nonneg args train_loader val_loader optimizer epoch_size
    output_writers epoch s s' :
  main_epoch args train_loader val_loader optimizer epoch_size output_writers
             epoch s = (Ok tt, s') ->
  (0 <= best_photo_loss s')%Q.
Proof.
  intros (tl & s1 & valid & s2 & _ & Hval & Hbest & _)%main_epoch_best.
  rewrite Hbest. apply checkpoint_policy_nonneg.
  by eapply validate_photo_nonneg.
Qed.

Lemma epoch_start_best_nonneg args θ0 disp_params pose_params train_loader
    val_loader e s :
  epoch_start args θ0 disp_params pose_params train_loader val_loader e s ->
  (0 < e)%nat -> (0 <= best_photo_loss s)%Q.
Proof.
  intros (_ & Hrun) He. destruct e as [|e]; [lia |].
  rewrite range_S in Hrun. unfold main_loop, main_cfg in Hrun.
  rewrite forM_app in Hrun.
  destruct (forM_ (range (Z.of_nat e)) _ _) as [[u|err] s1]; [| congruence].
  simpl in Hrun. rewrite bind_run in Hrun.
  destruct (main_epoch _ _ _ _ _ _ _ _) as [[[]|err] s2] eqn:Hepoch;
    [| congruence].
  injection Hrun as <-. by eapply main_epoch_best_nonneg.
Qed.

End NonnegativeLosses.

Lemma epoch_start_0 args θ0 disp_params pose_params train_loader val_loader s :
  epoch_start args θ0 disp_params pose_params train_loader val_loader 0 s ->
  best_photo_loss s = (-1)%Q.
Proof. intros (_ & Hrun). simpl in Hrun. by injection Hrun as <-. Qed.

End MainFacts.

Section RunClaims.

Context {torch : TensorArith}.

Variable forward : bool -> bool -> gmap positive Q -> batch -> outputs.
Variable backward : gmap positive Q -> batch -> Q -> positive -> Q.
Variable adam : positive -> Q -> Q -> Q.

Abbreviation main_loop := (main_loop forward backward adam).
Abbreviation train := (train forward backward adam).
Abbreviation train_step := (train_step forward backward adam).

(** Running the single epoch [e] from [s]. *)
Lemma main_loop_one args train_loader val_loader cfg e s s' :
  main_loop args train_loader val_loader cfg [e] s = (Ok tt, s') ->
  exists train_loss s1 valid s2,
    train args (train_loader e) cfg.1.1 cfg.1.2 s = (Ok train_loss, s1) /\
    validate forward args val_loader e cfg.2 s1 = (Ok valid, s2) /\
    let policy := checkpoint_policy (best_photo_loss s) valid.1.1 in
    best_photo_loss s' = policy.2 /\
    events s' = events s2 ++ checkpoint_events e valid policy.1 s2.
Proof.
  destruct cfg as [[optimizer epoch_size] output_writers].
  unfold main_loop. simpl forM_. rewrite bind_run.
  destruct (main_epoch _ _ _ _ _ _ _ _ _ _ _) as [[[]|err] s1] eqn:Hepoch;
    [| congruence].
  intros [= <-]. by apply main_epoch_best in Hepoch.
Qed.

(** The stored best loss after an epoch is nonnegative exactly when the
    epoch's validation loss is. *)
Lemma checkpoint_policy_sign (best valid : Q) :
  (0 <= (checkpoint_policy best valid).2)%Q <-> (0 <= valid)%Q.
Proof.
  destruct (Qlt_le_dec best 0) as [Hb | Hb].
  - by rewrite checkpoint_policy_unset.
  - rewrite checkpoint_policy_set by exact Hb. simpl. unfold py_min.
    destruct (Qltb best valid) eqn:Hlt; [| done].
    apply Qltb_lt in Hlt. split; [intros _ | done].
    apply Qlt_le_weak. eapply Qle_lt_trans; eassumption.
Qed.

(** C2 (as the code has it). "Unset" is "negative" (line 190).  In a
    run of [main], epoch 0 starts from the sentinel [-1].  An epoch that
    starts with a negative best loss makes its validation photometric
    loss the best loss and is not flagged as best.  An epoch that starts
    with a nonnegative best loss is flagged exactly when its validation
    photometric loss is strictly below the best loss held before the
    epoch, and the best loss afterwards is the minimum of the two.  The
    best loss an epoch leaves is nonnegative exactly when its validation
    photometric loss is, and the next epoch starts where this one ends,
    so the second rule applies to every epoch that follows one with a
    nonnegative validation photometric loss. *)
Theorem C2_best_photo_loss_rule args θ0 disp_params pose_params train_loader
    val_loader (e : nat) s s' :
  epoch_start forward backward adam args θ0 disp_params pose_params
              train_loader val_loader e s ->
  main_loop args train_loader val_loader
            (main_cfg args disp_params pose_params train_loader)
            [Z.of_nat e] s = (Ok tt, s') ->
  let cfg := main_cfg args disp_params pose_params train_loader in
  exists train_loss s1 valid s2 is_best,
    train args (train_loader (Z.of_nat e)) cfg.1.1 cfg.1.2 s = (Ok train_loss, s1) /\
    validate forward args val_loader (Z.of_nat e) cfg.2 s1 = (Ok valid, s2) /\
    events s' = events s2 ++ checkpoint_events (Z.of_nat e) valid is_best s2 /\
    (e = 0%nat ->
       best_photo_loss s = (-1)%Q /\
       best_photo_loss s' = valid.1.1 /\ is_best = false) /\
    ((best_photo_loss s < 0)%Q ->
       best_photo_loss s' = valid.1.1 /\ is_best = false) /\
    ((0 <= best_photo_loss s)%Q ->
       (is_best = true <-> (valid.1.1 < best_photo_loss s)%Q) /\
       (best_photo_loss s' == Qmin (best_photo_loss s) valid.1.1)%Q) /\
    ((0 <= best_photo_loss s')%Q <-> (0 <= valid.1.1)%Q) /\
    epoch_start forward backward adam args θ0 disp_params pose_params
                train_loader val_loader (S e) s'.
Proof.
  intros Hstart Hepoch cfg.
  assert (epoch_start forward backward adam args θ0 disp_params pose_params
                      train_loader val_loader (S e) s') as Hnext.
  { destruct Hstart as (Hfmt & Hrun). split; [exact Hfmt |].
    rewrite range_S. unfold main_loop, main_cfg in *.
    by rewrite forM_app, Hrun. }
  apply main_loop_one in Hepoch
    as (tl & s1 & valid & s2 & Htrain & Hval & Hbest & Hevents).
  exists tl, s1, valid, s2, (checkpoint_policy (best_photo_loss s) valid.1.1).1.
  split; [exact Htrain |]. split; [exact Hval |]. split; [exact Hevents |].
  rewrite Hbest. split; [| split; [| split; [| split]]].
  - intros ->. apply epoch_start_0 in Hstart. rewrite Hstart.
    by rewrite checkpoint_policy_unset.
  - intros Hneg. by rewrite checkpoint_policy_unset.
  - intros Hb. rewrite checkpoint_policy_set by exact Hb. simpl.
    split; [apply Qltb_lt | apply py_min_Qmin].
  - apply checkpoint_policy_sign.
  - exact Hnext.
Qed.

(** C10. The sentinel is [-1] and "unset" means "negative": the program
    starts with [best_photo_loss = -1], which is what epoch 0 finds; any
    epoch that starts with a negative stored value, whichever epoch it
    is, overwrites it with its validation photometric loss and is not
    flagged as best; an epoch whose validation photometric loss is
    negative leaves that negative loss as the stored value, so the next
    epoch is such an epoch; and when all photometric losses are
    nonnegative no epoch after epoch 0 starts with a negative stored
    value. *)
Theorem C10_negative_best_is_unset args θ0 disp_params pose_params train_loader
    val_loader :
  best_photo_loss initial_state = (-1)%Q /\
  (forall s,
     epoch_start forward backward adam args θ0 disp_params pose_params
                 train_loader val_loader 0 s ->
     best_photo_loss s = (-1)%Q) /\
  (forall best valid,
     checkpoint_policy best valid
     = (if Qltb best 0 then (false, valid) else (Qltb valid best, py_min valid best))) /\
  (forall cfg e s s',
     main_loop args train_loader val_loader cfg [e] s = (Ok tt, s') ->
     exists train_loss s1 valid s2,
       train args (train_loader e) cfg.1.1 cfg.1.2 s = (Ok train_loss, s1) /\
       validate forward args val_loader e cfg.2 s1 = (Ok valid, s2) /\
       ((best_photo_loss s < 0)%Q ->
          best_photo_loss s' = valid.1.1 /\
          events s' = events s2 ++ checkpoint_events e valid false s2) /\
       ((valid.1.1 < 0)%Q -> best_photo_loss s' = valid.1.1)) /\
  ((forall m1 m2 θ b, (0 <= loss_1 (forward m1 m2 θ b))%Q) ->
   forall e s,
     epoch_start forward backward adam args θ0 disp_params pose_params
                 train_loader val_loader e s ->
     (0 < e)%nat -> (0 <= best_photo_loss s)%Q).
Proof.
  split; [reflexivity |]. split; [apply epoch_start_0 |]. split; [| split].
  - intros best valid. destruct (Qltb best 0) eqn:Hb.
    + apply checkpoint_policy_unset. by apply Qltb_lt.
    + apply checkpoint_policy_set. by apply Qltb_ge.
  - intros cfg e s s' Hepoch.
    apply main_loop_one in Hepoch
      as (tl & s1 & valid & s2 & Htrain & Hval & Hbest & Hevents).
    exists tl, s1, valid, s2. split; [exact Htrain |]. split; [exact Hval |].
    split.
    + intros Hneg.
      rewrite checkpoint_policy_unset in Hbest, Hevents by exact Hneg. done.
    + intros Hneg. rewrite Hbest. by apply checkpoint_policy_negative.
  - intros Hnonneg e s Hstart He.
    by eapply epoch_start_best_nonneg.
Qed.

(** *** Images during training *)

Definition is_train_image (e : event) : bool :=
  match e with AddImage TrainWriter _ _ => true | _ => false end.

(** Whether a training iteration started in [s] on batch [b] writes an
    image. *)
Definition step_writes_image (args : Args) (optimizer : gset positive)
    (b : batch) (s : state) : bool :=
  existsb is_train_image
    (drop (length (events s))
          (events (train_step args optimizer 0 b meter_new s).2)).

Lemma train_step_events args optimizer i b losses s :
  (2 <= n_refs b)%nat ->
  let o := forward (net_training (disp_net s)) (net_training (pose_exp_net s))
                   (store s) b in
  events (train_step args optimizer i b losses s).2
  = events s
    ++ (train_scalar_events args o (n_iter s)
        ++ (if (n_iter s `mod` 200 =? 0) && log_output args
            then train_image_events b o (n_iter s) else []))
    ++ [OptimizerStep (elements optimizer)].
Proof.
  intros Hrefs o. rewrite train_step_refs by auto.
  destruct (print_freq args =? 0); apply train_step_post_events.
Qed.

Lemma existsb_concat_map_false {A B} (p : B -> bool) (g : A -> list B) (l : list A) :
  (forall x, existsb p (g x) = false) -> existsb p (concat (map g l)) = false.
Proof.
  intros Hg. induction l as [|x l IH]; [reflexivity |].
  simpl. by rewrite existsb_app, Hg, IH.
Qed.

Lemma step_writes_image_iff args optimizer b s :
  (2 <= n_refs b)%nat ->
  step_writes_image args optimizer b s
  = (n_iter s `mod` 200 =? 0) && log_output args.
Proof.
  intros Hrefs. unfold step_writes_image.
  rewrite train_step_events by done.
  rewrite drop_app_length. rewrite !existsb_app.
  change (existsb is_train_image (train_scalar_events _ _ _)) with false.
  change (existsb is_train_image [OptimizerStep _]) with false.
  rewrite orb_false_r, orb_false_l.
  destruct ((n_iter s `mod` 200 =? 0) && log_output args); reflexivity.
Qed.

(** The input images written before line 251 or line 253 raises, on a
    batch with fewer than two reference images. *)
Definition train_image_events_short (b : batch) (n_iter : Z) : list event :=
  if decide (0 < n_refs b)%nat
  then [AddImage TrainWriter (TrainInputRef 0) (n_iter - 1);
        AddImage TrainWriter TrainInputTgt n_iter]
  else [].

Lemma train_images_short b o n s :
  (n_refs b < 2)%nat ->
  train_images b o n s
  = (Raise IndexError, log_events (train_image_events_short b n) s).
Proof.
  intros Hrefs. unfold train_images, train_image_events_short.
  destruct (decide (0 < n_refs b)%nat) as [H0 | H0].
  - rewrite (decide_False (P := (1 < n_refs b)%nat)) by lia.
    rewrite !bind_emit, log_events_app. reflexivity.
  - by rewrite log_events_nil.
Qed.

(** What one iteration appends to the events, whatever the batch. *)
Definition train_step_events_of (args : Args) (optimizer : gset positive)
    (b : batch) (o : outputs) (n : Z) : list event :=
  train_scalar_events args o n
  ++ (if (n `mod` 200 =? 0) && log_output args
      then if decide (2 <= n_refs b)%nat
           then train_image_events b o n ++ [OptimizerStep (elements optimizer)]
           else train_image_events_short b n
      else [OptimizerStep (elements optimizer)]).

Lemma train_step_all_events args optimizer i b losses s :
  let o := forward (net_training (disp_net s)) (net_training (pose_exp_net s))
                   (store s) b in
  events (train_step args optimizer i b losses s).2
  = events s ++ train_step_events_of args optimizer b o (n_iter s).
Proof.
  intros o. unfold train_step_events_of.
  destruct ((n_iter s `mod` 200 =? 0) && log_output args) eqn:Hemit.
  - destruct (decide (2 <= n_refs b)%nat) as [Hrefs | Hrefs].
    + rewrite train_step_events by done. fold o. rewrite Hemit.
      by rewrite <- ?app_assoc.
    + rewrite train_step_run. fold o. unfold train_emits. rewrite Hemit.
      rewrite train_images_short by lia.
      cbn [snd events log_events set_events]. by rewrite <- ?app_assoc.
  - rewrite train_step_refs by (unfold train_emits; congruence).
    assert (events (train_step_post forward backward adam args optimizer b s)
            = events s ++ train_scalar_events args o (n_iter s)
                       ++ [OptimizerStep (elements optimizer)]) as Hpost.
    { rewrite train_step_post_events. fold o.
      unfold train_step_images, train_emits. rewrite Hemit.
      by rewrite app_nil_r, <- ?app_assoc. }
    destruct (print_freq args =? 0); exact Hpost.
Qed.

Lemma elem_of_train_image_events b o n e :
  e ∈ train_image_events b o n -> exists img step, e = AddImage TrainWriter img step.
Proof.
  unfold train_image_events. rewrite elem_of_app, elem_of_concat_map.
  intros [H | (k & _ & H)].
  - rewrite !elem_of_cons, elem_of_nil in H.
    destruct_or!; subst; eauto; done.
  - rewrite elem_of_app, elem_of_concat_map in H.
    destruct H as [H | (j & _ & H)];
      rewrite !elem_of_cons, elem_of_nil in H;
      destruct_or!; subst; eauto; done.
Qed.

(** C4 (as the code has it). The iteration that starts with step counter
    [n] appends the four scalars and then: when [n mod 200 = 0],
    [log_output] is set and the batch has at least two reference images,
    the images (the three inputs; per scale the disparity and the depth;
    per scale and reference the warped reference, the residual and the
    mask) and the optimizer step; when [n mod 200 <> 0] or [log_output]
    is not set, the optimizer step and no image, whatever the batch; when
    [n mod 200 = 0] and [log_output] is set on a batch with fewer than
    two reference images, at most the first two input images, after which
    it raises [IndexError] without an optimizer step.  So the images are
    all written exactly when [n mod 200 = 0], [log_output] is set and
    there are two reference images, and some image is written exactly
    when [n mod 200 = 0], [log_output] is set and there is a reference
    image.  The stride 200 is a constant of the program. *)
Theorem C4_train_images_every_200_steps args optimizer i b losses s :
  let o := forward (net_training (disp_net s)) (net_training (pose_exp_net s))
                   (store s) b in
  let n := n_iter s in
  let emits := (n `mod` 200 =? 0) && log_output args in
  let r := train_step args optimizer i b losses s in
  let new := drop (length (events s)) (events r.2) in
  events r.2 = events s ++ new /\
  new = train_scalar_events args o n
        ++ (if emits
            then if decide (2 <= n_refs b)%nat
                 then train_image_events b o n ++ [OptimizerStep (elements optimizer)]
                 else train_image_events_short b n
            else [OptimizerStep (elements optimizer)]) /\
  (train_image_events b o n ⊆ new
   <-> n `mod` 200 = 0 /\ log_output args = true /\ (2 <= n_refs b)%nat) /\
  (existsb is_train_image new = true
   <-> n `mod` 200 = 0 /\ log_output args = true /\ (1 <= n_refs b)%nat) /\
  (emits = true -> (n_refs b < 2)%nat -> r.1 = Raise IndexError).
Proof.
  intros o n emits r new.
  assert (new = train_step_events_of args optimizer b o n) as Hnew.
  { unfold new, r. rewrite train_step_all_events. by rewrite drop_app_length. }
  split; [unfold r; by rewrite train_step_all_events, Hnew |].
  split; [exact Hnew |].
  rewrite Hnew. unfold train_step_events_of. fold emits.
  assert (emits = true <-> n `mod` 200 = 0 /\ log_output args = true) as Hemits
    by (unfold emits; by rewrite andb_true_iff, Z.eqb_eq).
  split; [| split].
  - split.
    + intros Hsub.
      assert (AddImage TrainWriter (TrainInputRef 1) (n + 1)
              ∈ train_image_events b o n) as Hin
        by (unfold train_image_events; apply elem_of_app; left;
            rewrite !elem_of_cons; auto).
      apply Hsub in Hin.
      destruct emits.
      * destruct (decide (2 <= n_refs b)%nat) as [Hrefs | Hrefs];
          [by destruct (proj1 Hemits eq_refl) |].
        exfalso. unfold train_image_events_short, train_scalar_events in Hin.
        destruct (decide (0 < n_refs b)%nat);
          rewrite elem_of_app, !elem_of_cons, elem_of_nil in Hin;
          destruct_or!; discriminate || done.
      * exfalso. unfold train_scalar_events in Hin.
        rewrite elem_of_app, !elem_of_cons, elem_of_nil in Hin.
        destruct_or!; discriminate || done.
    + intros (Hn & Hlog & Hrefs).
      rewrite (proj2 Hemits (conj Hn Hlog)), decide_True by done.
      intros e He. rewrite !elem_of_app. auto.
  - rewrite existsb_app.
    change (existsb is_train_image (train_scalar_events args o n)) with false.
    rewrite orb_false_l. destruct emits.
    + destruct (proj1 Hemits eq_refl) as [Hn Hlog].
      destruct (decide (2 <= n_refs b)%nat) as [Hrefs | Hrefs].
      { split; [intros _; repeat split; [done | done | lia] | reflexivity]. }
      unfold train_image_events_short.
      destruct (decide (0 < n_refs b)%nat).
      * split; [intros _; repeat split; [done | done | lia] | reflexivity].
      * split; [discriminate | intros (_ & _ & ?); lia].
    + split; [discriminate |].
      intros (Hn & Hlog & _). by destruct (proj2 Hemits (conj Hn Hlog)).
  - intros Hemit Hrefs. unfold r. rewrite train_step_run. fold o.
    unfold train_emits. fold n. fold emits. rewrite Hemit.
    by rewrite train_images_short.
Qed.

End RunClaims.

(** ** Concrete runs *)

Module Scenario.
Import Fixture.

Definition cfg : gset positive * Z * nat :=
  main_cfg args disp_params pose_params train_loader.

(** The state in which the epoch loop starts. *)
Definition s0 : state := setup_post args θ0 disp_params pose_params initial_state.
Definition s0_signed : state :=
  setup_post args θ0_signed disp_params pose_params initial_state.

Lemma loss_1_nonneg m1 m2 θ b : (0 <= loss_1 (forward m1 m2 θ b))%Q.
Proof. apply Qabs_nonneg. Qed.

(** In the world with signed losses, epoch 0 validates at [-1/2] and
    epoch 1 at [-4/5]; epoch 1 starts from a negative best loss and is
    treated as a first epoch. *)
Lemma signed_epoch_1 :
  exists s s' train_loss s1 valid s2,
    epoch_start forward_signed backward adam args θ0_signed disp_params
                pose_params train_loader val_loader 1 s /\
    (best_photo_loss s == -1 # 2)%Q /\
    main_loop forward_signed backward adam args train_loader val_loader cfg
              [1] s = (Ok tt, s') /\
    train forward_signed backward adam args (train_loader 1) cfg.1.1 cfg.1.2 s
    = (Ok train_loss, s1) /\
    validate forward_signed args val_loader 1 cfg.2 s1 = (Ok valid, s2) /\
    (valid.1.1 == -4 # 5)%Q /\
    events s' = events s2 ++ checkpoint_events 1 valid false s2 /\
    (best_photo_loss s' == -4 # 5)%Q.
Proof.
  eexists _, _, _, _, _, _.
  split; [split; [reflexivity | vm_compute; reflexivity] |].
  split; [vm_compute; reflexivity |].
  split; [vm_compute; reflexivity |].
  split; [vm_compute; reflexivity |].
  split; [vm_compute; reflexivity |].
  split; [vm_compute; reflexivity |].
  split; vm_compute; reflexivity.
Qed.

End Scenario.

(** C1, at the scenario of the claim: the run is [Fixture.run]. *)
Lemma C1_truncated_epochs_miss_an_increment_witness :
  count_steps (events Fixture.run.2) = 6%nat /\ n_iter Fixture.run.2 = 4.
Proof.
  apply (C1_truncated_epochs_miss_an_increment (torch := Fixture.arith)
           Fixture.forward Fixture.backward Fixture.adam Fixture.args
           Fixture.θ0 Fixture.disp_params Fixture.pose_params
           Fixture.train_loader Fixture.val_loader).
  - reflexivity.
  - reflexivity.
  - intros e. reflexivity.
  - vm_compute. reflexivity.
Defined.

(** C2 fails as stated: in a run whose validation photometric losses are
    [-1/2] and then [-4/5], epoch 1 is a later epoch, its loss is strictly
    below the best loss held before it, and it is not flagged as best. *)
Lemma C2_later_epoch_below_best_not_flagged :
  exists s s' train_loss s1 valid s2,
    epoch_start Fixture.forward_signed Fixture.backward Fixture.adam Fixture.args
                Fixture.θ0_signed Fixture.disp_params Fixture.pose_params
                Fixture.train_loader Fixture.val_loader 1 s /\
    main_loop Fixture.forward_signed Fixture.backward Fixture.adam Fixture.args
              Fixture.train_loader Fixture.val_loader Scenario.cfg [1] s
    = (Ok tt, s') /\
    train Fixture.forward_signed Fixture.backward Fixture.adam Fixture.args
          (Fixture.train_loader 1) Scenario.cfg.1.1 Scenario.cfg.1.2 s
    = (Ok train_loss, s1) /\
    validate Fixture.forward_signed Fixture.args Fixture.val_loader 1
             Scenario.cfg.2 s1 = (Ok valid, s2) /\
    (valid.1.1 < best_photo_loss s)%Q /\
    events s' = events s2 ++ checkpoint_events 1 valid false s2.
Proof.
  destruct Scenario.signed_epoch_1
    as (s & s' & tl & s1 & valid & s2 & Hstart & Hbest & Hrun & Htrain & Hval
        & Hv & Hevents & _).
  exists s, s', tl, s1, valid, s2.
  split; [exact Hstart |]. split; [exact Hrun |]. split; [exact Htrain |].
  split; [exact Hval |]. split; [| exact Hevents].
  rewrite Hv, Hbest. reflexivity.
Qed.

(** C2, amended: epoch 1 of the run [Fixture.run] starts with a
    nonnegative best loss. *)
Lemma C2_best_photo_loss_rule_witness :
  exists (s s' : state) (valid : Q * Q * Q) (is_best : bool),
    epoch_start Fixture.forward Fixture.backward Fixture.adam Fixture.args
                Fixture.θ0 Fixture.disp_params Fixture.pose_params
                Fixture.train_loader Fixture.val_loader 1 s /\
    main_loop Fixture.forward Fixture.backward Fixture.adam Fixture.args
              Fixture.train_loader Fixture.val_loader Scenario.cfg [1] s
    = (Ok tt, s') /\
    (0 <= best_photo_loss s)%Q /\
    (is_best = true <-> (valid.1.1 < best_photo_loss s)%Q) /\
    (best_photo_loss s' == Qmin (best_photo_loss s) valid.1.1)%Q.
Proof.
  assert (exists s s',
    epoch_start Fixture.forward Fixture.backward Fixture.adam Fixture.args
                Fixture.θ0 Fixture.disp_params Fixture.pose_params
                Fixture.train_loader Fixture.val_loader 1 s /\
    main_loop Fixture.forward Fixture.backward Fixture.adam Fixture.args
              Fixture.train_loader Fixture.val_loader Scenario.cfg [1] s
    = (Ok tt, s') /\
    (0 <= best_photo_loss s)%Q) as (s & s' & Hstart & Hrun & Hbest).
  { eexists _, _. split; [split; [reflexivity | vm_compute; reflexivity] |].
    split; [vm_compute; reflexivity | vm_compute; discriminate]. }
  destruct (C2_best_photo_loss_rule (torch := Fixture.arith)
              Fixture.forward Fixture.backward Fixture.adam
              Fixture.args Fixture.θ0 Fixture.disp_params Fixture.pose_params
              Fixture.train_loader Fixture.val_loader 1 s s' Hstart Hrun)
    as (tl & s1 & valid & s2 & is_best & _ & _ & _ & _ & _ & Hset & _ & _).
  exists s, s', valid, is_best.
  split; [exact Hstart |]. split; [exact Hrun |]. split; [exact Hbest |].
  exact (Hset Hbest).
Defined.

(** C3, at five validation batches of two samples and sequence length 3:
    the buffer has [4 * 2 * 2 = 16] rows. *)
Lemma C3_pose_buffer_witness :
  exists l s',
    validate_body Fixture.forward Fixture.args Fixture.val_loader 0 3 Scenario.s0
    = (Ok l, s') /\
    Z.of_nat (length (v_poses l)) = 16.
Proof.
  destruct (validate_body Fixture.forward Fixture.args Fixture.val_loader 0 3
                          Scenario.s0) as [[l|e] s'] eqn:H;
    [| vm_compute in H; discriminate].
  exists l, s'. split; [reflexivity |].
  exact (proj1 (C3_pose_buffer (torch := Fixture.arith) Fixture.forward
                               Fixture.args Fixture.val_loader 0 3
                               Scenario.s0 l s' H)).
Defined.

(** C4 fails as stated for a stride other than 200: with a stride of 100
    and diagnostics enabled, the iteration that starts with step counter
    100 would have to write images, and writes none. *)
Lemma C4_stride_100_writes_no_image :
  ~ (forall stride : Z, 1 <= stride ->
     forall args optimizer b s,
       (2 <= n_refs b)%nat -> log_output args = true ->
       (step_writes_image Fixture.forward Fixture.backward Fixture.adam
                          args optimizer b s = true
        <-> n_iter s `mod` stride = 0)).
Proof.
  intros Hclaim.
  specialize (Hclaim 100 ltac:(lia) Fixture.args Scenario.cfg.1.1 (Batch 0 2)
                (set_n_iter 100 Scenario.s0) ltac:(simpl; lia) eq_refl).
  rewrite step_writes_image_iff in Hclaim by (simpl; lia).
  destruct Hclaim as [_ Hclaim]. specialize (Hclaim eq_refl). discriminate Hclaim.
Qed.

(** C4, amended: the first iteration of [Fixture.run] writes all the
    images. *)
Lemma C4_train_images_every_200_steps_witness :
  train_image_events (Batch 0 2)
    (Fixture.forward (net_training (disp_net Scenario.s0))
                     (net_training (pose_exp_net Scenario.s0))
                     (store Scenario.s0) (Batch 0 2))
    (n_iter Scenario.s0)
  ⊆ drop (length (events Scenario.s0))
         (events (train_step Fixture.forward Fixture.backward Fixture.adam
                             Fixture.args Scenario.cfg.1.1 0 (Batch 0 2)
                             meter_new Scenario.s0).2).
Proof.
  destruct (C4_train_images_every_200_steps (torch := Fixture.arith)
              Fixture.forward Fixture.backward Fixture.adam Fixture.args
              Scenario.cfg.1.1 0 (Batch 0 2) meter_new Scenario.s0)
    as (_ & _ & Hall & _).
  apply Hall. split; [reflexivity |]. split; [reflexivity | simpl; lia].
Defined.

(** C5, at five validation batches, three output writers and epoch 0:
    batch 0 writes to channel 0. *)
Lemma C5_validate_channels_witness :
  exists l s' new,
    validate_body Fixture.forward Fixture.args Fixture.val_loader 0 3 Scenario.s0
    = (Ok l, s') /\
    (forall c, receives c new <-> c = 0%nat /\ (0 `mod` 100 = 0 /\ 0 `div` 100 < 3)) /\
    (AddImage (OutputWriter 0) (ValInputTgt 0) 0 ∈ new
     <-> (0 `mod` 100 = 0 /\ 0 `div` 100 < 3) /\ 0 = 0).
Proof.
  destruct (validate_body Fixture.forward Fixture.args Fixture.val_loader 0 3
                          Scenario.s0) as [[l|e] s'] eqn:H;
    [| vm_compute in H; discriminate].
  destruct (C5_validate_channels (torch := Fixture.arith)
              Fixture.forward Fixture.args Fixture.val_loader 0 3
              Scenario.s0 l s' H) as (per_batch & _ & _ & Hbatch).
  destruct (Hbatch 0%nat (Batch 0 2) eq_refl)
    as (new & _ & _ & Hreceives & Hraw & _).
  exists l, s', new. split; [reflexivity |]. split; [exact Hreceives |].
  exact (proj1 (Hraw 0%nat ltac:(simpl; lia))).
Defined.

(** One epoch of one step in float32, with [-p 1000] and a photometric
    loss of [0.3] (as a float32, [10066330 / 2^25]), the other two losses
    being 0. *)
Module Rounded.

Definition forward (_ _ : bool) (_ : gmap positive Q) (b : batch) : outputs :=
  Outputs Float32.three_tenths 0 0 4
          (replicate (2 * n_refs b) (replicate 6 0%Q)).

Definition args : Args := MkArgs "sequential" 1 1 2 10 1000 1 (2#10) 3 false.

Definition run : outcome unit * state :=
  main (torch := Float32.arith) forward Fixture.backward Fixture.adam args
       Fixture.θ0 Fixture.disp_params Fixture.pose_params Fixture.train_loader
       Fixture.val_loader initial_state.

End Rounded.



(** C9, at the dataset format ['kitti']. *)
Lemma C9_invalid_dataset_format_witness :
  (main Fixture.forward Fixture.backward Fixture.adam
        (MkArgs "kitti" 2 3 2 10 1 1 (2#10) 3 true)
        Fixture.θ0 Fixture.disp_params Fixture.pose_params
        Fixture.train_loader Fixture.val_loader initial_state).1
  = Raise UnboundLocalError.
Proof.
  exact (proj1 (C9_invalid_dataset_format (torch := Fixture.arith)
                  Fixture.forward Fixture.backward
                  Fixture.adam (MkArgs "kitti" 2 3 2 10 1 1 (2#10) 3 true)
                  Fixture.θ0 Fixture.disp_params Fixture.pose_params
                  Fixture.train_loader Fixture.val_loader
                  ltac:(discriminate) ltac:(discriminate))).
Defined.

(** * Further properties of [train], [validate] and [main] *)

(** ** Observations collected from the event log *)

(** What [f] picks from each event, in program order. *)
Definition collect {B} (f : event -> list B) (l : list event) : list B :=
  flat_map f l.

Lemma collect_app {B} (f : event -> list B) l1 l2 :
  collect f (l1 ++ l2) = collect f l1 ++ collect f l2.
Proof. apply flat_map_app. Qed.

Lemma collect_concat_map {A B} (f : event -> list B) (g : A -> list event)
    (l : list A) :
  (forall x, collect f (g x) = []) -> collect f (concat (map g l)) = [].
Proof.
  intros Hg. induction l as [|x l IH]; [reflexivity |].
  simpl. by rewrite collect_app, Hg, IH.
Qed.

Lemma elem_of_collect {B} (f : event -> list B) l y :
  y ∈ collect f l <-> exists e, e ∈ l /\ y ∈ f e.
Proof.
  unfold collect. rewrite list_elem_of_In, in_flat_map. split.
  - intros (e & He & Hy). exists e. by rewrite !list_elem_of_In.
  - intros (e & He & Hy). exists e. by rewrite <- !list_elem_of_In.
Qed.

(** [keeps f]: nothing that [f] picks was added to the event log. *)
Definition keeps {B} (f : event -> list B) : relation state :=
  same (fun s => collect f (events s)).

Lemma emit_keeps {B} (f : event -> list B) e :
  f e = [] -> preserves (keeps f) (emit e).
Proof.
  intros He s. unfold keeps, same. simpl.
  rewrite collect_app. simpl. rewrite He. by rewrite !app_nil_r.
Qed.

Lemma modify_keeps {B} (f : event -> list B) (g : state -> state) :
  (forall s, events (g s) = events s) -> preserves (keeps f) (modify g).
Proof. intros Hg s. unfold keeps, same. simpl. by rewrite Hg. Qed.

(** The checkpoints saved, by their epoch tag. *)
Definition checkpoint_epoch (e : event) : list Z :=
  match e with SaveCheckpoint epoch _ _ _ => [epoch] | _ => [] end.

(** The parameter lists visited by the optimizer steps. *)
Definition step_updates (e : event) : list (list positive) :=
  match e with OptimizerStep l => [l] | _ => [] end.

#[global] Instance writer_eq_dec : EqDecision writer.
Proof. solve_decision. Defined.

(** The values of the scalars written to [w] under [tag]. *)
Definition scalar_values (w : writer) (tag : string) (e : event) : list Q :=
  match e with
  | AddScalar w' tag' value _ =>
      if decide (w' = w /\ tag' = tag) then [value] else []
  | _ => []
  end.

(** The images written to [w]. *)
Definition images_of (w : writer) (e : event) : list image :=
  match e with
  | AddImage w' img _ => if decide (w' = w) then [img] else []
  | _ => []
  end.

Section MoreFacts.

Context {torch : TensorArith}.

Variable forward : bool -> bool -> gmap positive Q -> batch -> outputs.
Variable backward : gmap positive Q -> batch -> Q -> positive -> Q.
Variable adam : positive -> Q -> Q -> Q.

Abbreviation train_step := (train_step forward backward adam).
Abbreviation train_loop := (train_loop forward backward adam).
Abbreviation train := (train forward backward adam).
Abbreviation validate_step := (validate_step forward).
Abbreviation validate_loop := (validate_loop forward).
Abbreviation validate_body := (validate_body forward).
Abbreviation validate := (validate forward).
Abbreviation main_epoch := (main_epoch forward backward adam).
Abbreviation main_loop := (main_loop forward backward adam).
Abbreviation main := (main forward backward adam).

(** *** What [train] and [validate] do not write *)

Lemma train_keeps {B} (f : event -> list B) args train_loader optimizer epoch_size :
  (forall tag v n, f (AddScalar TrainWriter tag v n) = []) ->
  (forall img n, f (AddImage TrainWriter img n) = []) ->
  (forall l, f (OptimizerStep l) = []) ->
  preserves (keeps f) (train args train_loader optimizer epoch_size).
Proof.
  intros Hscalar Himage Hstep.
  apply train_preserves; [exact _ | | by intros ? | by intros ?].
  intros i b losses.
  unfold train_step, train_images, optimizer_step.
  frame_with ltac:(first
    [ apply emit_keeps; first [apply Hscalar | apply Himage | apply Hstep]
    | apply modify_keeps; intros ?; reflexivity ]).
Qed.

Lemma validate_keeps {B} (f : event -> list B) args val_loader epoch output_writers :
  (forall c img n, f (AddImage (OutputWriter c) img n) = []) ->
  (forall tag values n, f (AddHistogram (OutputWriter 0) tag values n) = []) ->
  preserves (keeps f) (validate args val_loader epoch output_writers).
Proof.
  intros Himage Hhist.
  assert (forall i b l B0,
    preserves (keeps f) (validate_step args epoch output_writers B0 i b l)) as Hstep.
  { intros i b l B0. unfold validate_step, validate_images.
    frame_with ltac:(apply emit_keeps; apply Himage). }
  assert (forall poses, preserves (keeps f) (validate_histograms epoch poses))
    as Hhists.
  { intros poses. unfold validate_histograms.
    frame_with ltac:(apply emit_keeps; apply Hhist). }
  unfold validate, validate_body.
  frame_with ltac:(first
    [ apply validate_loop_preserves; [exact _ | intros ? ? ?; apply Hstep]
    | apply Hhists
    | apply modify_keeps; intros ?; reflexivity ]).
Qed.

(** *** Errors that end a run *)

Lemma main_run args θ0 disp_params pose_params train_loader val_loader s :
  main args θ0 disp_params pose_params train_loader val_loader s
  = if known_format args
    then main_loop args train_loader val_loader
           (main_cfg args disp_params pose_params train_loader)
           (range (epochs args)) (setup_post args θ0 disp_params pose_params s)
    else (Raise UnboundLocalError, log_events (writer_events args) s).
Proof.
  unfold main. rewrite bind_run, main_setup_run.
  by destruct (known_format args).
Qed.

Lemma range_pos (n : Z) : 1 <= n -> exists tl, range n = 0 :: tl.
Proof.
  intros Hn. unfold range. destruct (Z.to_nat n) as [|k] eqn:Hk; [lia |].
  simpl. eauto.
Qed.

(** A run with at least one epoch whose first [train] raises. *)
Lemma main_first_train_raises args θ0 disp_params pose_params train_loader
    val_loader e s1 :
  known_format args = true -> 1 <= epochs args ->
  train args (train_loader 0) (main_cfg args disp_params pose_params train_loader).1.1
        (main_cfg args disp_params pose_params train_loader).1.2
        (setup_post args θ0 disp_params pose_params initial_state)
  = (Raise e, s1) ->
  main args θ0 disp_params pose_params train_loader val_loader initial_state
  = (Raise e, s1).
Proof.
  intros Hfmt Hepochs Htrain. rewrite main_run, Hfmt.
  destruct (range_pos _ Hepochs) as (tl & ->).
  unfold main_loop, main_cfg in *. simpl forM_. simpl in Htrain.
  rewrite bind_run. unfold main_epoch. rewrite bind_run, Htrain.
  reflexivity.
Qed.

(** The state in which the first iteration of [train] starts. *)
Definition train_entry (s : state) : state :=
  set_nets (set_mode true (disp_net s)) (set_mode true (pose_exp_net s)) s.

Lemma train_print_freq_zero args b rest optimizer epoch_size s :
  print_freq args = 0 ->
  (train_emits args (n_iter s) = true -> (2 <= n_refs b)%nat) ->
  train args (b :: rest) optimizer epoch_size s
  = (Raise ZeroDivisionError,
     train_step_post forward backward adam args optimizer b (train_entry s)).
Proof.
  intros Hp Hrefs. unfold train. rewrite bind_modify. fold (train_entry s).
  rewrite bind_run. simpl train_loop. rewrite bind_run.
  rewrite train_step_refs by exact Hrefs. rewrite Hp. reflexivity.
Qed.

Lemma train_step_index_error args optimizer i b losses s :
  train_emits args (n_iter s) = true -> (n_refs b < 2)%nat ->
  exists s2, train_step args optimizer i b losses s = (Raise IndexError, s2) /\
             quiet s s2.
Proof.
  intros Hemit Hrefs. rewrite train_step_run. cbv zeta. rewrite Hemit.
  set (o := forward _ _ _ _). set (s1 := log_events _ s).
  assert (quiet s s1) as Hs1.
  { unfold quiet. subst s1. simpl. repeat split.
    rewrite count_steps_app.
    change (count_steps (train_scalar_events _ _ _)) with 0%nat. lia. }
  pose proof (train_images_raises b o (n_iter s) s1 Hrefs) as Hraise.
  pose proof (train_images_quiet b o (n_iter s) s1) as Hquiet.
  destruct (train_images b o (n_iter s) s1) as [[u|e] s2]; simpl in *;
    [congruence |].
  injection Hraise as ->. exists s2. split; [reflexivity |].
  etransitivity; eassumption.
Qed.

Lemma train_index_error args b rest optimizer epoch_size s :
  train_emits args (n_iter s) = true -> (n_refs b < 2)%nat ->
  exists s2, train args (b :: rest) optimizer epoch_size s = (Raise IndexError, s2) /\
             quiet s s2.
Proof.
  intros Hemit Hrefs. unfold train. rewrite bind_modify. fold (train_entry s).
  rewrite bind_run. simpl train_loop. rewrite bind_run.
  destruct (train_step_index_error args optimizer 0 b meter_new (train_entry s)
              Hemit Hrefs) as (s2 & -> & Hq).
  exists s2. split; [reflexivity |].
  etransitivity; [| exact Hq]. unfold quiet, train_entry. simpl. tauto.
Qed.

(** X3. With [--print-freq 0] a run of at least one epoch over a
    non-empty training pass dies at line 291 of its first iteration, with
    [ZeroDivisionError]: one optimizer step has been taken and one row
    logged, the step counter is still 0, and no validation, checkpoint or
    summary row follows.  (The first batch must not fail earlier: with
    [log_output] it needs two reference images.) *)
Theorem X3_print_freq_zero args θ0 disp_params pose_params train_loader
    val_loader b rest :
  known_format args = true -> print_freq args = 0 -> 1 <= epochs args ->
  train_loader 0 = b :: rest ->
  (log_output args = true -> (2 <= n_refs b)%nat) ->
  let r := main args θ0 disp_params pose_params train_loader val_loader
                initial_state in
  r.1 = Raise ZeroDivisionError /\
  count_steps (events r.2) = 1%nat /\ length (log_full r.2) = 1%nat /\
  n_iter r.2 = 0 /\ log_summary r.2 = [] /\
  collect checkpoint_epoch (events r.2) = [].
Proof.
  intros Hfmt Hp Hepochs Hloader Hrefs r. subst r.
  erewrite main_first_train_raises; [| exact Hfmt | exact Hepochs |].
  2:{ rewrite Hloader. apply train_print_freq_zero; [exact Hp |].
      unfold train_emits. simpl. exact Hrefs. }
  split; [reflexivity |]. cbn [snd].
  rewrite train_step_post_steps.
  split; [| split; [| split; [| split]]].
  - unfold train_entry, setup_post, writer_events. simpl.
    by destruct (log_output args).
  - reflexivity.
  - reflexivity.
  - reflexivity.
  - rewrite train_step_post_events, !collect_app.
    assert (forall o n, collect checkpoint_epoch
                          (train_step_images args b o n) = []) as Himg.
    { intros o n. unfold train_step_images. destruct (train_emits args n);
        [| reflexivity].
      unfold train_image_events. rewrite collect_app.
      rewrite collect_concat_map; [reflexivity |].
      intros k. rewrite collect_app.
      rewrite collect_concat_map; [reflexivity | by intros j]. }
    rewrite Himg. unfold train_entry, setup_post, writer_events. simpl.
    by destruct (log_output args).
Qed.

(** X4. With [--log-output] and a first training batch that has fewer
    than two reference images (a sequence length below 3), a run of at
    least one epoch dies in its first iteration with [IndexError], at
    line 251 or 253: no optimizer step has been taken, nothing has been
    logged to either file, and the parameters are as initialised. *)
Theorem X4_log_output_needs_two_references args θ0 disp_params pose_params
    train_loader val_loader b rest :
  known_format args = true -> log_output args = true -> 1 <= epochs args ->
  train_loader 0 = b :: rest -> (n_refs b < 2)%nat ->
  let r := main args θ0 disp_params pose_params train_loader val_loader
                initial_state in
  r.1 = Raise IndexError /\
  count_steps (events r.2) = 0%nat /\ log_full r.2 = [] /\
  log_summary r.2 = [] /\ n_iter r.2 = 0 /\ store r.2 = θ0.
Proof.
  intros Hfmt Hlog Hepochs Hloader Hrefs r. subst r.
  destruct (train_index_error args b rest
              (main_cfg args disp_params pose_params train_loader).1.1
              (main_cfg args disp_params pose_params train_loader).1.2
              (setup_post args θ0 disp_params pose_params initial_state))
    as (s2 & Htrain & Hq); [| exact Hrefs |].
  { unfold train_emits. simpl. exact Hlog. }
  rewrite <- Hloader in Htrain.
  erewrite main_first_train_raises; [| exact Hfmt | exact Hepochs | exact Htrain].
  destruct Hq as (Hn & _ & Hstore & _ & _ & Hfull & Hsum & Hsteps).
  split; [reflexivity |]. cbn [snd].
  rewrite Hsteps, Hfull, Hsum, Hn, Hstore.
  repeat split. unfold setup_post, writer_events. simpl.
  by destruct (log_output args).
Qed.

(** *** [validate] on its own *)

Lemma validate_allocation_fails args val_loader epoch output_writers s :
  (Z.of_nat (length val_loader) - 1) * batch_size args
    * (sequence_length args - 1) < 0 ->
  validate args val_loader epoch output_writers s = (Raise ValueError, s).
Proof.
  intros Hn. unfold validate, validate_body.
  rewrite !bind_run. unfold np_zeros.
  by rewrite (proj2 (Z.ltb_lt _ _) Hn).
Qed.

(** X5. [validate] allocates the pose buffer before anything else, with
    or without output writers: when [(len(val_loader) - 1) * batch_size *
    (sequence_length - 1)] is negative (an empty validation set with the
    usual positive sizes) it raises [ValueError] and the state is
    untouched. *)
Theorem X5_validate_negative_buffer args val_loader epoch output_writers s :
  (Z.of_nat (length val_loader) - 1) * batch_size args
    * (sequence_length args - 1) < 0 ->
  validate args val_loader epoch output_writers s = (Raise ValueError, s).
Proof. apply validate_allocation_fails. Qed.

(** X6. Whatever its outcome, [validate] leaves the step counter, the
    best photometric loss and both log files as they were. *)
Theorem X6_validate_keeps_globals_and_logs args val_loader epoch output_writers s :
  let s' := (validate args val_loader epoch output_writers s).2 in
  n_iter s' = n_iter s /\ best_photo_loss s' = best_photo_loss s /\
  log_full s' = log_full s /\ log_summary s' = log_summary s.
Proof.
  intros s'.
  destruct (validate_quiet forward args val_loader epoch output_writers s)
    as (Hn & Hb & _ & _ & _ & Hfull & Hsum & _).
  auto.
Qed.

(** *** The step counter over a run *)

(** X1. In a run that reaches the end of [main], every epoch executes
    [min(len, max(epoch_size, 1))] optimizer steps, where [len] is the
    length of its training pass and [epoch_size] is [args.epoch_size] or,
    when that is 0, [len(train_loader)], and adds
    [min(len, max(epoch_size - 1, 0))] to the step counter; the totals are
    the sums over the epochs. *)
Theorem X1_steps_and_counter_of_a_run args θ0 disp_params pose_params
    train_loader val_loader s' :
  main args θ0 disp_params pose_params train_loader val_loader initial_state
  = (Ok tt, s') ->
  let epoch_size :=
    if epoch_size args =? 0 then Z.of_nat (length (train_loader 0))
    else epoch_size args in
  Z.of_nat (count_steps (events s'))
  = sumZ (map (fun e => Z.min (Z.of_nat (length (train_loader e)))
                              (Z.max epoch_size 1))
              (range (epochs args))) /\
  n_iter s'
  = sumZ (map (fun e => Z.min (Z.of_nat (length (train_loader e)))
                              (Z.max (epoch_size - 1) 0))
              (range (epochs args))).
Proof.
  intros H es.
  destruct (main_counts forward backward adam _ _ _ _ _ _ _ H) as (Hn & Hs).
  split; [exact Hs | exact Hn].
Qed.

Lemma sumZ_const {A} (c : Z) (l : list A) :
  sumZ (map (fun _ => c) l) = Z.of_nat (length l) * c.
Proof. induction l as [|x l IH]; simpl length; simpl sumZ; [lia |]. rewrite IH. lia. Qed.

Lemma length_range (n : Z) : Z.of_nat (length (range n)) = Z.max 0 n.
Proof. unfold range. rewrite length_map, length_seq. lia. Qed.

(** X2. With the default [--epoch-size 0] and [len] batches in every
    training pass, [len >= 1], a finished run of [E] epochs has executed
    all [E * len] steps, and its step counter is [E * (len - 1)]: the
    last step of each epoch is the one at which line 297 leaves the
    loop. *)
Theorem X2_default_epoch_size args θ0 disp_params pose_params train_loader
    val_loader (len : nat) s' :
  epoch_size args = 0 -> (1 <= len)%nat ->
  (forall e, length (train_loader e) = len) ->
  main args θ0 disp_params pose_params train_loader val_loader initial_state
  = (Ok tt, s') ->
  Z.of_nat (count_steps (events s')) = Z.max 0 (epochs args) * Z.of_nat len /\
  n_iter s' = Z.max 0 (epochs args) * (Z.of_nat len - 1).
Proof.
  intros Hes Hlen Hall H.
  destruct (main_counts forward backward adam _ _ _ _ _ _ _ H) as (Hn & Hs).
  rewrite Hes in Hn, Hs. simpl in Hn, Hs. rewrite Hall in Hn, Hs.
  unfold epoch_increments, epoch_steps in *.
  erewrite map_ext in Hn by (intros e; rewrite Hall; reflexivity).
  erewrite map_ext in Hs by (intros e; rewrite Hall; reflexivity).
  rewrite sumZ_const, length_range in Hn, Hs. split; lia.
Qed.

(** From [s] to [s'] the counter did not decrease and grew by no more
    than the number of optimizer steps taken. *)
Definition counter_rel (s s' : state) : Prop :=
  n_iter s <= n_iter s' /\
  n_iter s' - n_iter s
  <= Z.of_nat (count_steps (events s')) - Z.of_nat (count_steps (events s)).

#[local] Instance counter_rel_preorder : PreOrder counter_rel.
Proof.
  split.
  - intros s. unfold counter_rel. lia.
  - intros s1 s2 s3. unfold counter_rel. lia.
Qed.

Lemma quiet_counter_rel s s' : quiet s s' -> counter_rel s s'.
Proof.
  intros (Hn & _ & _ & _ & _ & _ & _ & Hsteps). unfold counter_rel. lia.
Qed.

Lemma train_loop_counter_rel args optimizer epoch_size batches :
  forall i losses,
    preserves counter_rel (train_loop args optimizer epoch_size i batches losses).
Proof.
  induction batches as [|b rest IH]; intros i losses s; simpl.
  - reflexivity.
  - rewrite bind_run.
    pose proof (train_step_frame forward backward adam args optimizer i b losses s)
      as (Hn & _).
    pose proof (train_step_log_rel forward backward adam args optimizer i b losses s)
      as (rows & _ & Hsteps & _).
    destruct (train_step args optimizer i b losses s) as [[l1|e] s1] eqn:Hstep;
      simpl in Hn, Hsteps.
    + apply train_step_ok in Hstep as (_ & _ & Hpost).
      pose proof (train_step_post_steps forward backward adam args optimizer b s)
        as Hone. rewrite <- Hpost in Hone.
      destruct (epoch_size - 1 <=? i).
      * simpl. unfold counter_rel. lia.
      * rewrite bind_modify.
        specialize (IH (i + 1) l1 (set_n_iter (n_iter s1 + 1) s1)).
        unfold counter_rel in *. simpl in IH. lia.
    + simpl. unfold counter_rel. lia.
Qed.

Lemma main_loop_counter_rel args train_loader val_loader cfg epochs :
  preserves counter_rel (main_loop args train_loader val_loader cfg epochs).
Proof.
  destruct cfg as [[optimizer epoch_size] output_writers]. unfold main_loop.
  apply preserves_forM; [exact _ | intros epoch]. unfold main_epoch.
  apply preserves_bind; [exact _ | | intros train_loss].
  { unfold train.
    apply preserves_bind; [exact _ | | intros _].
    - apply preserves_modify. intros s. unfold counter_rel. simpl. lia.
    - apply preserves_bind; [exact _ | apply train_loop_counter_rel | intros l].
      apply preserves_meter_avg. exact _. }
  apply preserves_bind; [exact _ | | intros valid].
  - eapply preserves_weaken; [apply quiet_counter_rel | apply validate_quiet].
  - intros s. rewrite checkpoint_and_log_run. unfold counter_rel, checkpoint_post.
    cbn [snd n_iter events set_log_summary log_events set_events
         set_best_photo_loss].
    rewrite count_steps_app. change (count_steps [_; _; _; _]) with 0%nat. lia.
Qed.

(** X16. At the end of any run of [main], finished or ended by an error,
    the step counter lies between 0 and the number of optimizer steps
    executed. *)
Theorem X16_counter_bounded_by_steps args θ0 disp_params pose_params
    train_loader val_loader :
  let s' := (main args θ0 disp_params pose_params train_loader val_loader
                  initial_state).2 in
  0 <= n_iter s' <= Z.of_nat (count_steps (events s')).
Proof.
  intros s'. subst s'. rewrite main_run. destruct (known_format args).
  - destruct (main_loop_counter_rel args train_loader val_loader
                (main_cfg args disp_params pose_params train_loader)
                (range (epochs args))
                (setup_post args θ0 disp_params pose_params initial_state))
      as (Hn & Hsteps).
    assert (count_steps (events (setup_post args θ0 disp_params pose_params
                                   initial_state)) = 0%nat) as Hzero.
    { unfold setup_post, writer_events. simpl. by destruct (log_output args). }
    rewrite Hzero in Hsteps.
    change (n_iter (setup_post args θ0 disp_params pose_params initial_state))
      with 0 in Hn, Hsteps.
    cbn [snd]. lia.
  - cbn [snd]. change (n_iter (log_events _ initial_state)) with 0.
    unfold writer_events. simpl. destruct (log_output args); simpl; lia.
Qed.

(** *** Checkpoints and the summary log *)

Lemma train_log_summary args train_loader optimizer epoch_size :
  preserves (same log_summary) (train args train_loader optimizer epoch_size).
Proof.
  apply train_preserves; [exact _ | | done | done].
  intros i b losses. eapply preserves_weaken; [| apply train_step_frame].
  intros s s' H. apply H.
Qed.

Lemma main_epoch_ok_checkpoint args train_loader val_loader optimizer epoch_size
    output_writers epoch s s' :
  main_epoch args train_loader val_loader optimizer epoch_size output_writers
             epoch s = (Ok tt, s') ->
  collect checkpoint_epoch (events s')
  = collect checkpoint_epoch (events s) ++ [epoch + 1] /\
  length (log_summary s') = S (length (log_summary s)).
Proof.
  intros (tl & s1 & valid & s2 & Htrain & Hval & ->)%main_epoch_ok.
  pose proof (preserves_run _ _ _ _ _
    (train_keeps checkpoint_epoch args (train_loader epoch) optimizer epoch_size
       ltac:(done) ltac:(done) ltac:(done)) Htrain) as Hk1.
  pose proof (preserves_run _ _ _ _ _
    (validate_keeps checkpoint_epoch args val_loader epoch output_writers
       ltac:(done) ltac:(done)) Hval) as Hk2.
  pose proof (preserves_run _ _ _ _ _ (train_log_summary _ _ _ _) Htrain) as Hl1.
  pose proof (preserves_run _ _ _ _ _ (validate_quiet forward _ _ _ _) Hval)
    as (_ & _ & _ & _ & _ & _ & Hl2 & _).
  unfold keeps, same in *. unfold checkpoint_post.
  cbn [events log_summary set_log_summary log_events set_events
       set_best_photo_loss].
  rewrite collect_app, Hk2, Hk1, length_app, Hl2, Hl1. simpl. split; [done | lia].
Qed.

Lemma main_epoch_raise_checkpoint args train_loader val_loader optimizer
    epoch_size output_writers epoch s err s' :
  main_epoch args train_loader val_loader optimizer epoch_size output_writers
             epoch s = (Raise err, s') ->
  collect checkpoint_epoch (events s') = collect checkpoint_epoch (events s) /\
  log_summary s' = log_summary s.
Proof.
  unfold main_epoch. rewrite bind_run.
  pose proof (train_keeps checkpoint_epoch args (train_loader epoch) optimizer
                epoch_size ltac:(done) ltac:(done) ltac:(done) s) as Hk1.
  pose proof (train_log_summary args (train_loader epoch) optimizer epoch_size s)
    as Hl1.
  destruct (train _ _ _ _ _) as [[tl|e] s1]; simpl in Hk1, Hl1;
    [| by intros [= _ <-]].
  rewrite bind_run.
  pose proof (validate_keeps checkpoint_epoch args val_loader epoch output_writers
                ltac:(done) ltac:(done) s1) as Hk2.
  pose proof (validate_quiet forward args val_loader epoch output_writers s1)
    as (_ & _ & _ & _ & _ & _ & Hl2 & _).
  destruct (validate _ _ _ _ _) as [[valid|e] s2]; simpl in Hk2, Hl2.
  - rewrite checkpoint_and_log_run. intros [=].
  - intros [= _ <-]. unfold keeps, same in *. split; congruence.
Qed.

Lemma main_loop_checkpoints args train_loader val_loader cfg todo :
  forall s,
    let r := main_loop args train_loader val_loader cfg todo s in
    exists k : nat,
      (k <= length todo)%nat /\
      collect checkpoint_epoch (events r.2)
      = collect checkpoint_epoch (events s) ++ map (fun e => e + 1) (take k todo) /\
      length (log_summary r.2) = (length (log_summary s) + k)%nat /\
      (r.1 = Ok tt <-> k = length todo).
Proof.
  destruct cfg as [[optimizer epoch_size] output_writers]. unfold main_loop.
  induction todo as [|e todo IH]; intros s; simpl.
  - exists 0%nat. simpl. rewrite app_nil_r.
    split; [lia |]. split; [done |]. split; [lia |]. done.
  - rewrite bind_run.
    destruct (main_epoch args train_loader val_loader optimizer epoch_size
                         output_writers e s) as [[[]|err] s1] eqn:Hepoch.
    + apply main_epoch_ok_checkpoint in Hepoch as (Hc1 & Hl1).
      destruct (IH s1) as (k & Hk & Hc & Hl & Hok).
      exists (S k). simpl. rewrite Hc, Hc1, Hl, Hl1, <- app_assoc. simpl.
      split; [lia |]. split; [done |]. split; [lia |].
      rewrite Hok. lia.
    + apply main_epoch_raise_checkpoint in Hepoch as (Hc1 & Hl1).
      exists 0%nat. simpl. rewrite Hc1, Hl1, app_nil_r.
      split; [lia |]. split; [done |]. split; [lia |].
      split; [discriminate | lia].
Qed.

(** X9. Checkpoints are saved once per completed epoch, in order and
    without gaps: at the end of any run of [main] the checkpoints saved
    are tagged [1, 2, ..., k] for some [k] no larger than the number of
    epochs, the summary log has exactly [k] rows, and [k] is the number of
    epochs exactly when the run reached the end of [main].  With
    [epochs <= 0] nothing is saved or appended. *)
Theorem X9_one_checkpoint_and_summary_row_per_epoch args θ0 disp_params
    pose_params train_loader val_loader :
  let r := main args θ0 disp_params pose_params train_loader val_loader
                initial_state in
  exists k : nat,
    Z.of_nat k <= Z.max 0 (epochs args) /\
    collect checkpoint_epoch (events r.2) = map (fun i => Z.of_nat i + 1) (seq 0 k) /\
    length (log_summary r.2) = k /\
    (r.1 = Ok tt <-> Z.of_nat k = Z.max 0 (epochs args) /\ known_format args = true).
Proof.
  intros r. subst r. rewrite main_run. destruct (known_format args).
  - destruct (main_loop_checkpoints args train_loader val_loader
                (main_cfg args disp_params pose_params train_loader)
                (range (epochs args))
                (setup_post args θ0 disp_params pose_params initial_state))
      as (k & Hk & Hc & Hl & Hok).
    exists k. rewrite Hc, Hl, Hok. rewrite <- length_range.
    split; [lia |]. split; [| split; [reflexivity |]].
    + assert (collect checkpoint_epoch
                (events (setup_post args θ0 disp_params pose_params initial_state))
              = []) as ->.
      { unfold setup_post, writer_events. simpl. by destruct (log_output args). }
      simpl.
      assert (k <= Z.to_nat (epochs args))%nat
        by (pose proof (length_range (epochs args)); lia).
      unfold range. rewrite <- fmap_take, take_seq.
      replace (k `min` Z.to_nat (epochs args))%nat with k by lia.
      rewrite <- list_fmap_compose. reflexivity.
    + split; [intros ->; split; [lia | done] | intros [? _]; lia].
  - exists 0%nat. simpl. split; [lia |]. split.
    + unfold writer_events. by destruct (log_output args).
    + split; [reflexivity |]. split; [discriminate | intros [_ ?]; discriminate].
Qed.

(** *** The optimizer over a run *)

(** From [s] to [s'] all that [f] picks from the new events is copies
    of [x]. *)
Definition grows_by {B} (f : event -> list B) (x : B) (s s' : state) : Prop :=
  exists k, collect f (events s') = collect f (events s) ++ replicate k x.

#[local] Instance grows_by_preorder {B} (f : event -> list B) (x : B) :
  PreOrder (grows_by f x).
Proof.
  split.
  - intros s. exists 0%nat. by rewrite app_nil_r.
  - intros s1 s2 s3 (k1 & H1) (k2 & H2). exists (k1 + k2)%nat.
    by rewrite H2, H1, <- app_assoc, replicate_add.
Qed.

Lemma keeps_grows_by {B} (f : event -> list B) (x : B) s s' :
  keeps f s s' -> grows_by f x s s'.
Proof. intros H. exists 0%nat. unfold keeps, same in H. by rewrite H, app_nil_r. Qed.

Lemma emit_grows_by {B} (f : event -> list B) (x : B) e :
  f e = [] \/ f e = [x] -> preserves (grows_by f x) (emit e).
Proof.
  intros [He | He] s; [exists 0%nat | exists 1%nat]; simpl;
    rewrite collect_app; simpl; by rewrite He.
Qed.

Lemma modify_grows_by {B} (f : event -> list B) (x : B) (g : state -> state) :
  (forall s, events (g s) = events s) -> preserves (grows_by f x) (modify g).
Proof. intros Hg s. exists 0%nat. simpl. by rewrite Hg, app_nil_r. Qed.

Lemma main_loop_step_updates args train_loader val_loader cfg epochs :
  preserves (grows_by step_updates (elements cfg.1.1))
    (main_loop args train_loader val_loader cfg epochs).
Proof.
  destruct cfg as [[optimizer epoch_size] output_writers]. cbn [fst].
  unfold main_loop.
  apply preserves_forM; [exact _ | intros epoch]. unfold main_epoch.
  apply preserves_bind; [exact _ | | intros train_loss].
  { apply train_preserves; [exact _ | | |].
    - intros i b losses. unfold train_step, train_images, optimizer_step.
      frame_with ltac:(first
        [ apply emit_grows_by; first [by left | by right]
        | apply modify_grows_by; intros ?; reflexivity ]).
    - intros s. by exists 0%nat; rewrite app_nil_r.
    - intros s. by exists 0%nat; rewrite app_nil_r. }
  apply preserves_bind; [exact _ | | intros valid].
  - eapply preserves_weaken; [apply keeps_grows_by |].
    by apply validate_keeps.
  - intros s. rewrite checkpoint_and_log_run. exists 0%nat.
    unfold checkpoint_post.
    cbn [snd events set_log_summary log_events set_events set_best_photo_loss].
    rewrite collect_app. reflexivity.
Qed.

(** X10. In any run of [main], finished or not, every optimizer step
    visits the same list of parameters; the list has no duplicates and
    its members are exactly the parameters of [disp_net] and of
    [pose_exp_net], a parameter shared by both appearing once. *)
Theorem X10_every_step_updates_the_union args θ0 disp_params pose_params
    train_loader val_loader :
  let s' := (main args θ0 disp_params pose_params train_loader val_loader
                  initial_state).2 in
  exists updated,
    NoDup updated /\
    (forall p, p ∈ updated <-> p ∈ disp_params \/ p ∈ pose_params) /\
    forall l, OptimizerStep l ∈ events s' -> l = updated.
Proof.
  intros s'.
  set (optimizer := combined_parameters [Net disp_params true; Net pose_params true]).
  exists (elements optimizer). split; [apply NoDup_elements |]. split.
  - intros p. rewrite elem_of_elements. unfold optimizer.
    rewrite elem_of_combined_parameters. split.
    + intros (n & Hn & Hp).
      apply elem_of_cons in Hn as [-> | Hn]; [by left |].
      apply elem_of_cons in Hn as [-> | Hn]; [by right |].
      by apply elem_of_nil in Hn.
    + intros [Hp | Hp];
        [exists (Net disp_params true) | exists (Net pose_params true)];
        (split; [| done]); [left | right; left].
  - intros l Hl.
    assert (l ∈ collect step_updates (events s')) as Hin.
    { apply elem_of_collect. exists (OptimizerStep l). split; [done | by left]. }
    assert (exists k, collect step_updates (events s')
                      = replicate k (elements optimizer)) as (k & Hk).
    { subst s'. rewrite main_run. destruct (known_format args).
      - destruct (main_loop_step_updates args train_loader val_loader
                    (main_cfg args disp_params pose_params train_loader)
                    (range (epochs args))
                    (setup_post args θ0 disp_params pose_params initial_state))
          as (k & Hk).
        exists k. rewrite Hk.
        change (elements (main_cfg args disp_params pose_params train_loader).1.1)
          with (elements optimizer).
        unfold setup_post, writer_events. simpl. by destruct (log_output args).
      - exists 0%nat. simpl. unfold writer_events. by destruct (log_output args). }
    rewrite Hk in Hin. by apply elem_of_replicate in Hin as (-> & _).
Qed.

Lemma optimizer_step_outside (optimizer : gset positive) grad (p : positive) :
  p ∉ optimizer ->
  preserves (same (fun s => store s !! p)) (optimizer_step adam optimizer grad).
Proof.
  intros Hp s. unfold same. rewrite optimizer_step_store. by rewrite decide_False.
Qed.

Lemma main_loop_outside args train_loader val_loader cfg epochs (p : positive) :
  p ∉ cfg.1.1 ->
  preserves (same (fun s => store s !! p))
    (main_loop args train_loader val_loader cfg epochs).
Proof.
  destruct cfg as [[optimizer epoch_size] output_writers]. cbn [fst].
  intros Hp. unfold main_loop.
  apply preserves_forM; [exact _ | intros epoch]. unfold main_epoch.
  apply preserves_bind; [exact _ | | intros train_loss].
  { apply train_preserves; [exact _ | | done | done].
    intros i b losses. unfold train_step, train_images.
    frame_with ltac:(first
      [ by apply optimizer_step_outside
      | apply preserves_modify; intros ?; reflexivity ]). }
  apply preserves_bind; [exact _ | | intros valid].
  - eapply preserves_weaken; [| apply validate_quiet].
    intros s s' (_ & _ & Hstore & _). unfold same. by rewrite Hstore.
  - intros s. by rewrite checkpoint_and_log_run.
Qed.

(** X11. A run of [main] never changes a tensor that is a parameter of
    neither network: whatever the outcome, every cell of the store
    outside [disp_net] and [pose_exp_net] holds what it was initialised
    with. *)
Theorem X11_foreign_tensors_untouched args θ0 disp_params pose_params
    train_loader val_loader (p : positive) :
  known_format args = true -> p ∉ disp_params -> p ∉ pose_params ->
  store (main args θ0 disp_params pose_params train_loader val_loader
              initial_state).2 !! p = θ0 !! p.
Proof.
  intros Hfmt Hd Hp. rewrite main_run, Hfmt.
  rewrite (main_loop_outside args train_loader val_loader _ _ p).
  - reflexivity.
  - unfold main_cfg. cbn [fst]. rewrite elem_of_combined_parameters. intros (n & Hn & Hin).
    apply elem_of_cons in Hn as [-> | Hn]; [done |].
    apply elem_of_cons in Hn as [-> | Hn]; [done |].
    by apply elem_of_nil in Hn.
Qed.

(** *** The full log against the training scalars *)

Lemma scalar_values_other_writer (w w' : writer) tag tag' v n :
  w' <> w -> scalar_values w tag (AddScalar w' tag' v n) = [].
Proof. intros Hw. unfold scalar_values. rewrite decide_False; [done | tauto]. Qed.

Lemma train_step_images_no_scalar w tag args b o n :
  collect (scalar_values w tag) (train_step_images args b o n) = [].
Proof.
  unfold train_step_images. destruct (train_emits args n); [| reflexivity].
  unfold train_image_events. rewrite collect_app.
  rewrite collect_concat_map; [reflexivity |].
  intros k. rewrite collect_app.
  rewrite collect_concat_map; [reflexivity | by intros j].
Qed.

Section Column.

(** One column of the full log and the scalar written from the same
    value. *)
Variable tag : string.
Variable proj : Q * Q * Q * Q -> Q.
Hypothesis scalar_of_row : forall args o n,
  collect (scalar_values TrainWriter tag) (train_scalar_events args o n)
  = [proj (train_row args o)].

Definition col_rel (s s' : state) : Prop :=
  exists new,
    map proj (log_full s') = map proj (log_full s) ++ new /\
    collect (scalar_values TrainWriter tag) (events s')
    = collect (scalar_values TrainWriter tag) (events s) ++ new.

Lemma col_rel_refl s : col_rel s s.
Proof. exists []. by rewrite !app_nil_r. Qed.

Lemma col_rel_trans s1 s2 s3 : col_rel s1 s2 -> col_rel s2 s3 -> col_rel s1 s3.
Proof.
  intros (n1 & L1 & E1) (n2 & L2 & E2). exists (n1 ++ n2).
  by rewrite L2, L1, E2, E1, !app_assoc.
Qed.

Lemma train_step_ok_col args optimizer i b losses s r s' :
  train_step args optimizer i b losses s = (Ok r, s') -> col_rel s s'.
Proof.
  intros (_ & _ & ->)%train_step_ok.
  exists [proj (train_row args
            (forward (net_training (disp_net s)) (net_training (pose_exp_net s))
                     (store s) b))].
  split.
  - unfold train_step_post. cbn [log_full set_log_full]. rewrite map_app.
    reflexivity.
  - rewrite train_step_post_events, !collect_app, scalar_of_row,
      train_step_images_no_scalar. simpl. by rewrite ?app_nil_r.
Qed.

Lemma train_loop_ok_col args optimizer epoch_size batches :
  forall i losses s r s',
    train_loop args optimizer epoch_size i batches losses s = (Ok r, s') ->
    col_rel s s'.
Proof.
  induction batches as [|b rest IH]; intros i losses s r s' H; simpl in H.
  - injection H as _ <-. apply col_rel_refl.
  - rewrite bind_run in H.
    destruct (train_step args optimizer i b losses s) as [[l1|e] s1] eqn:Hstep;
      [| congruence].
    apply train_step_ok_col in Hstep.
    destruct (epoch_size - 1 <=? i).
    + by injection H as _ <-.
    + rewrite bind_modify in H. apply IH in H.
      eapply col_rel_trans; [exact Hstep |]. exact H.
Qed.

Lemma main_epoch_ok_col args train_loader val_loader optimizer epoch_size
    output_writers epoch s s' :
  main_epoch args train_loader val_loader optimizer epoch_size output_writers
             epoch s = (Ok tt, s') ->
  col_rel s s'.
Proof.
  intros (tl & s1 & valid & s2 & Htrain & Hval & ->)%main_epoch_ok.
  assert (col_rel s s1) as H1.
  { unfold train in Htrain. rewrite bind_modify, bind_run in Htrain.
    destruct (train_loop _ _ _ _ _ _ _) as [[l|e] s0] eqn:Hloop; [| congruence].
    apply train_loop_ok_col in Hloop.
    pose proof (preserves_run (same (fun s => s)) _ _ _ _
                  (preserves_meter_avg _ l) Htrain) as Heq.
    unfold same in Heq. by rewrite Heq. }
  assert (col_rel s1 s2) as H2.
  { pose proof (preserves_run _ _ _ _ _
      (validate_keeps (scalar_values TrainWriter tag) args val_loader epoch
         output_writers ltac:(done) ltac:(done)) Hval) as Hk.
    pose proof (preserves_run _ _ _ _ _ (validate_quiet forward _ _ _ _) Hval)
      as (_ & _ & _ & _ & _ & Hfull & _).
    exists []. unfold keeps, same in Hk. by rewrite Hk, Hfull, !app_nil_r. }
  eapply col_rel_trans; [exact H1 |]. eapply col_rel_trans; [exact H2 |].
  exists []. unfold checkpoint_post.
  cbn [events log_full set_log_summary log_events set_events set_best_photo_loss].
  rewrite collect_app. unfold collect at 2. cbn [flat_map].
  rewrite !scalar_values_other_writer by done. simpl. by rewrite ?app_nil_r.
Qed.

Lemma main_ok_col args θ0 disp_params pose_params train_loader val_loader s' :
  main args θ0 disp_params pose_params train_loader val_loader initial_state
  = (Ok tt, s') ->
  map proj (log_full s') = collect (scalar_values TrainWriter tag) (events s').
Proof.
  intros (_ & Hloop)%main_ok.
  assert (forall todo s,
    main_loop args train_loader val_loader
      (main_cfg args disp_params pose_params train_loader) todo s = (Ok tt, s') ->
    col_rel s s') as Hrel.
  { unfold main_loop, main_cfg.
    intros todo. induction todo as [|e todo IH]; intros s H; simpl in H.
    - injection H as <-. apply col_rel_refl.
    - rewrite bind_run in H.
      destruct (main_epoch _ _ _ _ _ _ _ _) as [[[]|err] s1] eqn:Hepoch;
        [| congruence].
      apply main_epoch_ok_col in Hepoch.
      eapply col_rel_trans; [exact Hepoch | by apply IH]. }
  apply Hrel in Hloop as (new & Hlog & Hev). rewrite Hlog, Hev.
  unfold setup_post, writer_events. simpl. by destruct (log_output args).
Qed.

End Column.

(** X12. In a run that reaches the end of [main], the full log and the
    training writer agree: column by column, the rows of the full log
    are the values of the scalars ['total_loss'], ['photometric_error'],
    ['explanability_loss'] and ['disparity_smoothness_loss'] written to
    the training writer, in the same order. *)
Theorem X12_full_log_matches_training_scalars args θ0 disp_params pose_params
    train_loader val_loader s' :
  main args θ0 disp_params pose_params train_loader val_loader initial_state
  = (Ok tt, s') ->
  map (fun row => row.1.1.1) (log_full s')
  = collect (scalar_values TrainWriter "total_loss") (events s') /\
  map (fun row => row.1.1.2) (log_full s')
  = collect (scalar_values TrainWriter "photometric_error") (events s') /\
  map (fun row => row.1.2) (log_full s')
  = collect (scalar_values TrainWriter "explanability_loss") (events s') /\
  map (fun row => row.2) (log_full s')
  = collect (scalar_values TrainWriter "disparity_smoothness_loss") (events s').
Proof.
  intros H. repeat split.
  - by apply (main_ok_col "total_loss" (fun row => row.1.1.1)) in H.
  - by apply (main_ok_col "photometric_error" (fun row => row.1.1.2)) in H.
  - by apply (main_ok_col "explanability_loss" (fun row => row.1.2)) in H.
  - by apply (main_ok_col "disparity_smoothness_loss" (fun row => row.2)) in H.
Qed.

(** *** The step index of the training scalars *)

(** The event log only grows. *)
Definition extends (s s' : state) : Prop :=
  exists post, events s' = events s ++ post.

#[local] Instance extends_preorder : PreOrder extends.
Proof.
  split.
  - intros s. exists []. by rewrite app_nil_r.
  - intros s1 s2 s3 (p1 & H1) (p2 & H2). exists (p1 ++ p2).
    by rewrite H2, H1, app_assoc.
Qed.

Lemma emit_extends e : preserves extends (emit e).
Proof. intros s. by exists [e]. Qed.

Lemma modify_extends (g : state -> state) :
  (forall s, events (g s) = events s) -> preserves extends (modify g).
Proof. intros Hg s. exists []. simpl. by rewrite Hg, app_nil_r. Qed.

Lemma train_step_extends args optimizer i b losses :
  preserves extends (train_step args optimizer i b losses).
Proof.
  unfold train_step, train_images, optimizer_step.
  frame_with ltac:(first
    [ apply emit_extends
    | apply modify_extends; intros ?; reflexivity ]).
Qed.

(** An iteration first writes its four scalars, at the step counter it
    starts with. *)
Lemma train_step_starts args optimizer i b losses s :
  let o := forward (net_training (disp_net s)) (net_training (pose_exp_net s))
                   (store s) b in
  exists post,
    events (train_step args optimizer i b losses s).2
    = events s ++ train_scalar_events args o (n_iter s) ++ post.
Proof.
  intros o. rewrite train_step_run. fold o.
  set (s1 := log_events _ s).
  assert (preserves extends (if train_emits args (n_iter s)
                             then train_images b o (n_iter s) else mret tt)) as Himg.
  { apply preserves_if; [| apply preserves_ret; exact _].
    unfold train_images.
    frame_with ltac:(apply emit_extends). }
  destruct (Himg s1) as (post & Hpost).
  destruct ((if train_emits args (n_iter s)
             then train_images b o (n_iter s) else mret tt) s1) as [[u|e] s2];
    simpl in Hpost.
  - exists (post ++ [OptimizerStep (elements optimizer)]).
    destruct (print_freq args =? 0); rewrite optimizer_step_run; simpl;
      rewrite Hpost; subst s1; simpl; by rewrite <- !app_assoc.
  - exists post. simpl. rewrite Hpost. subst s1. simpl. by rewrite <- !app_assoc.
Qed.

Lemma train_starts args b rest optimizer epoch_size s :
  let o := forward true true (store s) b in
  exists post,
    events (train args (b :: rest) optimizer epoch_size s).2
    = events s ++ train_scalar_events args o (n_iter s) ++ post.
Proof.
  intros o. unfold train. rewrite bind_modify. fold (train_entry s).
  rewrite bind_run. simpl train_loop. rewrite bind_run.
  destruct (train_step_starts args optimizer 0 b meter_new (train_entry s))
    as (post1 & H1).
  change (forward _ _ _ _) with o in H1.
  change (n_iter (train_entry s)) with (n_iter s) in H1.
  change (events (train_entry s)) with (events s) in H1.
  destruct (train_step args optimizer 0 b meter_new (train_entry s))
    as [[l1|e] s1]; simpl in H1; [| by exists post1].
  assert (preserves extends
    ((if epoch_size - 1 <=? 0 then mret l1
      else modify (fun s => set_n_iter (n_iter s + 1) s);;
           train_loop args optimizer epoch_size (0 + 1) rest l1)
     ≫= meter_avg)) as Hrest.
  { apply preserves_bind; [exact _ | | intros l; apply preserves_meter_avg; exact _].
    apply preserves_if; [apply preserves_ret; exact _ |].
    apply preserves_bind; [exact _ | | intros _].
    - apply modify_extends. by intros ?.
    - apply train_loop_preserves; [exact _ | apply train_step_extends |].
      intros s0. exists []. simpl. by rewrite app_nil_r. }
  destruct (Hrest s1) as (post2 & H2).
  exists (post1 ++ post2).
  rewrite bind_run in H2.
  destruct (epoch_size - 1 <=? 0).
  - rewrite mret_run in *. rewrite H2, H1. by rewrite <- !app_assoc.
  - rewrite H2, H1. by rewrite <- !app_assoc.
Qed.

(** When the loop ends at the [break], the last iteration wrote its
    scalars at the step counter the loop ends with. *)
Lemma train_loop_ok_last args optimizer epoch_size batches :
  forall i losses s r s',
    train_loop args optimizer epoch_size i batches losses s = (Ok r, s') ->
    batches <> [] -> epoch_size <= i + Z.of_nat (length batches) ->
    exists pre b o,
      b ∈ batches /\
      events s'
      = pre ++ (train_scalar_events args o (n_iter s')
                ++ train_step_images args b o (n_iter s'))
            ++ [OptimizerStep (elements optimizer)].
Proof.
  induction batches as [|b rest IH]; intros i losses s r s' H Hne Hlen; [done |].
  simpl in H. rewrite bind_run in H.
  destruct (train_step args optimizer i b losses s) as [[l1|e] s1] eqn:Hstep;
    [| congruence].
  apply train_step_ok in Hstep as (_ & _ & ->).
  destruct (epoch_size - 1 <=? i) eqn:Hbreak.
  - injection H as _ <-.
    exists (events s), b,
      (forward (net_training (disp_net s)) (net_training (pose_exp_net s))
               (store s) b).
    split; [left |].
    change (n_iter (train_step_post forward backward adam args optimizer b s))
      with (n_iter s).
    apply train_step_post_events.
  - rewrite bind_modify in H. apply Z.leb_gt in Hbreak.
    simpl length in Hlen.
    apply IH in H as (pre & b' & o & Hb' & Hev); [| | lia].
    + exists pre, b', o. split; [by right | exact Hev].
    + intros ->. simpl in Hlen. lia.
Qed.

(** X13. When an epoch ends at the [break] of line 297 (its pass has at
    least [epoch_size] batches), its last iteration has written its
    scalars and images at the value the step counter still has after the
    epoch; and the next call of [train], started with that value, writes
    the scalars of its first iteration at the same step index.  Two
    consecutive training steps therefore share one step index in the
    training writer. *)
Theorem X13_step_index_shared_across_epochs args train_loader b2 rest2 optimizer
    epoch_size s r s1 t :
  train args train_loader optimizer epoch_size s = (Ok r, s1) ->
  train_loader <> [] -> epoch_size <= Z.of_nat (length train_loader) ->
  n_iter t = n_iter s1 ->
  exists pre b1 o1 post,
    b1 ∈ train_loader /\
    events s1
    = pre ++ (train_scalar_events args o1 (n_iter s1)
              ++ train_step_images args b1 o1 (n_iter s1))
          ++ [OptimizerStep (elements optimizer)] /\
    events (train args (b2 :: rest2) optimizer epoch_size t).2
    = events t ++ train_scalar_events args (forward true true (store t) b2)
                                      (n_iter s1) ++ post.
Proof.
  intros Htrain Hne Hlen Ht.
  unfold train in Htrain. rewrite bind_modify, bind_run in Htrain.
  destruct (train_loop _ _ _ _ _ _ _) as [[l|e] s0] eqn:Hloop; [| congruence].
  apply train_loop_ok_last in Hloop as (pre & b1 & o1 & Hb1 & Hev);
    [| done | lia].
  pose proof (preserves_run (same (fun s => s)) _ _ _ _
                (preserves_meter_avg _ l) Htrain) as Heq.
  unfold same in Heq. rewrite <- Heq in Hev.
  destruct (train_starts args b2 rest2 optimizer epoch_size t) as (post & Hpost).
  exists pre, b1, o1, post.
  split; [exact Hb1 |]. split; [exact Hev |]. rewrite <- Ht. exact Hpost.
Qed.

(** *** The channels of a validation epoch *)

Lemma validate_step_events_channel epoch output_writers (i : nat) b (c : nat) :
  (exists img step, AddImage (OutputWriter c) img step
                    ∈ validate_step_events epoch output_writers (Z.of_nat i) b)
  <-> (c < output_writers)%nat /\ i = (100 * c)%nat.
Proof.
  unfold validate_step_events.
  pose proof (validate_emits_spec output_writers i) as Hsel.
  destruct (validate_emits output_writers (Z.of_nat i)).
  - destruct Hsel as [(Hmod & Hdiv) _]; [done |].
    assert (Z.of_nat i = 100 * (Z.of_nat i `div` 100)) as Hi
      by (rewrite (Z.div_mod (Z.of_nat i) 100) at 1; lia).
    assert (0 <= Z.of_nat i `div` 100) by (apply Z.div_pos; lia).
    split.
    + intros (img & step & Hin).
      pose proof (validate_image_events_writer epoch
                    (Z.to_nat (Z.of_nat i `div` 100)) b) as Hall.
      rewrite Forall_forall in Hall.
      destruct (Hall _ Hin) as (img' & step' & Heq).
      injection Heq as -> _ _. lia.
    + intros (Hc & ->).
      exists ValDispnetOutput, epoch.
      apply elem_of_validate_image_events. right; left. do 2 f_equal. lia.
  - split.
    + intros (img & step & Hin). by apply elem_of_nil in Hin.
    + intros (Hc & ->). exfalso.
      assert (false = true) as Hf; [| discriminate Hf].
      apply Hsel. split.
      * rewrite Nat2Z.inj_mul. change (Z.of_nat 100) with 100.
        rewrite Z.mul_comm. apply Z_mod_mult.
      * rewrite Nat2Z.inj_mul. change (Z.of_nat 100) with 100.
        rewrite Z.mul_comm, Z.div_mul by lia. lia.
Qed.

Lemma validate_loop_events_channel epoch output_writers batches (c : nat) :
  forall i : nat,
    (exists img step, AddImage (OutputWriter c) img step
                      ∈ validate_loop_events epoch output_writers (Z.of_nat i) batches)
    <-> (c < output_writers)%nat /\ (i <= 100 * c < i + length batches)%nat.
Proof.
  induction batches as [|b rest IH]; intros i; simpl.
  - split; [intros (img & step & Hin); by apply elem_of_nil in Hin | lia].
  - replace (Z.of_nat i + 1) with (Z.of_nat (S i)) by lia. split.
    + intros (img & step & [Hin | Hin]%elem_of_app).
      * destruct (proj1 (validate_step_events_channel epoch output_writers i b c))
          as (Hc & ->); [eauto | lia].
      * destruct (proj1 (IH (S i))) as (Hc & Hi); [eauto | lia].
    + intros (Hc & Hi). destruct (decide (i = 100 * c)%nat) as [-> | Hne].
      * destruct (proj2 (validate_step_events_channel epoch output_writers
                           (100 * c) b c)) as (img & step & Hin); [done |].
        exists img, step. apply elem_of_app. by left.
      * destruct (proj2 (IH (S i))) as (img & step & Hin); [lia |].
        exists img, step. apply elem_of_app. by right.
Qed.

(** X7. Over a validation epoch that reaches its [return], output writer
    [c] receives images exactly when it exists and the validation set has
    more than [100 * c] batches: writer 0 whenever there is a batch,
    writer 1 from 101 batches on, writer 2 from 201. *)
Theorem X7_channels_used_by_a_validation_epoch args val_loader epoch
    output_writers s l s' :
  validate_body args val_loader epoch output_writers s = (Ok l, s') ->
  exists new,
    events s' = events s ++ new /\
    forall c : nat,
      (exists img step, AddImage (OutputWriter c) img step ∈ new)
      <-> (c < output_writers)%nat /\ (100 * c < length val_loader)%nat.
Proof.
  intros H. apply validate_body_ok in H as (_ & s_loop & Hloop & ->).
  apply validate_loop_ok_state in Hloop as ->.
  exists (validate_loop_events epoch output_writers 0 val_loader
          ++ (if bool_decide (0 < output_writers)%nat
              then histogram_events epoch (v_poses l) else [])).
  split; [simpl; by rewrite app_assoc |].
  intros c.
  pose proof (validate_loop_events_channel epoch output_writers val_loader c 0)
    as Hch. change (Z.of_nat 0) with 0 in Hch.
  split.
  - intros (img & step & [Hin | Hin]%elem_of_app).
    + destruct (proj1 Hch) as (Hc & Hi); [eauto | lia].
    + destruct (bool_decide _); [| by apply elem_of_nil in Hin].
      unfold histogram_events in Hin.
      repeat (apply elem_of_cons in Hin as [Hin | Hin]; [discriminate Hin |]).
      by apply elem_of_nil in Hin.
  - intros (Hc & Hi). destruct (proj2 Hch) as (img & step & Hin); [lia |].
    exists img, step. apply elem_of_app. by left.
Qed.

(** *** Modes *)

Definition nets_of (s : state) : net * net := (disp_net s, pose_exp_net s).

Lemma train_loop_nets args optimizer epoch_size batches i losses :
  preserves (same nets_of) (train_loop args optimizer epoch_size i batches losses).
Proof.
  apply train_loop_preserves; [exact _ | | done].
  intros i' b l. eapply preserves_weaken; [| apply train_step_frame].
  intros s s' (_ & _ & Hd & Hp & _). unfold same, nets_of. by rewrite Hd, Hp.
Qed.

Lemma validate_loop_nets args epoch output_writers B batches i l :
  preserves (same nets_of) (validate_loop args epoch output_writers B i batches l).
Proof.
  apply validate_loop_preserves; [exact _ |].
  intros i' b l'. unfold validate_step, validate_images, emit.
  frame_with ltac:(apply preserves_modify; intros ?; reflexivity).
Qed.

(** X8. Whatever its outcome, [train] leaves both networks in training
    mode.  [validate] leaves both in evaluation mode, whatever its
    outcome, unless the allocation of line 313 failed, in which case it
    has not touched them.  Neither changes the list of parameters of a
    network. *)
Theorem X8_modes_after_train_and_validate args loader optimizer epoch_size epoch
    output_writers s :
  let s_train := (train args loader optimizer epoch_size s).2 in
  let s_valid := (validate args loader epoch output_writers s).2 in
  let allocation_fails :=
    (Z.of_nat (length loader) - 1) * batch_size args * (sequence_length args - 1)
    <? 0 in
  disp_net s_train = set_mode true (disp_net s) /\
  pose_exp_net s_train = set_mode true (pose_exp_net s) /\
  disp_net s_valid
  = (if allocation_fails then disp_net s else set_mode false (disp_net s)) /\
  pose_exp_net s_valid
  = (if allocation_fails then pose_exp_net s else set_mode false (pose_exp_net s)).
Proof.
  intros s_train s_valid allocation_fails.
  assert (nets_of s_train = nets_of (train_entry s)) as Ht.
  { subst s_train. unfold train. rewrite bind_modify. fold (train_entry s).
    apply (preserves_bind (same nets_of));
      [apply train_loop_nets | intros l; apply preserves_meter_avg; exact _]. }
  assert (nets_of s_valid
          = if allocation_fails then nets_of s
            else (set_mode false (disp_net s), set_mode false (pose_exp_net s)))
    as Hv.
  { subst s_valid allocation_fails.
    destruct (_ <? 0) eqn:Hn.
    - rewrite validate_allocation_fails by (by apply Z.ltb_lt). reflexivity.
    - unfold validate, validate_body. rewrite !bind_run. unfold np_zeros.
      rewrite Hn, mret_run, bind_modify.
      set (s_eval := set_nets _ _ s).
      change (set_mode false (disp_net s), set_mode false (pose_exp_net s))
        with (nets_of s_eval).
      rewrite <- !bind_run.
      apply (preserves_bind (same nets_of)).
      + apply preserves_bind; [exact _ | apply validate_loop_nets | intros l].
        apply preserves_bind; [exact _ | | intros _; apply preserves_ret; exact _].
        apply preserves_if; [| apply preserves_ret; exact _].
        unfold validate_histograms, emit.
        frame_with ltac:(apply preserves_modify; intros ?; reflexivity).
      + intros l.
        frame_with ltac:(fail). }
  unfold nets_of in Ht, Hv. injection Ht as -> ->.
  destruct allocation_fails; injection Hv as -> ->; auto.
Qed.

(** *** How many images a step writes *)

Lemma collect_concat_map_eq {A B} (f : event -> list B) (g : A -> list event)
    (l : list A) :
  collect f (concat (map g l)) = concat (map (fun x => collect f (g x)) l).
Proof.
  induction l as [|x l IH]; [reflexivity |].
  simpl. by rewrite collect_app, IH.
Qed.

Lemma length_concat_map_const {A B} (g : A -> list B) (l : list A) (c : nat) :
  (forall x, length (g x) = c) -> length (concat (map g l)) = (length l * c)%nat.
Proof.
  intros Hg. induction l as [|x l IH]; [reflexivity |].
  simpl. rewrite length_app, Hg, IH. lia.
Qed.

Lemma train_image_events_count b o n :
  length (collect (images_of TrainWriter) (train_image_events b o n))
  = (3 + n_scales o * (2 + 3 * n_refs b))%nat.
Proof.
  unfold train_image_events. rewrite collect_app, length_app.
  change (length (collect _ [_; _; _])) with 3%nat. f_equal.
  rewrite collect_concat_map_eq.
  rewrite (length_concat_map_const _ _ (2 + 3 * n_refs b)).
  - by rewrite length_seq.
  - intros k. rewrite collect_app, length_app.
    change (length (collect _ [_; _])) with 2%nat. f_equal.
    rewrite collect_concat_map_eq.
    rewrite (length_concat_map_const _ _ 3); [rewrite length_seq; lia |].
    by intros j.
Qed.

(** X14. On a batch with at least two reference images, a training
    iteration writes no image unless [n_iter mod 200 = 0] and
    [log_output] is set, and then writes exactly
    [3 + scales * (2 + 3 * references)] images to the training writer:
    35 for four scales and two references. *)
Theorem X14_images_per_training_step args optimizer i b losses s :
  (2 <= n_refs b)%nat ->
  let o := forward (net_training (disp_net s)) (net_training (pose_exp_net s))
                   (store s) b in
  let new := drop (length (events s))
                  (events (train_step args optimizer i b losses s).2) in
  length (collect (images_of TrainWriter) new)
  = if (n_iter s `mod` 200 =? 0) && log_output args
    then (3 + n_scales o * (2 + 3 * n_refs b))%nat else 0%nat.
Proof.
  intros Hrefs o new. subst new.
  rewrite train_step_events by done. rewrite drop_app_length.
  rewrite !collect_app, !length_app. fold o.
  change (length (collect _ (train_scalar_events _ _ _))) with 0%nat.
  change (length (collect _ [OptimizerStep _])) with 0%nat.
  destruct ((n_iter s `mod` 200 =? 0) && log_output args).
  - rewrite train_image_events_count. lia.
  - reflexivity.
Qed.

Lemma validate_image_events_count epoch index b :
  length (collect (images_of (OutputWriter index))
                  (validate_image_events epoch index b))
  = ((if (epoch =? 0)%Z then 2 * n_refs b else 0) + 2 + 3 * n_refs b)%nat.
Proof.
  assert (forall img n, images_of (OutputWriter index)
                          (AddImage (OutputWriter index) img n) = [img]) as Himg.
  { intros img n. unfold images_of. by rewrite decide_True. }
  unfold validate_image_events. rewrite !collect_app, !length_app.
  rewrite !collect_concat_map_eq.
  rewrite (length_concat_map_const _ (seq 0 (n_refs b)) 3).
  2:{ intros j. unfold collect. cbn [flat_map]. by rewrite !Himg. }
  assert (length (collect (images_of (OutputWriter index))
            [AddImage (OutputWriter index) ValDispnetOutput epoch;
             AddImage (OutputWriter index) ValDepthOutputNormalized epoch])
          = 2%nat) as ->.
  { unfold collect. cbn [flat_map]. by rewrite !Himg. }
  rewrite length_seq.
  destruct (epoch =? 0).
  - rewrite collect_concat_map_eq.
    rewrite (length_concat_map_const _ (seq 0 (n_refs b)) 2).
    + rewrite length_seq. lia.
    + intros j. unfold collect. cbn [flat_map]. by rewrite !Himg.
  - simpl. lia.
Qed.

(** X15. A validation iteration at batch index [i] writes no image unless
    there are output writers, [i mod 100 = 0] and [i div 100] is below
    their number, and then writes to writer [i div 100] exactly
    [2 + 3 * references] images, plus [2 * references] raw inputs in
    epoch 0. *)
Theorem X15_images_per_validation_step args epoch output_writers len_val_loader
    (i : nat) b l s :
  let new := drop (length (events s))
                  (events (validate_step args epoch output_writers len_val_loader
                                         (Z.of_nat i) b l s).2) in
  let index := Z.to_nat (Z.of_nat i `div` 100) in
  length (collect (images_of (OutputWriter index)) new)
  = if bool_decide (0 < output_writers)%nat && (Z.of_nat i `mod` 100 =? 0)
       && (Z.of_nat i `div` 100 <? Z.of_nat output_writers)
    then ((if (epoch =? 0)%Z then 2 * n_refs b else 0) + 2 + 3 * n_refs b)%nat
    else 0%nat.
Proof.
  intros new index. subst new. rewrite validate_step_state.
  cbn [events log_events set_events]. rewrite drop_app_length.
  unfold validate_step_events, validate_emits. fold index.
  destruct (_ && _ && _); [apply validate_image_events_count | reflexivity].
Qed.

End MoreFacts.

(** ** Concrete runs, continued *)

Module Scenario2.

(** [Fixture.args] with the default epoch size, with [--print-freq 0],
    and a training set whose batches have one reference image. *)
Definition args_default : Args := MkArgs "sequential" 2 0 2 10 1 1 (2#10) 3 true.
Definition args_print0 : Args := MkArgs "sequential" 2 3 2 0 1 1 (2#10) 3 true.
Definition short_loader (_ : Z) : list batch := map (fun k => Batch k 1) (seq 0 10).

Definition run_default : outcome unit * state :=
  main Fixture.forward Fixture.backward Fixture.adam args_default Fixture.θ0
       Fixture.disp_params Fixture.pose_params Fixture.train_loader
       Fixture.val_loader initial_state.

End Scenario2.

Lemma X1_steps_and_counter_of_a_run_witness :
  Z.of_nat (count_steps (events Fixture.run.2)) = 6 /\ n_iter Fixture.run.2 = 4.
Proof.
  apply (X1_steps_and_counter_of_a_run (torch := Fixture.arith)
           Fixture.forward Fixture.backward Fixture.adam Fixture.args
           Fixture.θ0 Fixture.disp_params Fixture.pose_params
           Fixture.train_loader Fixture.val_loader).
  vm_compute. reflexivity.
Defined.

Lemma X2_default_epoch_size_witness :
  Z.of_nat (count_steps (events Scenario2.run_default.2)) = 2 * 10 /\
  n_iter Scenario2.run_default.2 = 2 * (10 - 1).
Proof.
  apply (X2_default_epoch_size (torch := Fixture.arith)
           Fixture.forward Fixture.backward Fixture.adam Scenario2.args_default
           Fixture.θ0 Fixture.disp_params Fixture.pose_params
           Fixture.train_loader Fixture.val_loader 10).
  - reflexivity.
  - lia.
  - intros e. reflexivity.
  - vm_compute. reflexivity.
Defined.

Lemma X3_print_freq_zero_witness :
  (main Fixture.forward Fixture.backward Fixture.adam Scenario2.args_print0
        Fixture.θ0 Fixture.disp_params Fixture.pose_params Fixture.train_loader
        Fixture.val_loader initial_state).1 = Raise ZeroDivisionError.
Proof.
  exact (proj1 (X3_print_freq_zero (torch := Fixture.arith)
                  Fixture.forward Fixture.backward Fixture.adam
                  Scenario2.args_print0 Fixture.θ0 Fixture.disp_params
                  Fixture.pose_params Fixture.train_loader Fixture.val_loader
                  (Batch 0 2) (map (fun k => Batch k 2) (seq 1 9))
                  eq_refl eq_refl ltac:(simpl; lia) eq_refl
                  ltac:(intros _; simpl; lia))).
Defined.

Lemma X4_log_output_needs_two_references_witness :
  (main Fixture.forward Fixture.backward Fixture.adam Fixture.args
        Fixture.θ0 Fixture.disp_params Fixture.pose_params Scenario2.short_loader
        Fixture.val_loader initial_state).1 = Raise IndexError.
Proof.
  exact (proj1 (X4_log_output_needs_two_references (torch := Fixture.arith)
                  Fixture.forward Fixture.backward Fixture.adam
                  Fixture.args Fixture.θ0 Fixture.disp_params
                  Fixture.pose_params Scenario2.short_loader Fixture.val_loader
                  (Batch 0 1) (map (fun k => Batch k 1) (seq 1 9))
                  eq_refl eq_refl ltac:(simpl; lia) eq_refl
                  ltac:(simpl; lia))).
Defined.

Lemma X5_validate_negative_buffer_witness :
  validate Fixture.forward Fixture.args [] 0 3 Scenario.s0
  = (Raise ValueError, Scenario.s0).
Proof.
  apply (X5_validate_negative_buffer (torch := Fixture.arith)
           Fixture.forward Fixture.args [] 0 3 Scenario.s0).
  simpl. lia.
Defined.

Lemma X7_channels_used_by_a_validation_epoch_witness :
  exists l s' new,
    validate_body Fixture.forward Fixture.args Fixture.val_loader 0 3 Scenario.s0
    = (Ok l, s') /\
    events s' = events Scenario.s0 ++ new /\
    forall c : nat,
      (exists img step, AddImage (OutputWriter c) img step ∈ new)
      <-> (c < 3)%nat /\ (100 * c < length Fixture.val_loader)%nat.
Proof.
  destruct (validate_body Fixture.forward Fixture.args Fixture.val_loader 0 3
                          Scenario.s0) as [[l|e] s'] eqn:H;
    [| vm_compute in H; discriminate].
  destruct (X7_channels_used_by_a_validation_epoch (torch := Fixture.arith)
              Fixture.forward Fixture.args Fixture.val_loader 0 3
              Scenario.s0 l s' H) as (new & Hnew).
  exists l, s', new. split; [reflexivity | exact Hnew].
Defined.

Lemma X11_foreign_tensors_untouched_witness :
  store Fixture.run.2 !! 3%positive = Fixture.θ0 !! 3%positive.
Proof.
  apply (X11_foreign_tensors_untouched (torch := Fixture.arith)
           Fixture.forward Fixture.backward Fixture.adam Fixture.args
           Fixture.θ0 Fixture.disp_params Fixture.pose_params
           Fixture.train_loader Fixture.val_loader 3%positive).
  - reflexivity.
  - unfold Fixture.disp_params. rewrite elem_of_cons, elem_of_nil.
    intros [H | H]; [discriminate H | exact H].
  - unfold Fixture.pose_params. rewrite !elem_of_cons, elem_of_nil.
    intros [H | [H | H]]; [discriminate H | discriminate H | exact H].
Defined.

Lemma X12_full_log_matches_training_scalars_witness :
  map (fun row => row.1.1.1) (log_full Fixture.run.2)
  = collect (scalar_values TrainWriter "total_loss") (events Fixture.run.2).
Proof.
  exact (proj1 (X12_full_log_matches_training_scalars (torch := Fixture.arith)
                  Fixture.forward Fixture.backward Fixture.adam Fixture.args
                  Fixture.θ0 Fixture.disp_params Fixture.pose_params
                  Fixture.train_loader Fixture.val_loader Fixture.run.2
                  ltac:(vm_compute; reflexivity))).
Defined.

Lemma X13_step_index_shared_across_epochs_witness :
  exists r s1 pre b1 o1 post,
    train Fixture.forward Fixture.backward Fixture.adam Fixture.args
          (Fixture.train_loader 0) Scenario.cfg.1.1 3 Scenario.s0 = (Ok r, s1) /\
    b1 ∈ Fixture.train_loader 0 /\
    events s1
    = pre ++ (train_scalar_events Fixture.args o1 (n_iter s1)
              ++ train_step_images Fixture.args b1 o1 (n_iter s1))
          ++ [OptimizerStep (elements Scenario.cfg.1.1)] /\
    events (train Fixture.forward Fixture.backward Fixture.adam Fixture.args
                  (Batch 0 2 :: []) Scenario.cfg.1.1 3 s1).2
    = events s1
      ++ train_scalar_events Fixture.args
           (Fixture.forward true true (store s1) (Batch 0 2)) (n_iter s1)
      ++ post.
Proof.
  destruct (train Fixture.forward Fixture.backward Fixture.adam Fixture.args
                  (Fixture.train_loader 0) Scenario.cfg.1.1 3 Scenario.s0)
    as [[r|e] s1] eqn:H; [| vm_compute in H; discriminate].
  destruct (X13_step_index_shared_across_epochs (torch := Fixture.arith)
              Fixture.forward Fixture.backward Fixture.adam Fixture.args
              (Fixture.train_loader 0) (Batch 0 2) [] Scenario.cfg.1.1 3
              Scenario.s0 r s1 s1 H ltac:(discriminate) ltac:(simpl; lia) eq_refl)
    as (pre & b1 & o1 & post & Hb1 & Hev & Hnext).
  exists r, s1, pre, b1, o1, post. auto.
Defined.

Lemma X14_images_per_training_step_witness :
  length (collect (images_of TrainWriter)
            (drop (length (events Scenario.s0))
               (events (train_step Fixture.forward Fixture.backward Fixture.adam
                          Fixture.args Scenario.cfg.1.1 0 (Batch 0 2) meter_new
                          Scenario.s0).2)))
  = 35%nat.
Proof.
  exact (X14_images_per_training_step (torch := Fixture.arith)
           Fixture.forward Fixture.backward Fixture.adam Fixture.args
           Scenario.cfg.1.1 0 (Batch 0 2) meter_new Scenario.s0
           ltac:(simpl; lia)).
Defined.
